(** * ScriptTaste: the collage pipeline of [src/collage.py]

    A shallow embedding of [normalize_posters],
    [resize_width_w_constant_aspect] and [arrange_images], and the
    properties of the composition pipeline checked against it.

    Modelling conventions.
    - Python [int]s that count pixels (image sizes, packer positions, array
      indices) are [nat]; the time weights are [Z].
    - Python [float]/[numpy.float64] arithmetic is binary64 arithmetic.
      Module [Binary64] embeds the normalizer with it, and every property
      that turns on how a computed size is rounded, compared with 1 or
      converted by [int] is stated on that embedding.  The definitions
      of the normalizer outside the module are the same expressions in
      exact arithmetic over the real numbers [R] ([np.sqrt] is [sqrt],
      [/] is real division, comparisons are decided exactly): they give
      the sizes the code aims at, and a statement about them is one about
      the program only as far as rounding does not bear on it.
    - Exceptions are values of [result]; [None] is [option].
    - A numpy array of shape (rows, cols, 3) is a [list (list pixel)], one
      RGB triple per cell; posters are RGB images.
    - The three library primitives the module calls (PIL's resampling
      filter, [rpack.pack], PIL's Gaussian blur) are the fields of the
      interface [Externals]. *)

From Stdlib Require Import ZArith Reals Lra Lia.
From Stdlib Require PrimFloat FloatOps FloatAxioms SpecFloat Uint63.
From Stdlib Require Import Ascii String.
From stdpp Require Import base decidable option list sorting strings gmap.

(** ** Python runtime *)

Inductive exn : Type :=
  | ValueError
  | ZeroDivisionError
  | OverflowError.

Inductive result (A : Type) : Type :=
  | Ok (a : A)
  | Raise (e : exn).
Arguments Ok {A} a.
Arguments Raise {A} e.

#[global] Instance result_ret : MRet result := @Ok.
#[global] Instance result_bind : MBind result :=
  λ A B f m, match m with Ok a => f a | Raise e => Raise e end.
#[global] Instance result_fmap : FMap result :=
  λ A B f m, match m with Ok a => Ok (f a) | Raise e => Raise e end.

(** [max(iterable)]: raises [ValueError] on an empty iterable. *)
Definition py_max {A : Type} (mx : A → A → A) (xs : list A) : result A :=
  match xs with
  | [] => Raise ValueError
  | x :: xs' => Ok (foldl mx x xs')
  end.

(** [m] is the largest element of [xs]. *)
Definition is_max (m : nat) (xs : list nat) : Prop :=
  m ∈ xs ∧ ∀ y, y ∈ xs → y ≤ m.

(** [a / b] on two Python ints: true division, [ZeroDivisionError] when
    [b] is zero. *)
Definition true_div (a b : Z) : result R :=
  if decide (b = 0%Z) then Raise ZeroDivisionError else Ok (IZR a / IZR b)%R.

#[global] Instance Rle_decision : RelDecision Rle := Rle_dec.
#[global] Instance Rlt_decision : RelDecision Rlt := Rlt_dec.

(** [int(x)] on a float: truncation toward zero. *)
Definition py_int (x : R) : Z :=
  if decide (0 <= x)%R then Zfloor x else (- Zfloor (- x))%Z.

(** [sorted(xs, key=key, reverse=True)].  Python's sort is stable and
    [reverse=True] keeps it so: elements whose keys compare equal stay in
    their original relative order.  [insert_desc x l] puts [x], which
    preceded every element of [l] in the input, after the elements with a
    strictly larger key and before all others. *)
Fixpoint insert_desc {A : Type} (key : A → nat) (x : A) (l : list A) : list A :=
  match l with
  | [] => [x]
  | y :: ys =>
      if (key x <? key y)%nat then y :: insert_desc key x ys else x :: y :: ys
  end.

Fixpoint sorted_reverse {A : Type} (key : A → nat) (xs : list A) : list A :=
  match xs with
  | [] => []
  | x :: xs' => insert_desc key x (sorted_reverse key xs')
  end.

(** Keys do not increase from [a] to [b]. *)
Definition key_ge {A : Type} (key : A → nat) (a b : A) : Prop := key b ≤ key a.

(** ** Images and arrays *)

Definition pixel : Type := Z * Z * Z.

Definition white : pixel := (255, 255, 255)%Z.

(** A PIL image: [size] is (width, height); [data img r c] is
    [np.array(img)[r, c]], the pixel in row [r] and column [c]. *)
Record image : Type := Image {
  size : nat * nat;
  data : nat → nat → pixel
}.

Abbreviation array2 A := (list (list A)) (only parsing).

Definition nrows {A : Type} (a : array2 A) : nat := length a.

Definition ncols {A : Type} (a : array2 A) : nat :=
  match a with
  | [] => 0
  | row :: _ => length row
  end.

(** [a[r, c]] *)
Definition at2 {A : Type} (a : array2 A) (r c : nat) : option A :=
  a !! r ≫= λ row, row !! c.

(** Every row has [cols] cells and there are [rows] rows. *)
Definition has_shape {A : Type} (rows cols : nat) (a : array2 A) : Prop :=
  length a = rows ∧ ∀ r row, a !! r = Some row → length row = cols.

(** [np.full([rows, cols, 3], v)] *)
Definition np_full {A : Type} (rows cols : nat) (v : A) : array2 A :=
  replicate rows (replicate cols v).

(** [np.full_like(a, v)] *)
Definition np_full_like {A B : Type} (a : array2 A) (v : B) : array2 B :=
  (λ row : list A, (λ _, v) <$> row) <$> a.

(** [np.array(img)]: shape (height, width, 3). *)
Definition np_array (img : image) : array2 pixel :=
  (λ r : nat, (λ c : nat, data img r c) <$> seq 0 (size img).1)
    <$> seq 0 (size img).2.

(** [Image.fromarray(a)] *)
Definition fromarray (a : array2 pixel) : image :=
  {| size := (ncols a, nrows a);
     data := λ r c, default white (at2 a r c) |}.

(** Is index [i] inside the slice [start : start + len]? *)
Definition in_slice (start len i : nat) : bool :=
  (start <=? i)%nat && (i <? start + len)%nat.

(** [a[y : y + dy, x : x + dx] = v] for an array [v] of shape (dy, dx, 3).
    When the slice runs past the edge of [a], numpy clips it and the
    assignment fails on the shape mismatch. *)
Definition slice_assign {A : Type}
    (a : array2 A) (y dy x dx : nat) (v : array2 A) : result (array2 A) :=
  if decide (y + dy ≤ nrows a ∧ x + dx ≤ ncols a) then
    Ok (imap (λ r row,
          if in_slice y dy r then
            imap (λ c old,
              if in_slice x dx c then default old (at2 v (r - y) (c - x))
              else old) row
          else row) a)
  else Raise ValueError.

(** [a[y : y + dy, x : x + dx] = v] for a scalar [v]: the slice is clipped
    to the array, no error. *)
Definition slice_fill {A : Type}
    (a : array2 A) (y dy x dx : nat) (v : A) : array2 A :=
  imap (λ r row,
    if in_slice y dy r then
      imap (λ c old, if in_slice x dx c then v else old) row
    else row) a.

(** [np.where(mask)]: the coordinates of the true cells, in row-major
    order.  The source mask has one flag per colour channel; the three
    flags of a pixel are always written together, so one flag per pixel
    is kept. *)
Definition where_row (r : nat) (row : list bool) : list (nat * nat) :=
  omap (λ cb : nat * bool, if cb.2 then Some (r, cb.1) else None)
       (imap (λ c b, (c, b)) row).

Definition np_where (mask : array2 bool) : list (nat * nat) :=
  mjoin (imap where_row mask).

(** [a[r, c] = v] *)
Definition set2 {A : Type} (a : array2 A) (r c : nat) (v : A) : array2 A :=
  alter (λ row, <[c := v]> row) r a.

(** [a[idx] = b[idx]] for an index list [idx] as [np.where] returns it:
    the values are gathered from [b], then scattered into [a]. *)
Definition index_assign {A : Type}
    (a : array2 A) (idx : list (nat * nat)) (b : array2 A) : array2 A :=
  foldl (λ acc rc,
           match at2 b rc.1 rc.2 with
           | Some v => set2 acc rc.1 rc.2 v
           | None => acc
           end) a idx.

(** ** Library primitives *)

Class Externals : Type := {
  (** pixel data of [img.resize(size, Image.ANTIALIAS)] *)
  resample : image → nat * nat → nat → nat → pixel;
  (** [rpack.pack(sizes)]: one (x, y) position per (width, height) *)
  rpack_pack : list (nat * nat) → list (nat * nat);
  (** pixel data of [img.filter(ImageFilter.GaussianBlur(radius))] *)
  gaussian_blur : Z → image → nat → nat → pixel
}.

(** [img.resize(size, Image.ANTIALIAS)] *)
Definition resize `{Externals} (img : image) (sz : nat * nat) : image :=
  {| size := sz; data := resample img sz |}.

(** [img.filter(ImageFilter.GaussianBlur(radius))]: same size. *)
Definition filter_blur `{Externals} (radius : Z) (img : image) : image :=
  {| size := size img; data := gaussian_blur radius img |}.

(** ** The poster normalizer, in exact arithmetic *)

Definition area (img : image) : nat := (size img).1 * (size img).2.

(** [width = np.sqrt(ratio) * img.size[0]] *)
Definition target_width (ratio : R) (img : image) : R :=
  (sqrt ratio * INR (size img).1)%R.

(** [height = width * img.size[0] / img.size[1]] *)
Definition target_height (ratio : R) (img : image) : R :=
  (target_width ratio img * INR (size img).1 / INR (size img).2)%R.

(** [resize_width_w_constant_aspect(ratio, img)].  The tuple handed to
    [img.resize] is [(int(height), int(width))], and PIL reads it as
    (width, height).  With [img.size[1] = 0] the float64 division yields
    [inf] (or [nan]) instead of raising; [int(inf)] then raises
    [OverflowError]. *)
Definition resize_width_w_constant_aspect `{Externals}
    (ratio : R) (img : image) : result (option image) :=
  let width := target_width ratio img in
  match (size img).2 with
  | O => if decide (1 <= width)%R then Raise OverflowError else Ok None
  | S _ =>
      let height := target_height ratio img in
      if decide ((1 <= height)%R ∧ (1 <= width)%R) then
        Ok (Some (resize img (Z.to_nat (py_int height), Z.to_nat (py_int width))))
      else Ok None
  end.

(** The [ratio] the loop body computes for one poster, when neither
    division raises. *)
Definition poster_ratio (max_time : Z) (max_area : nat) (time : Z)
    (img : image) : R :=
  (IZR (Z.of_nat max_area) / IZR (Z.of_nat (area img))
   * (IZR time / IZR max_time))%R.

(** What one pass of the loop adds to [normalized_posters] when neither
    division raises: the resized poster, or nothing. *)
Definition normalized `{Externals} (max_time : Z) (max_area : nat)
    (tp : Z * image) : option image :=
  let ratio := poster_ratio max_time max_area tp.1 tp.2 in
  if decide ((1 <= target_height ratio tp.2)%R
             ∧ (1 <= target_width ratio tp.2)%R)
  then Some (resize tp.2 (Z.to_nat (py_int (target_height ratio tp.2)),
                          Z.to_nat (py_int (target_width ratio tp.2))))
  else None.

(** The body of the [for time, img in time_posters] loop. *)
Fixpoint normalize_loop `{Externals} (max_time : Z) (max_area : nat)
    (time_posters : list (Z * image)) (normalized_posters : list image)
    : result (list image) :=
  match time_posters with
  | [] => Ok normalized_posters
  | (time, img) :: rest =>
      area_norm_ratio ← true_div (Z.of_nat max_area) (Z.of_nat (area img));
      time_norm_ratio ← true_div time max_time;
      let ratio := (area_norm_ratio * time_norm_ratio)%R in
      img' ← resize_width_w_constant_aspect ratio img;
      normalize_loop max_time max_area rest
        (match img' with
         | Some i => normalized_posters ++ [i]
         | None => normalized_posters
         end)
  end.

Definition normalize_posters `{Externals}
    (time_posters : list (Z * image)) : result (list image) :=
  max_time ← py_max Z.max (fst <$> time_posters);
  max_area ← py_max Nat.max ((λ tp, area tp.2) <$> time_posters);
  normalize_loop max_time max_area time_posters [].

(** ** The normalizer in binary64

    [normalize_posters] and [resize_width_w_constant_aspect] once more,
    this time with the arithmetic the interpreter performs.  A Python
    [float] and a [numpy.float64] are IEEE 754 binary64 numbers, here the
    primitive floats of Rocq: [*], [/], [np.sqrt] and [>=] are the
    correctly rounded operations [mul], [div], [sqrt] and [leb] (round to
    nearest, ties to even; [nan] compares false).  Python's [int / int] is
    the correctly rounded quotient of the two integers, whatever their
    size, given by [SFdiv] of the Standard Library's specification of
    binary64 on the unrounded integers.  The sides of an image are C
    [int]s in PIL, far below [2^63]; numpy converts them to the nearest
    binary64 number. *)
Module Binary64.
Import PrimFloat.

(** A Python [int] as floating-point data before any rounding. *)
Definition Z2SF (z : Z) : SpecFloat.spec_float :=
  match z with
  | Z0 => SpecFloat.S754_zero false
  | Zpos p => SpecFloat.S754_finite false p 0
  | Zneg p => SpecFloat.S754_finite true p 0
  end.

(** [a / b] on Python [int]s: [ZeroDivisionError] for [b = 0],
    [OverflowError] when the rounded quotient is not finite. *)
Definition true_div (a b : Z) : result float :=
  if decide (b = 0%Z) then Raise ZeroDivisionError
  else
    match SpecFloat.SFdiv FloatOps.prec FloatOps.emax (Z2SF a) (Z2SF b) with
    | SpecFloat.S754_infinity _ => Raise OverflowError
    | q => Ok (FloatOps.SF2Prim q)
    end.

(** The binary64 number numpy makes of [img.size[i]]: exact below [2^53],
    the nearest one below [2^63]. *)
Definition of_int (z : Z) : float := of_uint63 (Uint63.of_Z z).

(** The integer part of [m * 2^e]. *)
Definition magnitude (m : positive) (e : Z) : Z :=
  if (0 <=? e)%Z then (Z.pos m * 2 ^ e)%Z else (Z.pos m / 2 ^ (- e))%Z.

(** [int(f)]: truncation toward zero; [OverflowError] for an infinity,
    [ValueError] for [nan]. *)
Definition to_int (f : float) : result Z :=
  match FloatOps.Prim2SF f with
  | SpecFloat.S754_zero _ => Ok 0%Z
  | SpecFloat.S754_finite s m e =>
      Ok (if s then (- magnitude m e)%Z else magnitude m e)
  | SpecFloat.S754_infinity _ => Raise OverflowError
  | SpecFloat.S754_nan => Raise ValueError
  end.


Definition is_finite (f : float) : bool :=
  match FloatOps.Prim2SF f with
  | SpecFloat.S754_zero _ | SpecFloat.S754_finite _ _ _ => true
  | _ => false
  end.


(** Signs of binary64 data that may be [nan]: not above zero, not below
    zero, and zero or [nan]. *)
Definition SFnonpos (x : SpecFloat.spec_float) : bool :=
  match x with
  | SpecFloat.S754_zero _ | SpecFloat.S754_nan => true
  | SpecFloat.S754_infinity s | SpecFloat.S754_finite s _ _ => s
  end.

Definition SFnonneg (x : SpecFloat.spec_float) : bool :=
  match x with
  | SpecFloat.S754_zero _ | SpecFloat.S754_nan => true
  | SpecFloat.S754_infinity s | SpecFloat.S754_finite s _ _ => negb s
  end.

Definition SFnull (x : SpecFloat.spec_float) : bool :=
  match x with
  | SpecFloat.S754_zero _ | SpecFloat.S754_nan => true
  | _ => false
  end.

(** [width = np.sqrt(ratio) * img.size[0]] *)
Definition target_width (ratio : float) (img : image) : float :=
  (sqrt ratio * of_int (Z.of_nat (size img).1))%float.

(** [height = width * img.size[0] / img.size[1]] *)
Definition target_height (ratio : float) (img : image) : float :=
  (target_width ratio img * of_int (Z.of_nat (size img).1)
   / of_int (Z.of_nat (size img).2))%float.

(** [resize_width_w_constant_aspect(ratio, img)]: [map(int, (height,
    width))] converts the height first, and PIL reads the pair as (width,
    height). *)
Definition resize_width_w_constant_aspect `{Externals}
    (ratio : float) (img : image) : result (option image) :=
  let width := target_width ratio img in
  let height := target_height ratio img in
  if (1 <=? height)%float && (1 <=? width)%float then
    h ← to_int height;
    w ← to_int width;
    Ok (Some (resize img (Z.to_nat h, Z.to_nat w)))
  else Ok None.

(** One pass of the body of the [for time, img in time_posters] loop:
    the resized poster, [None] for a poster that is dropped, or the
    exception the pass raises. *)
Definition normalized `{Externals} (max_time : Z) (max_area : nat)
    (tp : Z * image) : result (option image) :=
  area_norm_ratio ← true_div (Z.of_nat max_area) (Z.of_nat (area tp.2));
  time_norm_ratio ← true_div tp.1 max_time;
  let ratio := (area_norm_ratio * time_norm_ratio)%float in
  resize_width_w_constant_aspect ratio tp.2.

(** The [for time, img in time_posters] loop. *)
Fixpoint normalize_loop `{Externals} (max_time : Z) (max_area : nat)
    (time_posters : list (Z * image)) (normalized_posters : list image)
    : result (list image) :=
  match time_posters with
  | [] => Ok normalized_posters
  | (time, img) :: rest =>
      area_norm_ratio ← true_div (Z.of_nat max_area) (Z.of_nat (area img));
      time_norm_ratio ← true_div time max_time;
      let ratio := (area_norm_ratio * time_norm_ratio)%float in
      img' ← resize_width_w_constant_aspect ratio img;
      normalize_loop max_time max_area rest
        (match img' with
         | Some i => normalized_posters ++ [i]
         | None => normalized_posters
         end)
  end.

Definition normalize_posters `{Externals}
    (time_posters : list (Z * image)) : result (list image) :=
  max_time ← py_max Z.max (fst <$> time_posters);
  max_area ← py_max Nat.max ((λ tp, area tp.2) <$> time_posters);
  normalize_loop max_time max_area time_posters [].

(** The posters a list of passes keeps. *)
Definition kept `{Externals} (max_time : Z) (max_area : nat)
    (tp : Z * image) : option image :=
  match normalized max_time max_area tp with
  | Ok (Some img) => Some img
  | _ => None
  end.
End Binary64.

(** ** The packer, compositor and diffuser *)

(** Canvas allocation of [arrange_images]: [max_width], [max_height] and
    [np.full([max_height + 1, max_width + 1, 3], 255)]. *)
Definition canvas_alloc (positions sizes : list (nat * nat))
    : result (array2 pixel) :=
  max_width ← py_max Nat.max ((λ ab, ab.1.1 + ab.2.1) <$> zip positions sizes);
  max_height ← py_max Nat.max ((λ ab, ab.1.2 + ab.2.2) <$> zip positions sizes);
  Ok (np_full (max_height + 1) (max_width + 1) white).

(** The [for (x, y), img in zip(positions, normalized_posters)] loop. *)
Fixpoint place_images (placed : list ((nat * nat) * image))
    (collage : array2 pixel) (deadspace : array2 bool)
    : result (array2 pixel * array2 bool) :=
  match placed with
  | [] => Ok (collage, deadspace)
  | (xy, img) :: rest =>
      let dx := (size img).1 in
      let dy := (size img).2 in
      collage ← slice_assign collage xy.2 dy xy.1 dx (np_array img);
      place_images rest collage (slice_fill deadspace xy.2 dy xy.1 dx false)
  end.

(** The rectangles in the order [arrange_images] hands them to the
    packer. *)
Definition pack_order (normalized_posters : list image) : list image :=
  sorted_reverse area normalized_posters.

(** The packed layout: each sorted poster zipped with its position. *)
Definition placements `{Externals} (normalized_posters : list image)
    : list ((nat * nat) * image) :=
  let sorted := pack_order normalized_posters in
  zip (rpack_pack (size <$> sorted)) sorted.

(** [arrange_images] up to and including the placing loop: the
    composited canvas and the deadspace mask. *)
Definition compose `{Externals} (normalized_posters : list image)
    : result (array2 pixel * array2 bool) :=
  let normalized_posters := pack_order normalized_posters in
  let sizes := size <$> normalized_posters in
  let positions := rpack_pack sizes in
  collage ← canvas_alloc positions sizes;
  let deadspace := np_full_like collage true in
  place_images (zip positions normalized_posters) collage deadspace.

(** The variables the diffusion loop reads and writes. *)
Record canvas_state : Type := CanvasState {
  collage : array2 pixel;
  deadspace : list (nat * nat)
}.

(** One pass of the loop body:
    [blurred = Image.fromarray(collage).filter(gaussian_blur)];
    [collage[deadspace] = np.array(blurred)[deadspace]]. *)
Definition diffuse_step `{Externals} (blur_radius : Z) (st : canvas_state)
    : canvas_state :=
  let blurred := filter_blur blur_radius (fromarray (collage st)) in
  {| collage := index_assign (collage st) (deadspace st) (np_array blurred);
     deadspace := deadspace st |}.

(** [for _ in range(blur_factor)]: no pass for [blur_factor <= 0]. *)
Definition diffuse `{Externals} (blur_factor blur_radius : Z)
    (st : canvas_state) : canvas_state :=
  Nat.iter (Z.to_nat blur_factor) (diffuse_step blur_radius) st.

Definition arrange_images `{Externals} (normalized_posters : list image)
    (blur_factor blur_radius : Z) : result (array2 pixel) :=
  cd ← compose normalized_posters;
  let st := {| collage := cd.1; deadspace := np_where cd.2 |} in
  Ok (collage (diffuse blur_factor blur_radius st)).

(** [draw] between its two I/O ends: [normalize_posters] followed by
    [arrange_images]. *)
Definition draw `{Externals} (time_posters : list (Z * image))
    (blur_factor blur_radius : Z) : result (array2 pixel) :=
  normalized_posters ← normalize_posters time_posters;
  arrange_images normalized_posters blur_factor blur_radius.

(** Does the rectangle placed at [xy] with the size of [img] cover the
    cell in row [r], column [c]? *)
Definition covers (p : (nat * nat) * image) (r c : nat) : Prop :=
  p.1.2 ≤ r < p.1.2 + (size p.2).2 ∧ p.1.1 ≤ c < p.1.1 + (size p.2).1.

Definition coversb (p : (nat * nat) * image) (r c : nat) : bool :=
  in_slice p.1.2 (size p.2).2 r && in_slice p.1.1 (size p.2).1 c.

(** The pixel the placing loop leaves in cell ([r], [c]) that held [old]
    before: each rectangle covering the cell overwrites it in turn. *)
Fixpoint painted (placed : list ((nat * nat) * image)) (r c : nat)
    (old : pixel) : pixel :=
  match placed with
  | [] => old
  | p :: rest =>
      painted rest r c
        (if coversb p r c then data p.2 (r - p.1.2) (c - p.1.1) else old)
  end.

(** The right and bottom edges of a placed rectangle. *)
Definition right_edge (p : (nat * nat) * image) : nat := p.1.1 + (size p.2).1.
Definition bottom_edge (p : (nat * nat) * image) : nat := p.1.2 + (size p.2).2.

(** ** A concrete instance of the library primitives

    Nearest-neighbour resampling, a packer that lines the rectangles up
    left to right, and a blur that gives every pixel the colour of its
    left neighbour.  Used to run the model on concrete inputs. *)

Definition nearest_resample (img : image) (sz : nat * nat) (r c : nat) : pixel :=
  data img (r * (size img).2 / sz.2) (c * (size img).1 / sz.1).

Fixpoint row_pack_from (x : nat) (sizes : list (nat * nat)) : list (nat * nat) :=
  match sizes with
  | [] => []
  | wh :: rest => (x, 0) :: row_pack_from (x + wh.1) rest
  end.

Definition row_pack (sizes : list (nat * nat)) : list (nat * nat) :=
  row_pack_from 0 sizes.

Definition smear_blur (radius : Z) (img : image) (r c : nat) : pixel :=
  data img r (pred c).

Definition demo_externals : Externals :=
  {| resample := nearest_resample;
     rpack_pack := row_pack;
     gaussian_blur := smear_blur |}.

(** A packer that refuses any list whose areas are not in non-increasing
    order, and otherwise packs like [row_pack]. *)
Fixpoint areas_descend (sizes : list (nat * nat)) : bool :=
  match sizes with
  | a :: (b :: _) as rest => (b.1 * b.2 <=? a.1 * a.2)%nat && areas_descend rest
  | _ => true
  end.

Definition strict_pack (sizes : list (nat * nat)) : list (nat * nat) :=
  if areas_descend sizes then row_pack sizes else [].

Definition strict_externals : Externals :=
  {| resample := nearest_resample;
     rpack_pack := strict_pack;
     gaussian_blur := smear_blur |}.

(** A poster of one flat colour. *)
Definition flat (w h : nat) (p : pixel) : image :=
  {| size := (w, h); data := λ _ _, p |}.

Definition red : pixel := (255, 0, 0)%Z.
Definition blue : pixel := (0, 0, 255)%Z.


(** ** [parse_duration]

    A string is the list of its characters, one byte each, which is what
    a Python [str] of ASCII characters is.  On such a string [\d] is one
    of the ten characters '0' to '9', and so is what [int] reads.  On
    other strings Python's [\d] and [int] also take the decimal digits of
    other scripts, which a byte does not tell; the properties that rest
    on a character not being a digit are stated for ASCII text
    ([is_ascii]). *)

Definition is_digit (c : ascii) : bool :=
  (48 <=? nat_of_ascii c)%nat && (nat_of_ascii c <=? 57)%nat.

Definition digit_value (c : ascii) : Z := Z.of_nat (nat_of_ascii c) - 48.

(** [int(s)] on a string of decimal digits, most significant first. *)
Fixpoint int_digits_from (acc : Z) (s : string) : Z :=
  match s with
  | EmptyString => acc
  | String c s' => int_digits_from (10 * acc + digit_value c) s'
  end.

Definition int_digits (s : string) : Z := int_digits_from 0 s.

(** Does [s] start with the literal [lit]? *)
Fixpoint starts_with (lit s : string) : bool :=
  match lit, s with
  | EmptyString, _ => true
  | String a lit', String b s' => bool_decide (a = b) && starts_with lit' s'
  | String _ _, EmptyString => false
  end.

(** Group 1 of the pattern [(\d+)] followed by the literal [lit], matched
    at the start of [s]: the greedy [\d+] takes every digit it can and
    gives them back one at a time until [lit] follows. *)
Fixpoint match_digits (lit s : string) : option string :=
  match s with
  | EmptyString => None
  | String c s' =>
      if is_digit c then
        match match_digits lit s' with
        | Some group => Some (String c group)
        | None => if starts_with lit s' then Some (String c EmptyString) else None
        end
      else None
  end.

(** [re.search] for that pattern: group 1 of the leftmost match. *)
Fixpoint re_search_digits (lit s : string) : option string :=
  match s with
  | EmptyString => None
  | String c s' =>
      match match_digits lit s with
      | Some group => Some group
      | None => re_search_digits lit s'
      end
  end.

(** [parse_duration(duration)]: the pattern for a unit is
    [r"(\d+) {unit}".format(unit=unit)]. *)
Definition parse_duration (duration : string) : Z :=
  foldl (λ (time : Z) (su : Z * string),
           match re_search_digits (String " " su.2) duration with
           | Some group => (time + su.1 * int_digits group)%Z
           | None => time
           end)
        0%Z [(60%Z, "hr"%string); (1%Z, "min"%string)].

(** Every character of [s] is a decimal digit. *)
Fixpoint all_digits (s : string) : bool :=
  match s with
  | EmptyString => true
  | String c s' => is_digit c && all_digits s'
  end.

(** Every character of [s] is an ASCII character. *)
Fixpoint is_ascii (s : string) : bool :=
  match s with
  | EmptyString => true
  | String c s' => (nat_of_ascii c <? 128)%nat && is_ascii s'
  end.

(** No character of [s] is a decimal digit. *)
Fixpoint no_digits (s : string) : bool :=
  match s with
  | EmptyString => true
  | String c s' => negb (is_digit c) && no_digits s'
  end.

(** [s] is empty or starts with a character that is not a digit. *)
Definition no_digit_head (s : string) : bool :=
  match s with
  | EmptyString => true
  | String c _ => negb (is_digit c)
  end.

(** ** The anime list, the cache directories and [read_time_poster_data]

    An entry of the anime list and the metadata of a show follow the
    Jikan schema: [mal_id] and [watched_episodes] are ints, [title],
    [image_url] and [duration] are strings; they are records with the
    fields the program reads.  The three cache directories and the output
    directory hold what the program writes there: the files of [USERDIR]
    are keyed by user name (a name without path separators), those of
    [IMGDIR] and [ANIMEDIR] by [mal_id], and an image file is the decoded
    picture.  A missing key is a missing file. *)

Record anime : Type := Anime {
  mal_id : Z;
  title : string;
  image_url : string;
  watched_episodes : Z
}.

Record metadata : Type := Metadata {
  duration : string
}.

Record disk : Type := Disk {
  user_files : gmap string (list anime);
  image_files : gmap Z image;
  anime_files : gmap Z metadata;
  output_files : gmap string (list (list pixel))
}.

(** The loop of [read_time_poster_data]: [time_invested] is the list
    being built, [out] the lines printed so far. *)
Fixpoint read_time_poster_loop (d : disk) (user_animes : list anime)
    (time_invested : list (Z * image)) (out : list string)
    : list (Z * image) * list string :=
  match user_animes with
  | [] => (time_invested, out)
  | anime :: rest =>
      if decide (watched_episodes anime = 0%Z) then
        read_time_poster_loop d rest time_invested out
      else
        match anime_files d !! mal_id anime with
        | None =>
            read_time_poster_loop d rest time_invested
              (out ++ ["Skipping due to unfound metadata file for: "
                       +:+ title anime])
        | Some metadata =>
            match image_files d !! mal_id anime with
            | None =>
                read_time_poster_loop d rest time_invested
                  (out ++ ["Skipping due to unfound image file for: "
                           +:+ title anime])
            | Some img =>
                let duration_in_minutes := parse_duration (duration metadata) in
                let total_time :=
                  (duration_in_minutes * watched_episodes anime)%Z in
                read_time_poster_loop d rest
                  (time_invested ++ [(total_time, img)]) out
            end
        end
  end.

(** [read_time_poster_data(user_animes)] with the lines it prints. *)
Definition read_time_poster_data (d : disk) (user_animes : list anime)
    : list (Z * image) * list string :=
  read_time_poster_loop d user_animes [] [].

(** What the loop appends for one entry: the weighted poster, or
    nothing. *)
Definition time_poster (d : disk) (a : anime) : option (Z * image) :=
  if decide (watched_episodes a = 0%Z) then None
  else
    metadata ← anime_files d !! mal_id a;
    img ← image_files d !! mal_id a;
    Some ((parse_duration (duration metadata) * watched_episodes a)%Z, img).

(** The line the loop prints for one entry, if any. *)
Definition skip_message (d : disk) (a : anime) : option string :=
  if decide (watched_episodes a = 0%Z) then None
  else
    match anime_files d !! mal_id a with
    | None => Some ("Skipping due to unfound metadata file for: " +:+ title a)
    | Some _ =>
        match image_files d !! mal_id a with
        | None => Some ("Skipping due to unfound image file for: " +:+ title a)
        | Some _ => None
        end
    end.

(** [draw(user_animes, username, blur_factor, blur_radius)]: the collage
    is saved as [username + ".png"] in [OUTPUTDIR]; the result is the
    disk afterwards and the lines printed. *)
Definition draw_to_disk `{Externals} (d : disk) (user_animes : list anime)
    (username : string) (blur_factor blur_radius : Z)
    : result disk * list string :=
  let (time_posters, out) := read_time_poster_data d user_animes in
  match normalize_posters time_posters with
  | Raise e => (Raise e, out)
  | Ok normalized_posters =>
      let out := out ++ ["Generating final image this may take a while."] in
      match arrange_images normalized_posters blur_factor blur_radius with
      | Raise e => (Raise e, out)
      | Ok img =>
          (Ok {| user_files := user_files d;
                 image_files := image_files d;
                 anime_files := anime_files d;
                 output_files := <[username := img]> (output_files d) |},
           out)
      end
  end.

(** ** The network, the machine and [url_utils]

    The Jikan API, the image server and the clock are one abstract
    world that every call may change.  A call of the API or of
    [urllib.request.urlretrieve] returns a value or raises; only
    [jikanpy.exceptions.APIException] carries a message the program
    looks at. *)

Inductive io_exn : Type :=
  | APIException (msg : string)
  | OtherException (name : string).

Inductive io (A : Type) : Type :=
  | Done (a : A)
  | Failed (e : io_exn).
Arguments Done {A} a.
Arguments Failed {A} e.

Class Web : Type := {
  world : Type;
  (** [jikan.user(username=username, request="animelist")["anime"]] *)
  jikan_user : string → world → io (list anime) * world;
  (** [jikan.anime(mal_id)] *)
  jikan_anime : Z → world → io metadata * world;
  (** the picture [urllib.request.urlretrieve(url, path)] stores *)
  urlretrieve : string → world → io image * world;
  (** [time.sleep(seconds)] for [seconds >= 0] *)
  sleep : R → world → world
}.

(** Network, disk and standard output (one string per [print]). *)
Record machine `{Web} : Type := Machine {
  net : world;
  files : disk;
  stdout : list string
}.

(** A computation that may change the machine and may raise. *)
Definition prog `{Web} (A : Type) : Type := machine → io A * machine.

Definition prog_ret `{Web} {A : Type} (a : A) : prog A := λ m, (Done a, m).

Definition prog_bind `{Web} {A B : Type} (p : prog A) (k : A → prog B)
    : prog B :=
  λ m, match p m with
       | (Done a, m') => k a m'
       | (Failed e, m') => (Failed e, m')
       end.

Notation "'bind' x ← p ; k" := (prog_bind p (λ x, k))
  (at level 10, x name, p at level 100, k at level 200, only parsing).
Notation "'exec' p ; k" := (prog_bind p (λ _, k))
  (at level 10, p at level 100, k at level 200, only parsing).

Definition print `{Web} (line : string) : prog unit :=
  λ m, (Done tt,
        {| net := net m; files := files m; stdout := stdout m ++ [line] |}).

(** Lift a call that changes the world only. *)
Definition call `{Web} {A : Type} (f : world → io A * world) : prog A :=
  λ m, let (r, w) := f (net m) in
       (r, {| net := w; files := files m; stdout := stdout m |}).

(** [time.sleep(rate_limit)]: raises [ValueError] on a negative length. *)
Definition time_sleep `{Web} (rate_limit : R) : prog unit :=
  if decide (rate_limit < 0)%R then
    λ m, (Failed (OtherException "ValueError"), m)
  else
    call (λ w, (Done tt, sleep rate_limit w)).

Definition newline : string := String (ascii_of_nat 10) EmptyString.
Definition tab : string := String (ascii_of_nat 9) EmptyString.

(** [os.path.join(USERDIR, f"{username}.json")] *)
Definition user_fpath (username : string) : string :=
  "data/users/" +:+ username +:+ ".json".

Definition write_user_file `{Web} (username : string)
    (user_animes : list anime) : prog unit :=
  λ m, (Done tt,
        {| net := net m;
           files := {| user_files := <[username := user_animes]>
                                       (user_files (files m));
                       image_files := image_files (files m);
                       anime_files := anime_files (files m);
                       output_files := output_files (files m) |};
           stdout := stdout m |}).

Definition write_image_file `{Web} (id : Z) (img : image) : prog unit :=
  λ m, (Done tt,
        {| net := net m;
           files := {| user_files := user_files (files m);
                       image_files := <[id := img]> (image_files (files m));
                       anime_files := anime_files (files m);
                       output_files := output_files (files m) |};
           stdout := stdout m |}).

Definition write_anime_file `{Web} (id : Z) (md : metadata) : prog unit :=
  λ m, (Done tt,
        {| net := net m;
           files := {| user_files := user_files (files m);
                       image_files := image_files (files m);
                       anime_files := <[id := md]> (anime_files (files m));
                       output_files := output_files (files m) |};
           stdout := stdout m |}).

(** [open(path, "r")] and [json.load]: a missing file raises. *)
Definition read_user_file `{Web} (username : string) : prog (list anime) :=
  λ m, match user_files (files m) !! username with
       | Some user_animes => (Done user_animes, m)
       | None => (Failed (OtherException "FileNotFoundError"), m)
       end.

(** [fetch_user_animes(jikan, username, force)] *)
Definition fetch_user_animes `{Web} (username : string) (force : bool)
    : prog (list anime) :=
  λ m,
  let cache_exists :=
    bool_decide (is_Some (user_files (files m) !! username)) in
  if force || negb cache_exists then
    (exec print ("Pulling userdata for " +:+ username);
     bind user_animes ← call (jikan_user username);
     exec print ("Caching at:" +:+ newline +:+ tab +:+ user_fpath username);
     exec write_user_file username user_animes;
     prog_ret user_animes) m
  else
    (exec print ("Using cached data located at:" +:+ newline +:+ tab
                 +:+ user_fpath username);
     bind user_animes ← read_user_file username;
     prog_ret user_animes) m.

(** [fetch_images(user_animes, force, rate_limit)] *)
Fixpoint fetch_images `{Web} (user_animes : list anime) (force : bool)
    (rate_limit : R) : prog unit :=
  match user_animes with
  | [] => prog_ret tt
  | anime :: rest =>
      λ m,
      let cache_exists :=
        bool_decide (is_Some (image_files (files m) !! mal_id anime)) in
      if force || negb cache_exists then
        (exec print ("Saving image for: " +:+ title anime);
         bind img ← call (urlretrieve (image_url anime));
         exec write_image_file (mal_id anime) img;
         exec time_sleep rate_limit;
         fetch_images rest force rate_limit) m
      else
        (exec print ("Skipping already cached image for: " +:+ title anime);
         fetch_images rest force rate_limit) m
  end.

(** [fetch_anime_metadata(jikan, user_animes, force, rate_limit)] *)
Fixpoint fetch_anime_metadata `{Web} (user_animes : list anime) (force : bool)
    (rate_limit : R) : prog unit :=
  match user_animes with
  | [] => prog_ret tt
  | anime :: rest =>
      λ m,
      let cache_exists :=
        bool_decide (is_Some (anime_files (files m) !! mal_id anime)) in
      if force || negb cache_exists then
        (exec print ("Saving metadata for: " +:+ title anime);
         bind anime_metadata ← call (jikan_anime (mal_id anime));
         exec write_anime_file (mal_id anime) anime_metadata;
         exec time_sleep rate_limit;
         fetch_anime_metadata rest force rate_limit) m
      else
        (exec print ("Skipping already cached metadata for: " +:+ title anime);
         fetch_anime_metadata rest force rate_limit) m
  end.

(** ** [ScriptTaste.main] *)

(** How a run of [main] ends: it returns, [exit(status)] is called, an
    exception of the network side is not caught, or [draw] raises. *)
Inductive outcome : Type :=
  | Returned
  | Exited (status : Z)
  | Uncaught (e : io_exn)
  | Crashed (e : exn).

(** [s.split(" ", 1)[0]]: the text before the first space. *)
Fixpoint first_word (s : string) : string :=
  match s with
  | EmptyString => EmptyString
  | String c s' =>
      if decide (c = " "%char) then EmptyString else String c (first_word s')
  end.

(** ["\033[91m"] and ["\033[0m"] *)
Definition RED : string := String (ascii_of_nat 27) "[91m".
Definition END : string := String (ascii_of_nat 27) "[0m".

Definition add_stdout `{Web} (out : list string) (m : machine) : machine :=
  {| net := net m; files := files m; stdout := stdout m ++ out |}.

(** [main(username, force, rate_limit, blur_factor, blur_radius)] *)
Definition main `{Web} `{Externals} (username : string) (force : bool)
    (rate_limit : R) (blur_factor blur_radius : Z)
    : machine → outcome * machine :=
  λ m,
  match fetch_user_animes username force m with
  | (Failed (APIException msg), m1) =>
      if decide (first_word msg = "400"%string) then
        (Exited 0,
         add_stdout
           [RED +:+ "Username not found, was it typed correctly?" +:+ END] m1)
      else (Uncaught (APIException msg), m1)
  | (Failed e, m1) => (Uncaught e, m1)
  | (Done user_animes, m1) =>
      match (exec fetch_images user_animes force rate_limit;
             fetch_anime_metadata user_animes force rate_limit) m1 with
      | (Failed (APIException msg), m2) =>
          let code := first_word msg in
          if decide (code = "429"%string) then
            (Exited 0,
             add_stdout
               [RED +:+ "Rate limit exceeded!"
                +:+ newline
                +:+ "No worries, data up to this point has been cached."
                +:+ newline +:+ "Simply wait a bit and try again."
                +:+ END] m2)
          else if decide (code = "400"%string) then
            (Uncaught (APIException msg),
             add_stdout
               [RED
                +:+ "Failure to connect with API, this behaviour is unexpected."
                +:+ newline
                +:+ "User may need to debug on their end. If Resolved please"
                +:+ newline +:+ "submit a PR to help others in the future."
                +:+ END] m2)
          else (Uncaught (APIException msg), m2)
      | (Failed e, m2) => (Uncaught e, m2)
      | (Done _, m2) =>
          match draw_to_disk (files m2) user_animes username
                  blur_factor blur_radius with
          | (Raise e, out) => (Crashed e, add_stdout out m2)
          | (Ok d, out) =>
              (Returned,
               {| net := net m2; files := d; stdout := stdout m2 ++ out |})
          end
      end
  end.

(** The line [fetch_images] prints for a cached image, and the one
    [fetch_anime_metadata] prints for cached metadata. *)
Definition image_cached_line (a : anime) : string :=
  "Skipping already cached image for: " +:+ title a.
Definition metadata_cached_line (a : anime) : string :=
  "Skipping already cached metadata for: " +:+ title a.


(** A small world to run the network side on: the names of the users
    Jikan knows, with the list of each, and the number of [jikan.anime]
    requests it still answers before it limits the rate.  The image
    server always answers. *)
Definition demo_list : list anime :=
  [ {| mal_id := 1; title := "Cowboy Bebop";
       image_url := "https://cdn.myanimelist.net/images/anime/4/19644.jpg";
       watched_episodes := 26 |};
    {| mal_id := 21; title := "One Piece";
       image_url := "https://cdn.myanimelist.net/images/anime/6/73245.jpg";
       watched_episodes := 104 |} ].

Definition demo_web : Web :=
  {| world := nat;
     jikan_user := λ username w,
       if decide (username = "spike"%string) then (Done demo_list, w)
       else (Failed (APIException "400 Bad Request"), w);
     jikan_anime := λ id w,
       match w with
       | O => (Failed (APIException "429 Too Many Requests"), O)
       | S w' => (Done {| duration := "24 min per ep" |}, w')
       end;
     urlretrieve := λ url w, (Done (flat 2 3 red), w);
     sleep := λ seconds w, w |}.

Definition empty_disk : disk :=
  {| user_files := ∅; image_files := ∅; anime_files := ∅;
     output_files := ∅ |}.

(** A disk that holds the list of ["spike"] and the image and the
    metadata of both shows on it. *)
Definition demo_disk : disk :=
  {| user_files := {["spike"%string := demo_list]};
     image_files := {[1%Z := flat 2 2 red; 21%Z := flat 4 4 blue]};
     anime_files := {[1%Z := {| duration := "24 min per ep" |};
                      21%Z := {| duration := "24 min per ep" |}]};
     output_files := ∅ |}.

(** A disk with the image of one show whose duration is not known. *)
Definition unknown_list : list anime :=
  [ {| mal_id := 7; title := "Witch Hunter Robin";
       image_url := "https://cdn.myanimelist.net/images/anime/10/19969.jpg";
       watched_episodes := 3 |} ].

Definition unknown_disk : disk :=
  {| user_files := ∅;
     image_files := {[7%Z := flat 2 3 red]};
     anime_files := {[7%Z := {| duration := "Unknown" |}]};
     output_files := ∅ |}.

(** A disk that holds an empty list for the user ["jet"]. *)
Definition jet_disk : disk :=
  {| user_files := {["jet"%string := []]}; image_files := ∅;
     anime_files := ∅; output_files := ∅ |}.

(** Machines on that world.  [fresh_machine]: nothing is cached and one
    [jikan.anime] request will be answered.  [cached_machine]: everything
    about ["spike"] is cached and no request will be answered.
    [partial_machine]: the list of ["spike"] and one image are cached and
    no request will be answered. *)
Definition fresh_machine : @machine demo_web :=
  @Machine demo_web 1%nat empty_disk [].

Definition cached_machine : @machine demo_web :=
  @Machine demo_web 0%nat demo_disk [].

Definition partial_machine : @machine demo_web :=
  @Machine demo_web 0%nat
    {| user_files := {["spike"%string := demo_list]};
       image_files := {[1%Z := flat 2 2 red]};
       anime_files := ∅;
       output_files := ∅ |}
    [].

Definition jet_machine : @machine demo_web :=
  @Machine demo_web 0%nat jet_disk [].

(** [fresh_machine] after [fetch_images] on the list of ["spike"]. *)
Definition images_machine : @machine demo_web :=
  @Machine demo_web 1%nat
    {| user_files := ∅;
       image_files := {[1%Z := flat 2 3 red; 21%Z := flat 2 3 red]};
       anime_files := ∅;
       output_files := ∅ |}
    ["Saving image for: Cowboy Bebop"; "Saving image for: One Piece"].

(** [fresh_machine] after [fetch_anime_metadata] on the same list: the
    second request is refused. *)
Definition metadata_machine : @machine demo_web :=
  @Machine demo_web 0%nat
    {| user_files := ∅;
       image_files := ∅;
       anime_files := {[1%Z := {| duration := "24 min per ep" |}]};
       output_files := ∅ |}
    ["Saving metadata for: Cowboy Bebop"; "Saving metadata for: One Piece"].

(** [fresh_machine] after [fetch_user_animes] for ["spike"]. *)
Definition user_machine : @machine demo_web :=
  @Machine demo_web 1%nat
    {| user_files := {["spike"%string := demo_list]};
       image_files := ∅;
       anime_files := ∅;
       output_files := ∅ |}
    ["Pulling userdata for spike";
     "Caching at:" +:+ newline +:+ tab +:+ "data/users/spike.json"].

(** [fresh_machine] after [main] for ["spike"]. *)
Definition interrupted_machine : @machine demo_web :=
  @Machine demo_web 0%nat
    {| user_files := {["spike"%string := demo_list]};
       image_files := {[1%Z := flat 2 3 red; 21%Z := flat 2 3 red]};
       anime_files := {[1%Z := {| duration := "24 min per ep" |}]};
       output_files := ∅ |}
    ["Pulling userdata for spike";
     "Caching at:" +:+ newline +:+ tab +:+ "data/users/spike.json";
     "Saving image for: Cowboy Bebop"; "Saving image for: One Piece";
     "Saving metadata for: Cowboy Bebop"; "Saving metadata for: One Piece";
     RED +:+ "Rate limit exceeded!"
     +:+ newline +:+ "No worries, data up to this point has been cached."
     +:+ newline +:+ "Simply wait a bit and try again." +:+ END].

(** [partial_machine] after [main] for ["spike"]. *)
Definition resumed_machine : @machine demo_web :=
  @Machine demo_web 0%nat
    {| user_files := {["spike"%string := demo_list]};
       image_files := {[1%Z := flat 2 2 red; 21%Z := flat 2 3 red]};
       anime_files := ∅;
       output_files := ∅ |}
    ["Using cached data located at:" +:+ newline +:+ tab
     +:+ "data/users/spike.json";
     "Skipping already cached image for: Cowboy Bebop";
     "Saving image for: One Piece";
     "Saving metadata for: Cowboy Bebop";
     RED +:+ "Rate limit exceeded!"
     +:+ newline +:+ "No worries, data up to this point has been cached."
     +:+ newline +:+ "Simply wait a bit and try again." +:+ END].
(** * Properties *)

(** ** [max] and [sorted] *)

Lemma foldl_max_ge (xs : list nat) (x : nat) :
  x ≤ foldl Nat.max x xs ∧ ∀ y, y ∈ xs → y ≤ foldl Nat.max x xs.
Proof.
  revert x. induction xs as [|z xs IH]; intros x; simpl.
  - split; [lia|]. intros y Hy. inversion Hy.
  - destruct (IH (x `max` z)) as [Hx Hall]. split; [lia|].
    intros y [->|Hy]%elem_of_cons; [lia|auto].
Qed.

Lemma foldl_max_elem (xs : list nat) (x : nat) :
  foldl Nat.max x xs ∈ x :: xs.
Proof.
  revert x. induction xs as [|z xs IH]; intros x; simpl.
  - left.
  - specialize (IH (x `max` z)).
    apply elem_of_cons in IH as [->|IH].
    + destruct (Nat.max_spec x z) as [[_ ->]|[_ ->]]; [right; left|left].
    + right; right; done.
Qed.

Lemma py_max_Ok (xs : list nat) :
  xs ≠ [] → ∃ m, py_max Nat.max xs = Ok m ∧ is_max m xs.
Proof.
  destruct xs as [|x xs]; [done|]. intros _.
  exists (foldl Nat.max x xs). split; [done|]. split.
  - apply foldl_max_elem.
  - destruct (foldl_max_ge xs x) as [Hx Hall].
    intros y [->|Hy]%elem_of_cons; [done|by apply Hall].
Qed.

Section sorting.
Context {A : Type} (key : A → nat).

Lemma insert_desc_perm (x : A) (l : list A) : insert_desc key x l ≡ₚ x :: l.
Proof.
  induction l as [|y ys IH]; simpl; [done|].
  case_match; [|done]. rewrite IH. apply Permutation_swap.
Qed.

Lemma sorted_reverse_perm (l : list A) : sorted_reverse key l ≡ₚ l.
Proof.
  induction l as [|x l IH]; simpl; [done|].
  by rewrite insert_desc_perm, IH.
Qed.

Lemma insert_desc_sorted (x : A) (l : list A) :
  StronglySorted (key_ge key) l → StronglySorted (key_ge key) (insert_desc key x l).
Proof.
  induction 1 as [|y ys Hys IH Hy]; simpl.
  - repeat constructor.
  - destruct (Nat.ltb_spec (key x) (key y)) as [Hlt|Hge].
    + constructor; [done|].
      rewrite insert_desc_perm. constructor; [unfold key_ge; lia|done].
    + constructor; [by constructor|].
      constructor; [done|].
      eapply Forall_impl; [exact Hy|]. unfold key_ge. intros; simpl in *; lia.
Qed.

Lemma sorted_reverse_sorted (l : list A) :
  StronglySorted (key_ge key) (sorted_reverse key l).
Proof.
  induction l; simpl; [constructor|by apply insert_desc_sorted].
Qed.

(** Stability: the elements of any one key appear in input order. *)
Lemma insert_desc_stable (k : nat) (x : A) (l : list A) :
  filter (λ a, key a = k) (insert_desc key x l)
  = filter (λ a, key a = k) (x :: l).
Proof.
  induction l as [|y ys IH]; simpl; [done|].
  destruct (Nat.ltb_spec (key x) (key y)) as [Hlt|Hge]; [|done].
  rewrite (filter_cons _ y), IH, !filter_cons.
  repeat case_decide; try done; lia.
Qed.

Lemma sorted_reverse_stable (k : nat) (l : list A) :
  filter (λ a, key a = k) (sorted_reverse key l) = filter (λ a, key a = k) l.
Proof.
  induction l as [|x l IH]; simpl; [done|].
  by rewrite insert_desc_stable, !filter_cons, IH.
Qed.
End sorting.

Section sorting_unique.
Context {A : Type} (key : A → nat).

Lemma sorted_head_max (x : A) (l : list A) (y : A) :
  StronglySorted (key_ge key) (x :: l) → y ∈ x :: l → key y ≤ key x.
Proof.
  intros [Hall _]%StronglySorted_cons [->|Hy]%elem_of_cons; [done|].
  rewrite Forall_forall in Hall. by apply Hall.
Qed.

(** Two lists with non-increasing keys that agree on the elements of
    every key, in order, are equal: a stable sort has one possible
    result, so [sorted_reverse] returns what [sorted] returns. *)
Lemma stable_sorted_unique (l1 l2 : list A) :
  StronglySorted (key_ge key) l1 → StronglySorted (key_ge key) l2 →
  (∀ k, filter (λ a, key a = k) l1 = filter (λ a, key a = k) l2) →
  l1 = l2.
Proof.
  intros Hs1. revert l2.
  induction l1 as [|x l1 IH]; intros l2 Hs2 Hfilter.
  - destruct l2 as [|y l2]; [done|].
    specialize (Hfilter (key y)). rewrite filter_cons_True in Hfilter by done.
    done.
  - destruct l2 as [|y l2].
    { specialize (Hfilter (key x)).
      rewrite filter_cons_True in Hfilter by done. done. }
    assert (x ∈ y :: l2) as Hx.
    { eapply (list_elem_of_filter (λ a, key a = key x)).
      rewrite <-Hfilter, filter_cons_True by done. left. }
    assert (y ∈ x :: l1) as Hy.
    { eapply (list_elem_of_filter (λ a, key a = key y)).
      rewrite Hfilter, filter_cons_True by done. left. }
    assert (key x = key y) as Hkey.
    { apply Nat.le_antisymm; eauto using sorted_head_max. }
    pose proof (Hfilter (key x)) as Hk.
    rewrite filter_cons_True in Hk by done.
    rewrite (filter_cons_True _ y) in Hk by done.
    injection Hk as -> Hk.
    f_equal. apply IH.
    + by apply StronglySorted_cons in Hs1 as [_ ?].
    + by apply StronglySorted_cons in Hs2 as [_ ?].
    + intros k. destruct (decide (key y = k)) as [<-|Hne]; [done|].
      specialize (Hfilter k).
      by rewrite !filter_cons_False in Hfilter by done.
Qed.
End sorting_unique.

(** ** Arrays *)

Section arrays.
Context {A : Type}.
Implicit Types (a : list (list A)) (r c : nat).

Lemma in_slice_spec (start len i : nat) :
  in_slice start len i = true ↔ start ≤ i < start + len.
Proof.
  unfold in_slice. rewrite andb_true_iff, Nat.leb_le, Nat.ltb_lt. done.
Qed.

Lemma at2_is_Some rows cols a r c :
  has_shape rows cols a → is_Some (at2 a r c) ↔ r < rows ∧ c < cols.
Proof.
  intros [<- Hrow]. unfold at2. split.
  - intros [v Hv]. destruct (a !! r) as [row|] eqn:Hr; [|done].
    simpl in Hv. split.
    + by eapply lookup_lt_Some.
    + rewrite <-(Hrow r row Hr). by eapply lookup_lt_Some.
  - intros [Hr Hc].
    apply lookup_lt_is_Some_2 in Hr as [row Hr]. rewrite Hr. simpl.
    apply lookup_lt_is_Some_2. by rewrite (Hrow r row Hr).
Qed.

Lemma ncols_shape rows cols a :
  has_shape rows cols a → 0 < rows → ncols a = cols.
Proof.
  intros [Hlen Hrow] Hpos. destruct a as [|row a]; simpl in *; [lia|].
  by apply (Hrow 0 row).
Qed.

Lemma np_full_shape rows cols (v : A) : has_shape rows cols (np_full rows cols v).
Proof.
  split; [apply length_replicate|].
  intros r row [-> _]%lookup_replicate. apply length_replicate.
Qed.

Lemma at2_np_full rows cols (v : A) r c :
  r < rows → c < cols → at2 (np_full rows cols v) r c = Some v.
Proof.
  intros Hr Hc. unfold at2, np_full.
  rewrite lookup_replicate_2 by done. simpl. by apply lookup_replicate_2.
Qed.

Lemma np_full_like_shape {B : Type} rows cols a (v : B) :
  has_shape rows cols a → has_shape rows cols (np_full_like a v).
Proof.
  intros [Hlen Hrow]. unfold np_full_like.
  split; [by rewrite length_fmap|].
  intros r row. rewrite list_lookup_fmap.
  destruct (a !! r) as [row'|] eqn:Hr; intros [= <-].
  rewrite length_fmap. eauto.
Qed.

Lemma at2_np_full_like {B : Type} a (v : B) r c :
  at2 (np_full_like a v) r c = (λ _, v) <$> at2 a r c.
Proof.
  unfold at2, np_full_like. rewrite list_lookup_fmap.
  destruct (a !! r) as [row|]; simpl; [|done]. by rewrite list_lookup_fmap.
Qed.

(** Cell by cell, a slice assignment rewrites the cells of the slice. *)
Lemma at2_slice_assign a y dy x dx v a' r c :
  slice_assign a y dy x dx v = Ok a' →
  at2 a' r c =
    (λ old, if in_slice y dy r && in_slice x dx c
            then default old (at2 v (r - y) (c - x)) else old) <$> at2 a r c.
Proof.
  unfold slice_assign. case_decide; [|done]. intros [= <-].
  unfold at2. rewrite list_lookup_imap.
  destruct (a !! r) as [row|]; simpl; [|done].
  destruct (in_slice y dy r); simpl; [|by destruct (row !! c)].
  rewrite list_lookup_imap. done.
Qed.

Lemma slice_assign_shape rows cols a y dy x dx v a' :
  slice_assign a y dy x dx v = Ok a' →
  has_shape rows cols a → has_shape rows cols a'.
Proof.
  unfold slice_assign. case_decide; [|done]. intros [= <-] [Hlen Hrow].
  split; [by rewrite length_imap|].
  intros r row. rewrite list_lookup_imap.
  destruct (a !! r) as [row'|] eqn:Hr; intros [= <-].
  case_match; [rewrite length_imap|]; eauto.
Qed.

Lemma slice_assign_Ok rows cols a y dy x dx v :
  has_shape rows cols a → 0 < rows → y + dy ≤ rows → x + dx ≤ cols →
  ∃ a', slice_assign a y dy x dx v = Ok a'.
Proof.
  intros Hs Hpos Hy Hx. unfold slice_assign.
  rewrite (ncols_shape rows cols a Hs Hpos).
  destruct Hs as [Hlen _]. unfold nrows. rewrite Hlen.
  rewrite decide_True by done. eauto.
Qed.

Lemma at2_slice_fill a y dy x dx (v : A) r c :
  at2 (slice_fill a y dy x dx v) r c =
    (λ old, if in_slice y dy r && in_slice x dx c then v else old)
      <$> at2 a r c.
Proof.
  unfold at2, slice_fill. rewrite list_lookup_imap.
  destruct (a !! r) as [row|]; simpl; [|done].
  destruct (in_slice y dy r); simpl; [|by destruct (row !! c)].
  rewrite list_lookup_imap. done.
Qed.

Lemma slice_fill_shape rows cols a y dy x dx (v : A) :
  has_shape rows cols a → has_shape rows cols (slice_fill a y dy x dx v).
Proof.
  intros [Hlen Hrow]. split; [by unfold slice_fill; rewrite length_imap|].
  intros r row. unfold slice_fill. rewrite list_lookup_imap.
  destruct (a !! r) as [row'|] eqn:Hr; intros [= <-].
  case_match; [rewrite length_imap|]; eauto.
Qed.

Lemma at2_set2 a r c (v : A) r' c' :
  at2 (set2 a r c v) r' c' =
    if decide (r = r' ∧ c = c') then (λ _, v) <$> at2 a r' c' else at2 a r' c'.
Proof.
  unfold at2, set2. rewrite list_lookup_alter.
  destruct (decide (r = r')) as [->|Hr].
  - destruct (a !! r') as [row|]; simpl.
    + rewrite list_lookup_insert.
      destruct (decide (c = c')) as [->|Hc].
      * rewrite (decide_True (P := r' = r' ∧ c' = c')) by done.
        destruct (row !! c') eqn:Hc.
        -- apply lookup_lt_Some in Hc. by rewrite decide_True.
        -- apply lookup_ge_None in Hc. rewrite decide_False by lia. done.
      * rewrite !decide_False by (intros [? ?]; done). done.
    + by case_decide.
  - rewrite decide_False by (intros [? ?]; done). done.
Qed.

Lemma set2_shape rows cols a r c (v : A) :
  has_shape rows cols a → has_shape rows cols (set2 a r c v).
Proof.
  intros [Hlen Hrow]. split; [by unfold set2; rewrite length_alter|].
  intros r' row. unfold set2. rewrite list_lookup_alter.
  case_decide; subst; [|by eauto].
  destruct (a !! r') as [row'|] eqn:Hr; intros [= <-].
  rewrite length_insert. eauto.
Qed.

(** A scatter rewrites exactly the indexed cells. *)
Lemma at2_index_assign a idx b r c :
  at2 (index_assign a idx b) r c =
    if decide ((r, c) ∈ idx) then
      match at2 b r c with
      | Some v => (λ _, v) <$> at2 a r c
      | None => at2 a r c
      end
    else at2 a r c.
Proof.
  unfold index_assign. revert a.
  induction idx as [|[r0 c0] idx IH]; intros a; cbn [foldl fst snd].
  - rewrite decide_False; [done|]. by intros ?%elem_of_nil.
  - rewrite IH. clear IH.
    assert (at2 (match at2 b r0 c0 with
                 | Some v => set2 a r0 c0 v | None => a end) r c
            = if decide (r0 = r ∧ c0 = c) then
                match at2 b r c with
                | Some v => (λ _, v) <$> at2 a r c
                | None => at2 a r c
                end
              else at2 a r c) as ->.
    { case_decide as Heq.
      - destruct Heq as [-> ->]. destruct (at2 b r c); [|done].
        rewrite at2_set2. by rewrite decide_True.
      - destruct (at2 b r0 c0); [|done].
        rewrite at2_set2. by rewrite decide_False. }
    destruct (decide (r0 = r ∧ c0 = c)) as [[-> ->]|Hne].
    + rewrite (decide_True (P := (r, c) ∈ (r, c) :: idx)) by left.
      case_decide; [|done]. destruct (at2 b r c); [|done].
      by destruct (at2 a r c).
    + destruct (decide ((r, c) ∈ idx)) as [Hin|Hnin].
      * rewrite decide_True by (by right). done.
      * rewrite decide_False; [done|].
        intros [?|?]%elem_of_cons; naive_solver.
Qed.

Lemma index_assign_shape rows cols a idx b :
  has_shape rows cols a → has_shape rows cols (index_assign a idx b).
Proof.
  unfold index_assign. revert a.
  induction idx as [|rc idx IH]; intros a Ha; simpl; [done|].
  apply IH. case_match; [by apply set2_shape|done].
Qed.
End arrays.

Lemma elem_of_np_where (mask : list (list bool)) (r c : nat) :
  (r, c) ∈ np_where mask ↔ at2 mask r c = Some true.
Proof.
  unfold np_where, at2. rewrite list_elem_of_join. split.
  - intros (l & Hin & (r' & row & -> & Hr)%elem_of_lookup_imap).
    unfold where_row in Hin.
    apply list_elem_of_omap in Hin as ([c' b] & Hcb & Hsome).
    apply elem_of_lookup_imap in Hcb as (c'' & b' & [= -> ->] & Hc).
    simpl in Hsome. destruct b'; simplify_eq. by rewrite Hr.
  - destruct (mask !! r) as [row|] eqn:Hr; simpl; [|done]. intros Hc.
    exists (where_row r row). split.
    + unfold where_row. apply list_elem_of_omap. exists (c, true).
      split; [|done]. apply elem_of_lookup_imap. eauto.
    + apply elem_of_lookup_imap. eauto.
Qed.

Lemma at2_np_array (img : image) (r c : nat) :
  r < (size img).2 → c < (size img).1 →
  at2 (np_array img) r c = Some (data img r c).
Proof.
  intros Hr Hc. unfold at2, np_array.
  rewrite list_lookup_fmap, lookup_seq_lt by done. simpl.
  by rewrite list_lookup_fmap, lookup_seq_lt.
Qed.

Lemma np_array_shape (img : image) :
  has_shape (size img).2 (size img).1 (np_array img).
Proof.
  unfold np_array. split; [by rewrite length_fmap, length_seq|].
  intros r row. rewrite list_lookup_fmap.
  destruct (seq 0 (size img).2 !! r); intros [= <-].
  by rewrite length_fmap, length_seq.
Qed.

(** ** The placing loop *)

Lemma coversb_spec (p : (nat * nat) * image) (r c : nat) :
  coversb p r c = true ↔ covers p r c.
Proof.
  unfold coversb, covers. by rewrite andb_true_iff, !in_slice_spec.
Qed.

Lemma coversb_false (p : (nat * nat) * image) (r c : nat) :
  coversb p r c = false ↔ ¬ covers p r c.
Proof. rewrite <-coversb_spec. by destruct (coversb p r c). Qed.

Lemma existsb_coversb (placed : list ((nat * nat) * image)) (r c : nat) :
  existsb (λ p, coversb p r c) placed = false ↔
  ∀ p, p ∈ placed → ¬ covers p r c.
Proof.
  induction placed as [|q placed IH]; simpl.
  - split; [|done]. intros _ p Hp. inversion Hp.
  - rewrite orb_false_iff, IH, coversb_false. split.
    + intros [Hq Hall] p [->|Hp]%elem_of_cons; auto.
    + intros Hall. split; [apply Hall; left|].
      intros p Hp. apply Hall. by right.
Qed.

Lemma painted_uncovered (placed : list ((nat * nat) * image)) (r c : nat)
    (old : pixel) :
  (∀ p, p ∈ placed → ¬ covers p r c) → painted placed r c old = old.
Proof.
  revert old. induction placed as [|q placed IH]; intros old Hall; simpl.
  - done.
  - rewrite (proj2 (coversb_false q r c)) by (apply Hall; left).
    apply IH. intros p Hp. apply Hall. by right.
Qed.

Lemma painted_top (before after : list ((nat * nat) * image))
    (p : (nat * nat) * image) (r c : nat) (old : pixel) :
  covers p r c → (∀ q, q ∈ after → ¬ covers q r c) →
  painted (before ++ p :: after) r c old = data p.2 (r - p.1.2) (c - p.1.1).
Proof.
  intros Hp Hafter. revert old.
  induction before as [|q before IH]; intros old; simpl.
  - rewrite (proj2 (coversb_spec p r c)) by done.
    by apply painted_uncovered.
  - apply IH.
Qed.

Lemma place_images_spec (placed : list ((nat * nat) * image))
    (rows cols : nat) (collage0 : list (list pixel))
    (deadspace0 : list (list bool)) :
  has_shape rows cols collage0 → has_shape rows cols deadspace0 →
  0 < rows →
  (∀ p, p ∈ placed → bottom_edge p ≤ rows ∧ right_edge p ≤ cols) →
  ∃ collage1 deadspace1,
    place_images placed collage0 deadspace0 = Ok (collage1, deadspace1)
    ∧ has_shape rows cols collage1
    ∧ has_shape rows cols deadspace1
    ∧ (∀ r c, at2 collage1 r c = painted placed r c <$> at2 collage0 r c)
    ∧ (∀ r c, at2 deadspace1 r c =
         (λ old, if existsb (λ p, coversb p r c) placed then false else old)
           <$> at2 deadspace0 r c).
Proof.
  revert collage0 deadspace0.
  induction placed as [|[[x y] img] placed IH];
    intros collage0 deadspace0 Hc Hd Hrows Hfit; simpl.
  - exists collage0, deadspace0. split_and!; try done.
    + intros r c. by destruct (at2 collage0 r c).
    + intros r c. by destruct (at2 deadspace0 r c).
  - destruct (Hfit ((x, y), img)) as [Hy Hx]; [left|].
    unfold bottom_edge, right_edge in Hy, Hx. simpl in Hy, Hx.
    destruct (slice_assign_Ok rows cols collage0 y (size img).2 x (size img).1
                (np_array img) Hc Hrows Hy Hx) as [collage' Hassign].
    rewrite Hassign. simpl.
    destruct (IH collage' (slice_fill deadspace0 y (size img).2 x (size img).1 false))
      as (collage1 & deadspace1 & Hplace & Hc1 & Hd1 & Hpix & Hmask).
    + by eapply slice_assign_shape.
    + by apply slice_fill_shape.
    + done.
    + intros p Hp. apply Hfit. by right.
    + exists collage1, deadspace1. split_and!; try done.
      * intros r c. rewrite Hpix, (at2_slice_assign _ _ _ _ _ _ _ _ _ Hassign).
        destruct (at2 collage0 r c) as [old|]; simpl; [|done].
        f_equal. unfold coversb. simpl.
        destruct (in_slice y (size img).2 r) eqn:Hr; simpl; [|done].
        destruct (in_slice x (size img).1 c) eqn:Hcol; simpl; [|done].
        apply in_slice_spec in Hr, Hcol.
        rewrite at2_np_array by lia. done.
      * intros r c. rewrite Hmask, at2_slice_fill.
        destruct (at2 deadspace0 r c) as [old|]; simpl; [|done].
        f_equal.
        assert (coversb (x, y, img) r c
                = in_slice y (size img).2 r && in_slice x (size img).1 c)
          as -> by done.
        destruct (in_slice y (size img).2 r && in_slice x (size img).1 c);
          simpl; [|done].
        by destruct (existsb _ placed).
Qed.

(** ** Canvas allocation, compositing and diffusion *)

Lemma edges_zip_sizes (positions : list (nat * nat)) (posters : list image) :
  (λ ab : (nat * nat) * (nat * nat), ab.1.1 + ab.2.1)
    <$> zip positions (size <$> posters)
  = right_edge <$> zip positions posters
  ∧ (λ ab : (nat * nat) * (nat * nat), ab.1.2 + ab.2.2)
      <$> zip positions (size <$> posters)
    = bottom_edge <$> zip positions posters.
Proof.
  revert posters. induction positions as [|xy positions IH];
    intros [|img posters]; try done.
  destruct (IH posters) as [IHw IHh].
  split; simpl; f_equal; [exact IHw|exact IHh].
Qed.

Lemma canvas_alloc_spec (positions : list (nat * nat)) (posters : list image) :
  zip positions posters ≠ [] →
  ∃ max_width max_height,
    is_max max_width (right_edge <$> zip positions posters)
    ∧ is_max max_height (bottom_edge <$> zip positions posters)
    ∧ canvas_alloc positions (size <$> posters)
      = Ok (np_full (max_height + 1) (max_width + 1) white).
Proof.
  intros Hne. unfold canvas_alloc.
  destruct (edges_zip_sizes positions posters) as [-> ->].
  destruct (py_max_Ok (right_edge <$> zip positions posters))
    as (mw & -> & Hmw); [by destruct (zip positions posters)|].
  destruct (py_max_Ok (bottom_edge <$> zip positions posters))
    as (mh & -> & Hmh); [by destruct (zip positions posters)|].
  by exists mw, mh.
Qed.

Lemma canvas_alloc_empty (positions : list (nat * nat)) (posters : list image) :
  zip positions posters = [] →
  canvas_alloc positions (size <$> posters) = Raise ValueError.
Proof.
  intros Hnil. unfold canvas_alloc.
  destruct (edges_zip_sizes positions posters) as [-> _].
  by rewrite Hnil.
Qed.

Section compositor.
Context `{Externals}.

(** What [compose] returns on a non-empty layout: a canvas one pixel
    larger than the tightest bound, holding white where no rectangle
    was placed and the pixel of the rectangle placed last elsewhere,
    with the mask false exactly on the covered cells. *)
Lemma compose_spec (normalized_posters : list image) :
  placements normalized_posters ≠ [] →
  ∃ max_width max_height canvas mask,
    is_max max_width (right_edge <$> placements normalized_posters)
    ∧ is_max max_height (bottom_edge <$> placements normalized_posters)
    ∧ compose normalized_posters = Ok (canvas, mask)
    ∧ has_shape (max_height + 1) (max_width + 1) canvas
    ∧ has_shape (max_height + 1) (max_width + 1) mask
    ∧ (∀ r c, r < max_height + 1 → c < max_width + 1 →
         at2 canvas r c
         = Some (painted (placements normalized_posters) r c white))
    ∧ (∀ r c, r < max_height + 1 → c < max_width + 1 →
         at2 mask r c
         = Some (negb (existsb (λ p, coversb p r c)
                         (placements normalized_posters)))).
Proof.
  unfold placements, compose. simpl.
  set (sorted := pack_order normalized_posters).
  set (positions := rpack_pack (size <$> sorted)).
  intros Hne.
  destruct (canvas_alloc_spec positions sorted Hne)
    as (mw & mh & Hmw & Hmh & ->). simpl.
  destruct (place_images_spec (zip positions sorted) (mh + 1) (mw + 1)
              (np_full (mh + 1) (mw + 1) white)
              (np_full_like (np_full (mh + 1) (mw + 1) white) true))
    as (canvas & mask & -> & Hc & Hm & Hpix & Hmask).
  - apply np_full_shape.
  - apply np_full_like_shape, np_full_shape.
  - lia.
  - intros p Hp. split.
    + destruct Hmh as [_ Hmh].
      specialize (Hmh (bottom_edge p) (list_elem_of_fmap_2 _ _ _ Hp)). lia.
    + destruct Hmw as [_ Hmw].
      specialize (Hmw (right_edge p) (list_elem_of_fmap_2 _ _ _ Hp)). lia.
  - exists mw, mh, canvas, mask. split_and!; try done.
    + intros r c Hr Hcol. by rewrite Hpix, at2_np_full.
    + intros r c Hr Hcol.
      rewrite Hmask, at2_np_full_like, at2_np_full by done. simpl.
      by destruct (existsb _ _).
Qed.

Lemma compose_empty (normalized_posters : list image) :
  placements normalized_posters = [] →
  compose normalized_posters = Raise ValueError.
Proof.
  unfold placements, compose. simpl. intros Hnil.
  by rewrite canvas_alloc_empty.
Qed.

Lemma placements_nil : placements [] = [].
Proof. unfold placements. simpl. by destruct (rpack_pack []). Qed.

Lemma diffuse_step_deadspace (blur_radius : Z) (st : canvas_state) :
  deadspace (diffuse_step blur_radius st) = deadspace st.
Proof. done. Qed.

Lemma diffuse_iter_deadspace (n : nat) (blur_radius : Z) (st : canvas_state) :
  deadspace (Nat.iter n (diffuse_step blur_radius) st) = deadspace st.
Proof. induction n as [|n IH]; simpl; done. Qed.

Lemma diffuse_deadspace (blur_factor blur_radius : Z) (st : canvas_state) :
  deadspace (diffuse blur_factor blur_radius st) = deadspace st.
Proof. apply diffuse_iter_deadspace. Qed.

Lemma diffuse_frame (blur_factor blur_radius : Z) (st : canvas_state)
    (r c : nat) :
  (r, c) ∉ deadspace st →
  at2 (collage (diffuse blur_factor blur_radius st)) r c
  = at2 (collage st) r c.
Proof.
  intros Hnot. unfold diffuse.
  induction (Z.to_nat blur_factor) as [|n IH]; simpl; [done|].
  rewrite at2_index_assign, decide_False; [done|].
  by rewrite diffuse_iter_deadspace.
Qed.

(** A pass gives every indexed cell of the canvas the blurred pixel. *)
Lemma diffuse_step_overwrites (blur_radius : Z) (st : canvas_state)
    (rows cols r c : nat) :
  has_shape rows cols (collage st) → r < rows → c < cols →
  (r, c) ∈ deadspace st →
  at2 (collage (diffuse_step blur_radius st)) r c
  = Some (gaussian_blur blur_radius (fromarray (collage st)) r c).
Proof.
  intros Hs Hr Hc Hin. unfold diffuse_step. cbn [collage].
  rewrite at2_index_assign, decide_True by done.
  rewrite at2_np_array.
  - destruct (proj2 (at2_is_Some rows cols (collage st) r c Hs))
      as [old ->]; done.
  - cbn [size filter_blur fromarray snd]. destruct Hs as [<- _]. done.
  - cbn [size filter_blur fromarray fst].
    rewrite (ncols_shape rows cols) by (done || lia). done.
Qed.

Lemma diffuse_shape (blur_factor blur_radius : Z) (st : canvas_state)
    (rows cols : nat) :
  has_shape rows cols (collage st) →
  has_shape rows cols (collage (diffuse blur_factor blur_radius st)).
Proof.
  intros Hs. unfold diffuse.
  induction (Z.to_nat blur_factor) as [|n IH]; simpl; [done|].
  by apply index_assign_shape.
Qed.
End compositor.

(** ** The packer's input, the canvas, the mask and the diffusion *)

Section arrange_images_properties.
Context `{Externals}.

(** C5.  For a non-empty layout, [arrange_images] allocates a canvas of
    exactly [1 + max (y + height)] rows and [1 + max (x + width)]
    columns, the maxima being taken over the placed rectangles, every
    cell of it white (255, 255, 255); the canvas it returns still has
    that shape. *)
Theorem canvas_tight_and_white (normalized_posters : list image)
    (blur_factor blur_radius : Z) :
  placements normalized_posters ≠ [] →
  ∃ max_width max_height blank final,
    is_max max_width (right_edge <$> placements normalized_posters)
    ∧ is_max max_height (bottom_edge <$> placements normalized_posters)
    ∧ canvas_alloc (rpack_pack (size <$> pack_order normalized_posters))
        (size <$> pack_order normalized_posters) = Ok blank
    ∧ nrows blank = max_height + 1
    ∧ ncols blank = max_width + 1
    ∧ has_shape (max_height + 1) (max_width + 1) blank
    ∧ (∀ r c, r < max_height + 1 → c < max_width + 1 →
         at2 blank r c = Some white)
    ∧ arrange_images normalized_posters blur_factor blur_radius = Ok final
    ∧ has_shape (max_height + 1) (max_width + 1) final.
Proof.
  intros Hne.
  destruct (canvas_alloc_spec _ _ Hne) as (mw & mh & Hmw & Hmh & Halloc).
  destruct (compose_spec _ Hne)
    as (mw' & mh' & canvas & mask & Hmw' & Hmh' & Hcomp & Hc & _).
  assert (mw' = mw) as ->.
  { destruct Hmw as [? Hle], Hmw' as [? Hle'].
    apply Nat.le_antisymm; auto. }
  assert (mh' = mh) as ->.
  { destruct Hmh as [? Hle], Hmh' as [? Hle'].
    apply Nat.le_antisymm; auto. }
  exists mw, mh, (np_full (mh + 1) (mw + 1) white),
    (collage (diffuse blur_factor blur_radius
                {| collage := canvas; deadspace := np_where mask |})).
  split_and!; try done.
  - apply length_replicate.
  - apply (ncols_shape (mh + 1)); [apply np_full_shape|lia].
  - apply np_full_shape.
  - intros r c. apply at2_np_full.
  - unfold arrange_images. rewrite Hcomp. simpl. reflexivity.
  - by apply diffuse_shape.
Qed.

(** C6.  After the placing loop and before any diffusion pass, the
    deadspace mask is true at a canvas cell exactly when the cell lies
    outside the bounding box of every placed rectangle; the same cells
    make up the index list [np.where] hands to the diffusion loop. *)
Theorem deadspace_mask_correct (normalized_posters : list image) :
  placements normalized_posters ≠ [] →
  ∃ canvas mask,
    compose normalized_posters = Ok (canvas, mask)
    ∧ ∀ r c, is_Some (at2 canvas r c) →
        (at2 mask r c = Some true ↔
           ∀ p, p ∈ placements normalized_posters → ¬ covers p r c)
        ∧ ((r, c) ∈ np_where mask ↔
             ∀ p, p ∈ placements normalized_posters → ¬ covers p r c).
Proof.
  intros Hne.
  destruct (compose_spec _ Hne)
    as (mw & mh & canvas & mask & _ & _ & Hcomp & Hc & _ & _ & Hmask).
  exists canvas, mask. split; [done|].
  intros r c [Hr Hcol]%(at2_is_Some _ _ _ _ _ Hc).
  rewrite elem_of_np_where, Hmask by done.
  rewrite <-existsb_coversb.
  destruct (existsb _ _); simpl; split; split; congruence.
Qed.

(** C3.  Whatever the number of diffusion passes and the blur radius,
    every canvas cell inside a placed rectangle keeps the pixel the
    placing loop copied there (the pixel of the rectangle's own buffer
    when no later rectangle covers the cell); a cell can differ from the
    composited canvas only where the deadspace mask is true; and the
    index list computed from the mask before the loop is the one every
    pass uses. *)
Theorem diffusion_non_invasive (normalized_posters : list image)
    (blur_factor blur_radius : Z) :
  placements normalized_posters ≠ [] →
  ∃ canvas mask final,
    compose normalized_posters = Ok (canvas, mask)
    ∧ arrange_images normalized_posters blur_factor blur_radius = Ok final
    ∧ (∀ p r c, p ∈ placements normalized_posters → covers p r c →
         at2 final r c = at2 canvas r c)
    ∧ (∀ before p after r c,
         placements normalized_posters = before ++ p :: after →
         covers p r c → (∀ q, q ∈ after → ¬ covers q r c) →
         at2 final r c = Some (data p.2 (r - p.1.2) (c - p.1.1)))
    ∧ (∀ r c, at2 final r c ≠ at2 canvas r c → at2 mask r c = Some true)
    ∧ (∀ n, deadspace (Nat.iter n (diffuse_step blur_radius)
                         {| collage := canvas; deadspace := np_where mask |})
            = np_where mask).
Proof.
  intros Hne.
  destruct (compose_spec _ Hne)
    as (mw & mh & canvas & mask & Hmw & Hmh & Hcomp & Hc & _ & Hpix & Hmask).
  exists canvas, mask,
    (collage (diffuse blur_factor blur_radius
                {| collage := canvas; deadspace := np_where mask |})).
  split; [done|].
  split; [unfold arrange_images; rewrite Hcomp; reflexivity|].
  assert (∀ p r c, p ∈ placements normalized_posters → covers p r c →
            r < mh + 1 ∧ c < mw + 1 ∧ (r, c) ∉ np_where mask) as Hin.
  { intros p r c Hp [Hr Hcol].
    destruct Hmh as [_ Hmh], Hmw as [_ Hmw].
    specialize (Hmh (bottom_edge p) (list_elem_of_fmap_2 _ _ _ Hp)).
    specialize (Hmw (right_edge p) (list_elem_of_fmap_2 _ _ _ Hp)).
    unfold bottom_edge, right_edge in *.
    split_and!; [lia..|].
    rewrite elem_of_np_where, Hmask by lia.
    destruct (existsb _ _) eqn:Hex; [done|].
    exfalso. eapply existsb_coversb; [exact Hex|exact Hp|done]. }
  split_and!.
  - intros p r c Hp Hcov. destruct (Hin p r c Hp Hcov) as (_ & _ & Hnot).
    by apply diffuse_frame.
  - intros before p after r c Hsplit Hcov Hafter.
    assert (p ∈ placements normalized_posters) as Hp.
    { rewrite Hsplit. apply elem_of_app. right. left. }
    destruct (Hin p r c Hp Hcov) as (Hr & Hcol & Hnot).
    rewrite diffuse_frame by done. simpl.
    rewrite Hpix, Hsplit by done. f_equal. by apply painted_top.
  - intros r c Hdiff. apply elem_of_np_where.
    destruct (decide ((r, c) ∈ np_where mask)) as [|Hnot]; [done|].
    exfalso. apply Hdiff. by apply diffuse_frame.
  - intros n. apply diffuse_iter_deadspace.
Qed.

(** C9.  With [blur_factor = 0] the canvas [arrange_images] returns is
    the composited canvas itself, and every deadspace cell of it holds
    the white background. *)
Theorem blur_factor_zero_noop (normalized_posters : list image)
    (blur_radius : Z) :
  arrange_images normalized_posters 0 blur_radius
  = fst <$> compose normalized_posters
  ∧ (placements normalized_posters ≠ [] →
     ∃ canvas mask,
       compose normalized_posters = Ok (canvas, mask)
       ∧ arrange_images normalized_posters 0 blur_radius = Ok canvas
       ∧ ∀ r c, at2 mask r c = Some true → at2 canvas r c = Some white).
Proof.
  assert (arrange_images normalized_posters 0 blur_radius
          = fst <$> compose normalized_posters) as Hzero.
  { unfold arrange_images. by destruct (compose normalized_posters). }
  split; [done|]. intros Hne.
  destruct (compose_spec _ Hne)
    as (mw & mh & canvas & mask & _ & _ & Hcomp & _ & Hm & Hpix & Hmask).
  exists canvas, mask. split; [done|].
  split; [by rewrite Hzero, Hcomp|].
  intros r c Htrue.
  assert (is_Some (at2 mask r c)) as [Hr Hcol]%(at2_is_Some _ _ _ _ _ Hm)
    by (by rewrite Htrue).
  rewrite Hmask in Htrue by done.
  rewrite Hpix by done. f_equal. apply painted_uncovered.
  apply existsb_coversb. destruct (existsb _ _); [done|done].
Qed.

(** The list [arrange_images] sorts for the packer is a permutation of
    the normalizer's output, its areas never increase, the rectangles of
    any one area appear in the order the normalizer produced them, and no
    other list has the last two properties. *)
Lemma pack_order_stable_sort (normalized_posters : list image) :
  pack_order normalized_posters ≡ₚ normalized_posters
  ∧ StronglySorted (key_ge area) (pack_order normalized_posters)
  ∧ (∀ k, filter (λ img, area img = k) (pack_order normalized_posters)
          = filter (λ img, area img = k) normalized_posters)
  ∧ ∀ other,
      StronglySorted (key_ge area) other →
      (∀ k, filter (λ img, area img = k) other
            = filter (λ img, area img = k) normalized_posters) →
      other = pack_order normalized_posters.
Proof.
  split_and!.
  - apply sorted_reverse_perm.
  - apply sorted_reverse_sorted.
  - intros k. apply sorted_reverse_stable.
  - intros other Hsorted Hstable.
    apply (stable_sorted_unique area); [done|apply sorted_reverse_sorted|].
    intros k. rewrite Hstable. symmetry. apply sorted_reverse_stable.
Qed.
End arrange_images_properties.

(** C10.  [arrange_images] consults the packer on one list only: the sizes
    of the posters sorted by area in non-increasing order, rectangles of
    equal area keeping the order in which the normalizer produced them.
    That list is determined by the input sequence (no other list is
    sorted and keeps the order of equal areas), and two packers that agree
    on it give the same collage. *)
Theorem packer_sees_stable_area_order (normalized_posters : list image) :
  pack_order normalized_posters ≡ₚ normalized_posters
  ∧ StronglySorted (key_ge area) (pack_order normalized_posters)
  ∧ (∀ k, filter (λ img, area img = k) (pack_order normalized_posters)
          = filter (λ img, area img = k) normalized_posters)
  ∧ (∀ other,
       StronglySorted (key_ge area) other →
       (∀ k, filter (λ img, area img = k) other
             = filter (λ img, area img = k) normalized_posters) →
       other = pack_order normalized_posters)
  ∧ ∀ (E1 E2 : Externals) (blur_factor blur_radius : Z),
      @gaussian_blur E1 = @gaussian_blur E2 →
      @rpack_pack E1 (size <$> pack_order normalized_posters)
      = @rpack_pack E2 (size <$> pack_order normalized_posters) →
      @arrange_images E1 normalized_posters blur_factor blur_radius
      = @arrange_images E2 normalized_posters blur_factor blur_radius.
Proof.
  destruct (pack_order_stable_sort normalized_posters)
    as (Hp & Hs & Hst & Huniq).
  split_and!; try done.
  intros [rs1 pk1 gb1] [rs2 pk2 gb2] bf br. simpl. intros -> Hpack.
  unfold arrange_images, compose. simpl. rewrite Hpack. done.
Qed.

(** ** The poster normalizer *)

Section real_arithmetic.
Local Open Scope R_scope.

Lemma py_int_floor (x : R) : 0 <= x → py_int x = Zfloor x.
Proof. intros Hx. unfold py_int. by rewrite decide_True. Qed.



End real_arithmetic.

Section normalizer.
Context `{Externals}.
Local Open Scope R_scope.

Lemma resize_retained (ratio : R) (img : image) :
  (0 < (size img).2)%nat →
  1 <= target_height ratio img → 1 <= target_width ratio img →
  resize_width_w_constant_aspect ratio img
  = Ok (Some (resize img (Z.to_nat (py_int (target_height ratio img)),
                          Z.to_nat (py_int (target_width ratio img))))).
Proof.
  intros Hh Hth Htw. unfold resize_width_w_constant_aspect.
  destruct (size img).2 eqn:Heq; [lia|].
  by rewrite decide_True.
Qed.

Lemma resize_dropped (ratio : R) (img : image) :
  (0 < (size img).2)%nat →
  target_width ratio img < 1 ∨ target_height ratio img < 1 →
  resize_width_w_constant_aspect ratio img = Ok None.
Proof.
  intros Hh Hlt. unfold resize_width_w_constant_aspect.
  destruct (size img).2 eqn:Heq; [lia|].
  rewrite decide_False; [done|]. intros [? ?]. lra.
Qed.

Lemma normalize_loop_cons (max_time : Z) (max_area : nat) (time : Z)
    (img : image) (rest : list (Z * image)) (acc : list image) :
  max_time ≠ 0%Z → (0 < area img)%nat →
  normalize_loop max_time max_area ((time, img) :: rest) acc
  = img' ← resize_width_w_constant_aspect
             (poster_ratio max_time max_area time img) img;
    normalize_loop max_time max_area rest
      (match img' with Some i => acc ++ [i] | None => acc end).
Proof.
  intros Hmt Harea. simpl. unfold true_div.
  rewrite !decide_False by lia. done.
Qed.
End normalizer.

(** ** Running the normalizer on concrete posters *)

Ltac nat_consts :=
  rewrite ?INR_IZR_INZ;
  repeat match goal with
  | |- context [Z.of_nat ?n] =>
      let z := eval vm_compute in (Z.of_nat n) in
      change (Z.of_nat n) with z
  end.

Section normalizer_steps.
Context `{Externals}.
Local Open Scope R_scope.

(** One pass of the loop over a poster that is kept, with the integer
    size it gets. *)
Lemma normalize_loop_keep (max_time : Z) (max_area : nat) (time : Z)
    (img : image) (rest : list (Z * image)) (acc : list image) (w h : nat) :
  max_time ≠ 0%Z → (0 < area img)%nat → (1 ≤ w)%nat → (1 ≤ h)%nat →
  IZR (Z.of_nat w)
    <= target_height (poster_ratio max_time max_area time img) img
    < IZR (Z.of_nat w) + 1 →
  IZR (Z.of_nat h)
    <= target_width (poster_ratio max_time max_area time img) img
    < IZR (Z.of_nat h) + 1 →
  normalize_loop max_time max_area ((time, img) :: rest) acc
  = normalize_loop max_time max_area rest (acc ++ [resize img (w, h)]).
Proof.
  intros Hmt Harea Hw Hh Hth Htw.
  rewrite normalize_loop_cons by done.
  assert (1 <= IZR (Z.of_nat w)) by (apply IZR_le; lia).
  assert (1 <= IZR (Z.of_nat h)) by (apply IZR_le; lia).
  rewrite resize_retained; [|unfold area in Harea; lia|lra|lra].
  rewrite !py_int_floor by lra.
  rewrite (Zfloor_eq _ _ Hth), (Zfloor_eq _ _ Htw), !Nat2Z.id. done.
Qed.

(** One pass of the loop over a poster that is dropped. *)
Lemma normalize_loop_drop (max_time : Z) (max_area : nat) (time : Z)
    (img : image) (rest : list (Z * image)) (acc : list image) :
  max_time ≠ 0%Z → (0 < area img)%nat →
  target_width (poster_ratio max_time max_area time img) img < 1
  ∨ target_height (poster_ratio max_time max_area time img) img < 1 →
  normalize_loop max_time max_area ((time, img) :: rest) acc
  = normalize_loop max_time max_area rest acc.
Proof.
  intros Hmt Harea Hlt.
  rewrite normalize_loop_cons by done.
  rewrite resize_dropped; [done|unfold area in Harea; lia|done].
Qed.

End normalizer_steps.

(** ** Properties of the normalizer *)

Lemma foldl_Zmax_ge (xs : list Z) (x : Z) : (x ≤ foldl Z.max x xs)%Z.
Proof.
  revert x. induction xs as [|y xs IH]; intros x; simpl; [lia|].
  specialize (IH (x `max` y)%Z). lia.
Qed.

Section normalizer_properties.
Context `{Externals}.
Local Open Scope R_scope.

Lemma normalized_resize (max_time : Z) (max_area : nat) (tp : Z * image) :
  (0 < area tp.2)%nat →
  resize_width_w_constant_aspect
    (poster_ratio max_time max_area tp.1 tp.2) tp.2
  = Ok (normalized max_time max_area tp).
Proof.
  intros Harea. unfold normalized, resize_width_w_constant_aspect.
  destruct (size tp.2).2 eqn:Heq; [unfold area in Harea; lia|].
  by case_decide.
Qed.


End normalizer_properties.

Section normalizer_claims.
Context `{Externals}.
Local Open Scope R_scope.

(** C1 (the code at the failing input).  Two posters of equal weight 10,
    of 100 x 100 and 50 x 200 pixels (equal areas), are resized to
    100 x 100 and 12 x 50: final areas 10000 and 600, where equal weights
    call for equal areas.  One more pixel in each dimension of the second
    poster would not close the gap. *)
Theorem equal_weights_unequal_areas :
  ∃ a b,
    normalize_posters [(10%Z, flat 100 100 red); (10%Z, flat 50 200 blue)]
    = Ok [a; b]
    ∧ size a = (100, 100)%nat ∧ size b = (12, 50)%nat
    ∧ Z.of_nat (area a) = 10000%Z ∧ Z.of_nat (area b) = 600%Z
    ∧ (((size b).1 + 1) * ((size b).2 + 1) < area a)%nat.
Proof.
  exists (resize (flat 100 100 red) (100, 100)%nat),
         (resize (flat 50 200 blue) (12, 50)%nat).
  split; [|split_and!; try (by vm_compute); unfold area; cbn; lia].
  unfold normalize_posters.
  change (py_max Z.max _) with (Ok 10%Z).
  change (py_max Nat.max _) with (Ok (Nat.max (100 * 100) (50 * 200))).
  cbn [mbind result_bind].
  assert (poster_ratio 10 (Nat.max (100 * 100) (50 * 200)) 10
            (flat 100 100 red) = 1) as Hr1.
  { unfold poster_ratio, area. cbn [size flat fst snd]. nat_consts. lra. }
  assert (poster_ratio 10 (Nat.max (100 * 100) (50 * 200)) 10
            (flat 50 200 blue) = 1) as Hr2.
  { unfold poster_ratio, area. cbn [size flat fst snd]. nat_consts. lra. }
  rewrite (normalize_loop_keep _ _ _ _ _ _ 100 100);
    [|done|unfold area; cbn; lia|lia|lia|..].
  2,3: rewrite Hr1; unfold target_height, target_width;
       cbn [size flat fst snd]; nat_consts; rewrite sqrt_1; lra.
  rewrite (normalize_loop_keep _ _ _ _ _ _ 12 50);
    [|done|unfold area; cbn; lia|lia|lia|..].
  2,3: rewrite Hr2; unfold target_height, target_width;
       cbn [size flat fst snd]; nat_consts; rewrite sqrt_1; lra.
  done.
Qed.

(** A single 1 x 2 poster is dropped: nothing is left to arrange. *)
Lemma normalize_all_dropped :
  normalize_posters [(1%Z, flat 1 2 red)] = Ok [].
Proof.
  unfold normalize_posters.
  change (py_max Z.max _) with (Ok 1%Z).
  change (py_max Nat.max _) with (Ok (1 * 2)%nat).
  cbn [mbind result_bind].
  rewrite normalize_loop_drop; [done|done|unfold area; cbn; lia|].
  right. unfold target_height, target_width, poster_ratio, area.
  cbn [size flat fst snd]. nat_consts.
  replace (2 / 2 * (1 / 1)) with 1 by lra. rewrite sqrt_1. lra.
Qed.

(** C4 (as amended).  An empty input, or an input whose posters are all
    dropped, makes the pipeline raise [ValueError] from [max] of an
    empty sequence; no canvas is produced. *)
Theorem empty_input_raises (time_posters : list (Z * image))
    (blur_factor blur_radius : Z) :
  time_posters = [] ∨ normalize_posters time_posters = Ok [] →
  draw time_posters blur_factor blur_radius = Raise ValueError
  ∧ arrange_images [] blur_factor blur_radius = Raise ValueError.
Proof.
  assert (arrange_images [] blur_factor blur_radius = Raise ValueError)
    as Hempty.
  { unfold arrange_images. by rewrite compose_empty by apply placements_nil. }
  intros [->|Hnorm]; (split; [|done]).
  - done.
  - unfold draw. rewrite Hnorm. exact Hempty.
Qed.
End normalizer_claims.

(** * Concrete runs *)

Section concrete_runs.
Local Open Scope R_scope.


(** C4 refuted as stated: on the empty input the pipeline raises. *)
Lemma empty_input_is_an_error :
  @draw demo_externals [] 100 5 = Raise ValueError
  ∧ ¬ ∃ canvas, @draw demo_externals [] 100 5 = Ok canvas.
Proof. split; [done|]. intros [canvas Hc]. discriminate Hc. Qed.
End concrete_runs.

(** C4 (as amended) on an input whose only poster, 1 x 2 pixels, is
    dropped. *)
Lemma empty_input_raises_witness :
  @normalize_posters demo_externals [(1%Z, flat 1 2 red)] = Ok []
  ∧ @draw demo_externals [(1%Z, flat 1 2 red)] 100 5 = Raise ValueError
  ∧ @arrange_images demo_externals [] 100 5 = Raise ValueError.
Proof.
  split; [apply normalize_all_dropped|].
  apply (@empty_input_raises demo_externals). right.
  apply normalize_all_dropped.
Defined.

(** C5 on a 2 x 2 and a 1 x 3 poster packed side by side. *)
Lemma canvas_tight_and_white_witness :
  @placements demo_externals [flat 2 2 red; flat 1 3 blue] ≠ []
  ∧ ∃ max_width max_height blank final,
      is_max max_width
        (right_edge <$> @placements demo_externals [flat 2 2 red; flat 1 3 blue])
      ∧ is_max max_height
          (bottom_edge <$> @placements demo_externals [flat 2 2 red; flat 1 3 blue])
      ∧ canvas_alloc
          (row_pack (size <$> pack_order [flat 2 2 red; flat 1 3 blue]))
          (size <$> pack_order [flat 2 2 red; flat 1 3 blue]) = Ok blank
      ∧ nrows blank = max_height + 1
      ∧ ncols blank = max_width + 1
      ∧ has_shape (max_height + 1) (max_width + 1) blank
      ∧ (∀ r c, r < max_height + 1 → c < max_width + 1 →
           at2 blank r c = Some white)
      ∧ @arrange_images demo_externals [flat 2 2 red; flat 1 3 blue] 2 5
        = Ok final
      ∧ has_shape (max_height + 1) (max_width + 1) final.
Proof.
  split; [discriminate|].
  apply (@canvas_tight_and_white demo_externals). discriminate.
Defined.

(** C6 on the same two posters. *)
Lemma deadspace_mask_correct_witness :
  @placements demo_externals [flat 2 2 red; flat 1 3 blue] ≠ []
  ∧ ∃ canvas mask,
      @compose demo_externals [flat 2 2 red; flat 1 3 blue] = Ok (canvas, mask)
      ∧ ∀ r c, is_Some (at2 canvas r c) →
          (at2 mask r c = Some true ↔
             ∀ p, p ∈ @placements demo_externals [flat 2 2 red; flat 1 3 blue] →
                  ¬ covers p r c)
          ∧ ((r, c) ∈ np_where mask ↔
               ∀ p, p ∈ @placements demo_externals
                          [flat 2 2 red; flat 1 3 blue] → ¬ covers p r c).
Proof.
  split; [discriminate|].
  apply (@deadspace_mask_correct demo_externals). discriminate.
Defined.

(** C3 on the same two posters after two passes of the smearing blur:
    the column right of the blue poster has turned blue, the posters are
    as composited. *)
Lemma diffusion_non_invasive_witness :
  @placements demo_externals [flat 2 2 red; flat 1 3 blue] ≠ []
  ∧ ∃ canvas final,
      @arrange_images demo_externals [flat 2 2 red; flat 1 3 blue] 2 5 = Ok final
      ∧ canvas = [[red; red; blue; white]; [red; red; blue; white];
                  [white; white; blue; white]; [white; white; white; white]]
      ∧ final = [[red; red; blue; blue]; [red; red; blue; blue];
                 [white; white; blue; blue]; [white; white; white; white]]
      ∧ ∀ p r c,
          p ∈ @placements demo_externals [flat 2 2 red; flat 1 3 blue] →
          covers p r c → at2 final r c = at2 canvas r c.
Proof.
  split; [discriminate|].
  destruct (@diffusion_non_invasive demo_externals
              [flat 2 2 red; flat 1 3 blue] 2 5)
    as (canvas & mask & final & Hcomp & Harr & Hkeep & _); [discriminate|].
  exists canvas, final.
  assert (canvas = [[red; red; blue; white]; [red; red; blue; white];
                    [white; white; blue; white]; [white; white; white; white]])
    as Hcanvas.
  { vm_compute in Hcomp. by injection Hcomp as <- _. }
  assert (final = [[red; red; blue; blue]; [red; red; blue; blue];
                   [white; white; blue; blue]; [white; white; white; white]])
    as Hfinal.
  { vm_compute in Harr. by injection Harr as <-. }
  done.
Defined.

(** C9 on the same two posters. *)
Lemma blur_factor_zero_noop_witness :
  @placements demo_externals [flat 2 2 red; flat 1 3 blue] ≠ []
  ∧ ∃ canvas mask,
      @compose demo_externals [flat 2 2 red; flat 1 3 blue] = Ok (canvas, mask)
      ∧ @arrange_images demo_externals [flat 2 2 red; flat 1 3 blue] 0 5
        = Ok canvas
      ∧ ∀ r c, at2 mask r c = Some true → at2 canvas r c = Some white.
Proof.
  split; [discriminate|].
  apply (@blur_factor_zero_noop demo_externals). discriminate.
Defined.

(** C10 on three posters given out of order, with two packers that differ
    on the unsorted list of sizes and agree on the sorted one. *)
Lemma packer_sees_stable_area_order_witness :
  row_pack (size <$> [flat 1 3 blue; flat 2 2 red; flat 3 1 white])
  ≠ strict_pack (size <$> [flat 1 3 blue; flat 2 2 red; flat 3 1 white])
  ∧ size <$> pack_order [flat 1 3 blue; flat 2 2 red; flat 3 1 white]
    = [(2, 2); (1, 3); (3, 1)]
  ∧ @arrange_images demo_externals
      [flat 1 3 blue; flat 2 2 red; flat 3 1 white] 2 5
    = @arrange_images strict_externals
        [flat 1 3 blue; flat 2 2 red; flat 3 1 white] 2 5.
Proof.
  split; [discriminate|]. split; [reflexivity|].
  apply (packer_sees_stable_area_order
           [flat 1 3 blue; flat 2 2 red; flat 3 1 white]);
    reflexivity.
Defined.

(** * The normalizer in binary64 *)

(** ** Binary64 numbers *)

Section binary64_facts.
Import PrimFloat FloatOps FloatAxioms SpecFloat.

Lemma digits2_pos_bounds (m : positive) :
  (2 ^ (Z.pos (digits2_pos m) - 1) ≤ Z.pos m < 2 ^ Z.pos (digits2_pos m))%Z.
Proof.
  induction m as [p IH|p IH|]; cbn [digits2_pos].
  - rewrite Pos2Z.inj_succ.
    replace (Z.succ (Z.pos (digits2_pos p)) - 1)%Z
      with (Z.succ (Z.pos (digits2_pos p) - 1))%Z by lia.
    rewrite !Z.pow_succ_r by lia. lia.
  - rewrite Pos2Z.inj_succ.
    replace (Z.succ (Z.pos (digits2_pos p)) - 1)%Z
      with (Z.succ (Z.pos (digits2_pos p) - 1))%Z by lia.
    rewrite !Z.pow_succ_r by lia. lia.
  - simpl. lia.
Qed.


Lemma Prim2SF_one : Prim2SF 1 = S754_finite false 4503599627370496 (-52).
Proof. reflexivity. Qed.

Lemma leb_one_inv (f : float) :
  (1 <=? f)%float = true →
  Prim2SF f = S754_infinity false
  ∨ ∃ m e, Prim2SF f = S754_finite false m e ∧ (1 ≤ Binary64.magnitude m e)%Z.
Proof.
  rewrite leb_spec, Prim2SF_one. intros Hle.
  pose proof (Prim2SF_valid f) as Hvalid.
  destruct (Prim2SF f) as [s|s| |s m e]; try discriminate Hle.
  - destruct s; [discriminate Hle|by left].
  - right. destruct s; [discriminate Hle|]. exists m, e. split; [done|].
    unfold SFleb, SFcompare in Hle. unfold Binary64.magnitude.
    destruct (Z.compare_spec (-52) e) as [Heq|Hlt|Hgt]; [| |discriminate Hle].
    + subst e. change (0 <=? -52)%Z with false. cbv beta iota.
      change (2 ^ (- -52))%Z with 4503599627370496%Z.
      assert (4503599627370496 ≤ Z.pos m)%Z as Hm.
      { rewrite Pos.compare_cont_spec in Hle.
        destruct (Pos.compare_spec 4503599627370496 m); simpl in Hle;
          try discriminate Hle; lia. }
      apply Z.div_le_lower_bound; lia.
    + destruct (Z.leb_spec 0 e) as [He|He].
      * assert (0 < 2 ^ e)%Z by (apply Z.pow_pos_nonneg; lia). nia.
      * unfold FloatAxioms.valid_binary, valid_binary, bounded,
          canonical_mantissa, fexp in Hvalid.
        apply andb_true_iff in Hvalid as [Hcanon _].
        apply Z.eqb_eq in Hcanon.
        change (SpecFloat.emin prec emax) with (-1074)%Z in Hcanon.
        change prec with 53%Z in Hcanon.
        assert (Z.pos (digits2_pos m) = 53)%Z as Hd by lia.
        pose proof (digits2_pos_bounds m) as [Hlo _]. rewrite Hd in Hlo.
        change (2 ^ (53 - 1))%Z with 4503599627370496%Z in Hlo.
        apply Z.div_le_lower_bound; [apply Z.pow_pos_nonneg; lia|].
        assert (2 ^ (- e) ≤ 2251799813685248)%Z
          by (change 2251799813685248%Z with (2 ^ 51)%Z;
              apply Z.pow_le_mono_r; lia).
        lia.
Qed.





Lemma to_int_finite (f : float) :
  (1 <=? f)%float = true →
  Binary64.to_int f
  = if Binary64.is_finite f then
      match Prim2SF f with
      | S754_finite _ m e => Ok (Binary64.magnitude m e)
      | _ => Ok 0%Z
      end
    else Raise OverflowError.
Proof.
  intros Hle. unfold Binary64.to_int, Binary64.is_finite.
  destruct (leb_one_inv f Hle) as [->|(m & e & -> & _)]; done.
Qed.


End binary64_facts.

(** ** The loop and its passes *)

Section binary64_normalizer.
Context `{Externals}.
Import PrimFloat.


(** What [resize_width_w_constant_aspect] returns, by the two tests and
    the two conversions. *)
Lemma b64_resize_cases (ratio : float) (img : image) :
  let width := Binary64.target_width ratio img in
  let height := Binary64.target_height ratio img in
  ((1 <=? height)%float && (1 <=? width)%float = false
   ∧ Binary64.resize_width_w_constant_aspect ratio img = Ok None)
  ∨ ((1 <=? height)%float = true ∧ (1 <=? width)%float = true
     ∧ (Binary64.is_finite height = false ∨ Binary64.is_finite width = false)
     ∧ Binary64.resize_width_w_constant_aspect ratio img
       = Raise OverflowError)
  ∨ ((1 <=? height)%float = true ∧ (1 <=? width)%float = true
     ∧ Binary64.is_finite height = true ∧ Binary64.is_finite width = true
     ∧ ∃ h w,
         Binary64.to_int height = Ok h ∧ Binary64.to_int width = Ok w
         ∧ Binary64.resize_width_w_constant_aspect ratio img
           = Ok (Some (resize img (Z.to_nat h, Z.to_nat w)))).
Proof.
  intros width height. unfold Binary64.resize_width_w_constant_aspect.
  fold width height.
  destruct (1 <=? height)%float eqn:Hh; [|by left].
  destruct (1 <=? width)%float eqn:Hw; [|by left].
  right. cbn [andb].
  rewrite (to_int_finite height Hh), (to_int_finite width Hw).
  destruct (Binary64.is_finite height) eqn:Hfh.
  - destruct (Binary64.is_finite width) eqn:Hfw.
    + right. split_and!; try done.
      destruct (FloatOps.Prim2SF height), (FloatOps.Prim2SF width);
        by eexists _, _.
    + left. split_and!; try done; [by right|].
      by destruct (FloatOps.Prim2SF height).
  - left. split_and!; try done. by left.
Qed.


Lemma b64_resize_not_ValueError (ratio : float) (img : image) :
  Binary64.resize_width_w_constant_aspect ratio img ≠ Raise ValueError.
Proof.
  pose proof (b64_resize_cases ratio img) as Hcases. cbv zeta in Hcases.
  destruct Hcases
    as [[_ ->]|[(_ & _ & _ & ->)|(_ & _ & _ & _ & h & w & _ & _ & ->)]];
    done.
Qed.

Lemma b64_true_div_not_ValueError (a b : Z) :
  Binary64.true_div a b ≠ Raise ValueError.
Proof.
  unfold Binary64.true_div. destruct (decide (b = 0%Z)); [done|].
  by destruct (SpecFloat.SFdiv _ _ _ _).
Qed.

Lemma b64_true_div_ZeroDivisionError (a b : Z) :
  Binary64.true_div a b = Raise ZeroDivisionError ↔ b = 0%Z.
Proof.
  unfold Binary64.true_div. destruct (decide (b = 0%Z)); [done|].
  by destruct (SpecFloat.SFdiv _ _ _ _).
Qed.

Lemma b64_resize_not_ZeroDivisionError (ratio : float) (img : image) :
  Binary64.resize_width_w_constant_aspect ratio img ≠ Raise ZeroDivisionError.
Proof.
  pose proof (b64_resize_cases ratio img) as Hcases. cbv zeta in Hcases.
  destruct Hcases
    as [[_ ->]|[(_ & _ & _ & ->)|(_ & _ & _ & _ & h & w & _ & _ & ->)]];
    done.
Qed.

Lemma b64_normalized_not_ValueError (max_time : Z) (max_area : nat)
    (tp : Z * image) :
  Binary64.normalized max_time max_area tp ≠ Raise ValueError.
Proof.
  unfold Binary64.normalized.
  pose proof (b64_true_div_not_ValueError (Z.of_nat max_area)
                (Z.of_nat (area tp.2))).
  destruct (Binary64.true_div (Z.of_nat max_area) _) as [a|e]; [|by destruct e].
  pose proof (b64_true_div_not_ValueError tp.1 max_time).
  destruct (Binary64.true_div tp.1 max_time) as [t|e]; [|by destruct e].
  apply b64_resize_not_ValueError.
Qed.

Lemma b64_normalized_ZeroDivisionError (max_time : Z) (max_area : nat)
    (tp : Z * image) :
  Binary64.normalized max_time max_area tp = Raise ZeroDivisionError →
  max_time = 0%Z ∨ area tp.2 = 0%nat.
Proof.
  unfold Binary64.normalized.
  destruct (Binary64.true_div (Z.of_nat max_area) _) as [a|e] eqn:Ha.
  - destruct (Binary64.true_div tp.1 max_time) as [t|e] eqn:Ht.
    + intros Hr. by apply b64_resize_not_ZeroDivisionError in Hr.
    + cbn. intros [= ->]. left. by apply b64_true_div_ZeroDivisionError in Ht.
  - cbn. intros [= ->]. right. apply b64_true_div_ZeroDivisionError in Ha. lia.
Qed.

(** The loop, one pass at a time. *)
Lemma b64_normalize_loop_cons (max_time : Z) (max_area : nat)
    (tp : Z * image) (rest : list (Z * image)) (acc : list image) :
  Binary64.normalize_loop max_time max_area (tp :: rest) acc
  = img' ← Binary64.normalized max_time max_area tp;
    Binary64.normalize_loop max_time max_area rest
      (match img' with Some i => acc ++ [i] | None => acc end).
Proof.
  destruct tp as [time img]. cbn [Binary64.normalize_loop].
  unfold Binary64.normalized. cbn [fst snd].
  destruct (Binary64.true_div (Z.of_nat max_area) _); [|done].
  destruct (Binary64.true_div time max_time); done.
Qed.

(** The loop returns exactly when no pass raises, and then the posters
    kept, in input order. *)
Lemma b64_normalize_loop_Ok (max_time : Z) (max_area : nat)
    (time_posters : list (Z * image)) (acc out : list image) :
  Binary64.normalize_loop max_time max_area time_posters acc = Ok out ↔
  Forall (λ tp, ∃ o, Binary64.normalized max_time max_area tp = Ok o)
    time_posters
  ∧ out = acc ++ omap (Binary64.kept max_time max_area) time_posters.
Proof.
  revert acc. induction time_posters as [|tp rest IH]; intros acc.
  { cbn. rewrite app_nil_r. split; [intros [= ->]; by split|].
    by intros [_ ->]. }
  rewrite b64_normalize_loop_cons, Forall_cons. cbn [omap list_omap].
  unfold Binary64.kept at 1.
  destruct (Binary64.normalized max_time max_area tp) as [[img'|]|e]; cbn.
  - rewrite IH, <-app_assoc. cbn. split; [|tauto].
    intros [? ?]. split_and!; by eauto.
  - rewrite IH. split; [|tauto]. intros [? ?]. split_and!; by eauto.
  - split; [done|]. by intros [[[o ?] _] _].
Qed.

(** When the loop raises, it raises what the first failing pass
    raises. *)
Lemma b64_normalize_loop_Raise (max_time : Z) (max_area : nat)
    (time_posters : list (Z * image)) (acc : list image) (e : exn) :
  Binary64.normalize_loop max_time max_area time_posters acc = Raise e ↔
  ∃ before tp after,
    time_posters = before ++ tp :: after
    ∧ Forall (λ tp, ∃ o, Binary64.normalized max_time max_area tp = Ok o)
        before
    ∧ Binary64.normalized max_time max_area tp = Raise e.
Proof.
  revert acc. induction time_posters as [|tp rest IH]; intros acc.
  { cbn. split; [done|]. intros (before & tp & after & Happ & _).
    by destruct before. }
  rewrite b64_normalize_loop_cons.
  destruct (Binary64.normalized max_time max_area tp) as [o|e'] eqn:Htp; cbn.
  - rewrite IH. split.
    + intros (before & tp' & after & -> & Hb & Hr).
      exists (tp :: before), tp', after. split_and!; [done| |done].
      apply Forall_cons. eauto.
    + intros (before & tp' & after & Happ & Hb & Hr).
      destruct before as [|tp0 before]; cbn in Happ.
      * injection Happ as <- <-. congruence.
      * injection Happ as <- ->. apply Forall_cons in Hb as [_ Hb].
        by exists before, tp', after.
  - split.
    + intros [= ->]. exists [], tp, rest. by split_and!.
    + intros (before & tp' & after & Happ & Hb & Hr).
      destruct before as [|tp0 before]; cbn in Happ.
      * injection Happ as <- <-. congruence.
      * injection Happ as <- ->. apply Forall_cons in Hb as [[o Ho] _].
        congruence.
Qed.
End binary64_normalizer.

(** ** The claims on the normalizer, in binary64 *)

Section binary64_claims.
Context `{Externals}.
Import PrimFloat.





End binary64_claims.

Section binary64_concrete.
Local Open Scope R_scope.


End binary64_concrete.

Section binary64_runs.
Import PrimFloat.

(** The concrete posters used above, in binary64: the example of the
    specification, the two posters of equal weight and area, the 1 x 2
    poster that is dropped, three posters of which rounding drops one
    that exact arithmetic keeps, and two weights whose quotient leaves
    the range of binary64. *)
Example binary64_spec_example `{Externals} :
  Binary64.normalize_posters
    [(10%Z, flat 100 100 red); (5%Z, flat 50 50 blue)]
  = Ok [resize (flat 100 100 red) (100, 100)%nat;
        resize (flat 50 50 blue) (70, 70)%nat].
Proof. vm_compute. reflexivity. Qed.

Example binary64_equal_weights `{Externals} :
  Binary64.normalize_posters
    [(10%Z, flat 100 100 red); (10%Z, flat 50 200 blue)]
  = Ok [resize (flat 100 100 red) (100, 100)%nat;
        resize (flat 50 200 blue) (12, 50)%nat].
Proof. vm_compute. reflexivity. Qed.

Example binary64_dropped `{Externals} :
  Binary64.normalize_posters [(1%Z, flat 1 2 red)] = Ok [].
Proof. vm_compute. reflexivity. Qed.

Example binary64_rounding_drops `{Externals} :
  Binary64.normalize_posters
    [(49%Z, flat 7 7 red); (1%Z, flat 1 1 blue); (4%Z, flat 1 1 white)]
  = Ok [resize (flat 7 7 red) (7, 7)%nat;
        resize (flat 1 1 white) (1, 1)%nat].
Proof. vm_compute. reflexivity. Qed.

Example binary64_overflow `{Externals} :
  Binary64.normalize_posters
    [((-1)%Z, flat 2 2 red); ((- 10 ^ 400)%Z, flat 2 2 blue)]
  = Raise OverflowError.
Proof. vm_compute. reflexivity. Qed.



End binary64_runs.

(** * The rest of the module *)

(** ** [parse_duration] *)

Lemma digit_value_range (c : ascii) :
  is_digit c = true → (0 ≤ digit_value c ≤ 9)%Z.
Proof.
  unfold is_digit, digit_value.
  rewrite andb_true_iff, Nat.leb_le, Nat.leb_le. lia.
Qed.

Lemma int_digits_from_nonneg (s : string) (acc : Z) :
  all_digits s = true → (0 ≤ acc)%Z → (0 ≤ int_digits_from acc s)%Z.
Proof.
  revert acc. induction s as [|c s IH]; intros acc Hs Hacc; simpl; [done|].
  simpl in Hs. apply andb_true_iff in Hs as [Hc Hs].
  apply IH; [done|]. pose proof (digit_value_range c Hc). lia.
Qed.

Lemma starts_with_no_digit_head (lit s : string) :
  no_digit_head lit = true → lit ≠ EmptyString →
  starts_with lit s = true → no_digit_head s = true.
Proof.
  destruct lit as [|a lit]; [done|]. intros Ha _.
  destruct s as [|b s]; simpl; [done|].
  intros [->%bool_decide_eq_true _]%andb_true_iff. exact Ha.
Qed.

(** What a match at the start of the string captures. *)
Lemma match_digits_Some (lit s group : string) :
  match_digits lit s = Some group →
  all_digits group = true ∧ group ≠ EmptyString
  ∧ ∃ rest, s = group +:+ rest ∧ starts_with lit rest = true.
Proof.
  revert group. induction s as [|c s IH]; intros group; simpl; [done|].
  destruct (is_digit c) eqn:Hc; [|done].
  destruct (match_digits lit s) as [g|] eqn:Hm.
  - intros [= <-]. destruct (IH g eq_refl) as (Hg & _ & rest & -> & Hrest).
    simpl. rewrite Hc, Hg. split_and!; [done|done|]. by exists rest.
  - destruct (starts_with lit s) eqn:Hlit; [|done]. intros [= <-].
    simpl. rewrite Hc. split_and!; [done|done|]. by exists s.
Qed.

Lemma match_digits_no_digit_head (lit s : string) :
  no_digit_head s = true → match_digits lit s = None.
Proof.
  destruct s as [|c s]; simpl; [done|]. by destruct (is_digit c).
Qed.

(** A literal that starts with a character other than a digit does not
    start a string that starts with a digit. *)
Lemma starts_with_digit (lit : string) (c : ascii) (s : string) :
  no_digit_head lit = true → lit ≠ EmptyString → is_digit c = true →
  starts_with lit (String c s) = false.
Proof.
  destruct lit as [|a lit]; [done|]. simpl. intros Ha _ Hc.
  destruct (bool_decide (a = c)) eqn:Hac; [|done].
  apply bool_decide_eq_true in Hac as ->. by rewrite Hc in Ha.
Qed.

(** A run of digits that ends before [rest] matches as a whole or not at
    all. *)
Lemma match_digits_run (lit ds rest : string) :
  no_digit_head lit = true → lit ≠ EmptyString →
  all_digits ds = true → ds ≠ EmptyString → no_digit_head rest = true →
  match_digits lit (ds +:+ rest)
  = if starts_with lit rest then Some ds else None.
Proof.
  intros Hlit Hlne Hds Hne Hrest. induction ds as [|c ds IH]; [done|].
  clear Hne. simpl in Hds. apply andb_true_iff in Hds as [Hc Hds].
  simpl. rewrite Hc. destruct ds as [|c' ds].
  - change (EmptyString +:+ rest) with rest.
    rewrite (match_digits_no_digit_head lit rest Hrest).
    by destruct (starts_with lit rest).
  - rewrite IH by done.
    destruct (starts_with lit rest) eqn:Hr; [done|].
    simpl in Hds. apply andb_true_iff in Hds as [Hc' _].
    change (String c' ds +:+ rest) with (String c' (ds +:+ rest)).
    by rewrite starts_with_digit.
Qed.

Lemma re_search_digits_skip (lit pre s : string) :
  no_digits pre = true →
  re_search_digits lit (pre +:+ s) = re_search_digits lit s.
Proof.
  intros Hpre. induction pre as [|c pre IH]; [done|].
  simpl in Hpre. apply andb_true_iff in Hpre as [Hc Hpre].
  simpl. destruct (is_digit c); [done|]. by apply IH.
Qed.

Lemma re_search_digits_no_digits (lit s : string) :
  no_digits s = true → re_search_digits lit s = None.
Proof.
  intros Hs. induction s as [|c s IH]; [done|].
  simpl in Hs. apply andb_true_iff in Hs as [Hc Hs].
  simpl. destruct (is_digit c); [done|]. by apply IH.
Qed.

(** A run of digits not followed by the literal holds no match. *)
Lemma re_search_digits_miss (lit ds rest : string) :
  no_digit_head lit = true → lit ≠ EmptyString →
  all_digits ds = true → no_digit_head rest = true →
  starts_with lit rest = false →
  re_search_digits lit (ds +:+ rest) = re_search_digits lit rest.
Proof.
  intros Hlit Hlne Hds Hrest Hmiss. induction ds as [|c ds IH]; [done|].
  change (String c ds +:+ rest) with (String c (ds +:+ rest)).
  cbn [re_search_digits].
  change (String c (ds +:+ rest)) with (String c ds +:+ rest).
  rewrite match_digits_run, Hmiss by done.
  simpl in Hds. apply andb_true_iff in Hds as [_ Hds]. by apply IH.
Qed.

(** A run of digits followed by the literal is the match. *)
Lemma re_search_digits_hit (lit ds rest : string) :
  no_digit_head lit = true → lit ≠ EmptyString →
  all_digits ds = true → ds ≠ EmptyString →
  starts_with lit rest = true →
  re_search_digits lit (ds +:+ rest) = Some ds.
Proof.
  intros Hlit Hlne Hds Hne Hhit.
  assert (no_digit_head rest = true) as Hrest
    by eauto using starts_with_no_digit_head.
  destruct ds as [|c ds]; [done|].
  change (String c ds +:+ rest) with (String c (ds +:+ rest)).
  cbn [re_search_digits].
  change (String c (ds +:+ rest)) with (String c ds +:+ rest).
  by rewrite match_digits_run, Hhit.
Qed.

Lemma re_search_digits_Some (lit s group : string) :
  re_search_digits lit s = Some group →
  all_digits group = true ∧ group ≠ EmptyString.
Proof.
  induction s as [|c s IH]; [done|]. cbn [re_search_digits].
  destruct (match_digits lit (String c s)) as [g|] eqn:Hm.
  - intros [= <-]. by destruct (match_digits_Some _ _ _ Hm) as (? & ? & _).
  - exact IH.
Qed.

Lemma starts_with_app (lit rest : string) :
  starts_with lit (lit +:+ rest) = true.
Proof.
  induction lit as [|a lit IH]; simpl; [done|].
  by rewrite bool_decide_eq_true_2.
Qed.

Lemma no_digits_app (s1 s2 : string) :
  no_digits s1 = true → no_digits s2 = true → no_digits (s1 +:+ s2) = true.
Proof.
  intros H1 H2. induction s1 as [|c s1 IH]; [done|].
  simpl in H1. apply andb_true_iff in H1 as [Hc H1].
  simpl. rewrite Hc. by apply IH.
Qed.

(** The two passes of the loop, one unit each. *)
Lemma parse_duration_units (duration : string) :
  parse_duration duration
  = ((match re_search_digits " hr" duration with
      | Some group => 60 * int_digits group
      | None => 0
      end)
     + (match re_search_digits " min" duration with
        | Some group => int_digits group
        | None => 0
        end))%Z.
Proof.
  unfold parse_duration. cbn [foldl fst snd].
  destruct (re_search_digits " hr" duration),
           (re_search_digits " min" duration); lia.
Qed.

(** X1.  On ASCII text [parse_duration] reads "H hr M min" as 60 * H + M
    minutes, whatever digit-free text precedes the hours and whatever
    text follows "min": only the leftmost "N hr" and the leftmost
    "N min" count. *)
Theorem parse_duration_hr_min (pre hs ms rest : string) :
  is_ascii pre = true → is_ascii rest = true →
  no_digits pre = true →
  all_digits hs = true → hs ≠ EmptyString →
  all_digits ms = true → ms ≠ EmptyString →
  parse_duration (pre +:+ hs +:+ " hr " +:+ ms +:+ " min" +:+ rest)
  = (60 * int_digits hs + int_digits ms)%Z.
Proof.
  intros _ _ Hpre Hhs Hhne Hms Hmne. rewrite parse_duration_units.
  rewrite (re_search_digits_skip " hr" pre) by done.
  rewrite re_search_digits_hit by done.
  rewrite (re_search_digits_skip " min" pre) by done.
  rewrite re_search_digits_miss by done.
  rewrite (re_search_digits_skip " min" " hr ") by done.
  rewrite re_search_digits_hit by done. done.
Qed.

(** X2.  An ASCII duration that names one unit only, between digit-free
    texts, is that many minutes, or sixty times that many for hours. *)
Theorem parse_duration_one_unit (pre ds rest : string) :
  is_ascii pre = true → is_ascii rest = true →
  no_digits pre = true → all_digits ds = true → ds ≠ EmptyString →
  no_digits rest = true →
  parse_duration (pre +:+ ds +:+ " min" +:+ rest) = int_digits ds
  ∧ parse_duration (pre +:+ ds +:+ " hr" +:+ rest) = (60 * int_digits ds)%Z.
Proof.
  intros _ _ Hpre Hds Hne Hrest. rewrite !parse_duration_units.
  rewrite !(re_search_digits_skip " hr" pre) by done.
  rewrite !(re_search_digits_skip " min" pre) by done. split.
  - rewrite re_search_digits_miss by done.
    rewrite (re_search_digits_no_digits " hr") by (by apply no_digits_app).
    rewrite re_search_digits_hit by done. lia.
  - rewrite re_search_digits_hit by done.
    rewrite re_search_digits_miss by done.
    rewrite (re_search_digits_no_digits " min") by (by apply no_digits_app).
    lia.
Qed.

(** X3.  An ASCII duration without any digit, such as "Unknown", is 0
    minutes. *)
Theorem parse_duration_no_digits (duration : string) :
  is_ascii duration = true → no_digits duration = true →
  parse_duration duration = 0%Z.
Proof.
  intros _ Hd. rewrite parse_duration_units.
  by rewrite !re_search_digits_no_digits.
Qed.

(** A captured group is a number that is not negative. *)
Lemma re_search_digits_value (lit duration : string) :
  match re_search_digits lit duration with
  | Some group => (0 ≤ int_digits group)%Z
  | None => True
  end.
Proof.
  destruct (re_search_digits lit duration) as [g|] eqn:Hs; [|done].
  apply re_search_digits_Some in Hs as [Hg _].
  by apply int_digits_from_nonneg.
Qed.

(** X4.  [parse_duration] never returns a negative time. *)
Theorem parse_duration_nonneg (duration : string) :
  (0 ≤ parse_duration duration)%Z.
Proof.
  rewrite parse_duration_units.
  pose proof (re_search_digits_value " hr" duration) as Hhr.
  pose proof (re_search_digits_value " min" duration) as Hmin.
  destruct (re_search_digits " hr" duration),
           (re_search_digits " min" duration); lia.
Qed.

(** X1 on "1 hr 55 min per ep". *)
Lemma parse_duration_hr_min_witness :
  is_ascii " per ep" = true
  ∧ parse_duration "1 hr 55 min per ep"
    = (60 * int_digits "1" + int_digits "55")%Z.
Proof.
  split; [reflexivity|].
  apply (parse_duration_hr_min "" "1" "55" " per ep"); done.
Defined.

(** X2 on "about 24 min per ep" and "about 24 hr per ep". *)
Lemma parse_duration_one_unit_witness :
  is_ascii "about " = true ∧ is_ascii " per ep" = true
  ∧ parse_duration "about 24 min per ep" = int_digits "24"
  ∧ parse_duration "about 24 hr per ep" = (60 * int_digits "24")%Z.
Proof.
  split; [reflexivity|]. split; [reflexivity|].
  apply (parse_duration_one_unit "about " "24" " per ep"); done.
Defined.

(** X3 on "Unknown". *)
Lemma parse_duration_no_digits_witness :
  is_ascii "Unknown" = true ∧ no_digits "Unknown" = true
  ∧ parse_duration "Unknown" = 0%Z.
Proof.
  split; [reflexivity|]. split; [reflexivity|].
  apply parse_duration_no_digits; reflexivity.
Defined.

(** ** More on the normalizer *)

Lemma foldl_Zmax_ub (xs : list Z) (x y : Z) :
  y ∈ xs → (y ≤ foldl Z.max x xs)%Z.
Proof.
  revert x. induction xs as [|z xs IH]; intros x Hy; [by inversion Hy|].
  simpl. apply elem_of_cons in Hy as [->|Hy]; [|by apply IH].
  pose proof (foldl_Zmax_ge xs (x `max` z)%Z). lia.
Qed.

Lemma py_max_Z_ub (xs : list Z) (m y : Z) :
  py_max Z.max xs = Ok m → y ∈ xs → (y ≤ m)%Z.
Proof.
  destruct xs as [|x xs]; [done|]. intros [= <-] [->|Hy]%elem_of_cons.
  - apply foldl_Zmax_ge.
  - by apply foldl_Zmax_ub.
Qed.

Section normalizer_errors.
Context `{Externals}.


(** The loop raises [ZeroDivisionError] at the first poster of area zero,
    or at the first poster when the largest weight is zero. *)
Lemma normalize_loop_zero_division (max_time : Z) (max_area : nat)
    (time_posters : list (Z * image)) (acc : list image) :
  time_posters ≠ [] →
  max_time = 0%Z ∨ Exists (λ tp, area tp.2 = 0%nat) time_posters →
  normalize_loop max_time max_area time_posters acc = Raise ZeroDivisionError.
Proof.
  revert acc. induction time_posters as [|[time img] rest IH];
    intros acc Hne Hbad; [done|].
  destruct (decide (area img = 0%nat)) as [Hzero|Hpos].
  { cbn [normalize_loop]. unfold true_div. rewrite Hzero.
    rewrite (decide_True (P := Z.of_nat 0 = 0%Z)) by done. done. }
  destruct (decide (max_time = 0%Z)) as [->|Hmt].
  { cbn [normalize_loop]. unfold true_div.
    rewrite (decide_False (P := Z.of_nat (area img) = 0%Z)) by lia.
    cbn [mbind result_bind].
    rewrite (decide_True (P := 0%Z = 0%Z)) by done. done. }
  destruct Hbad as [?|Hbad]; [done|].
  apply Exists_cons in Hbad as [?|Hbad]; [done|].
  rewrite normalize_loop_cons by (done || lia).
  pose proof (normalized_resize max_time max_area (time, img)) as Hstep.
  cbn [fst snd] in Hstep. rewrite Hstep by lia. cbn [mbind result_bind].
  apply IH; [|by right]. intros ->. by apply Exists_nil in Hbad.
Qed.

End normalizer_errors.

Section normalizer_weights.
Context `{Externals}.
Local Open Scope R_scope.





Lemma omap_filter_None {A B : Type} (f : A → option B) (P : A → Prop)
    `{∀ x, Decision (P x)} (l : list A) :
  (∀ x, x ∈ l → ¬ P x → f x = None) → omap f l = omap f (filter P l).
Proof.
  induction l as [|x l IH]; intros Hf; [done|].
  rewrite filter_cons. cbn [omap list_omap].
  assert (omap f l = omap f (filter P l)) as Hrec.
  { apply IH. intros y Hy. apply Hf. by right. }
  case_decide as HP.
  - cbn [omap list_omap]. fold (omap f l) (omap f (filter P l)).
    by rewrite Hrec.
  - rewrite (Hf x) by (done || left). exact Hrec.
Qed.

Lemma max_time_pos (time_posters : list (Z * image)) (max_time : Z) :
  py_max Z.max (fst <$> time_posters) = Ok max_time →
  Exists (λ tp, (0 < tp.1)%Z) time_posters → (0 < max_time)%Z.
Proof.
  intros Hmt (tp & Htp & Hpos)%Exists_exists.
  pose proof (py_max_Z_ub _ _ tp.1 Hmt) as Hub.
  specialize (Hub (list_elem_of_fmap_2 fst _ _ Htp)). lia.
Qed.


End normalizer_weights.

Section normalizer_sizes.
Context `{Externals}.
Local Open Scope R_scope.





End normalizer_sizes.

(** ** The normalizer in binary64: errors and weights *)

Section binary64_signs.
Import PrimFloat FloatOps FloatAxioms SpecFloat.

Lemma binary_round_aux_sign (s : bool) (m e : Z) (l : location) :
  (if s then Binary64.SFnonpos else Binary64.SFnonneg)
    (binary_round_aux prec emax s m e l) = true.
Proof.
  unfold binary_round_aux.
  destruct (shr_fexp prec emax m e l) as [mrs e'].
  destruct (shr_fexp prec emax _ e' loc_Exact) as [mrs' e''].
  destruct (shr_m mrs') as [|p|p]; [by destruct s| |by destruct s].
  destruct (e'' <=? emax - prec)%Z; by destruct s.
Qed.

Lemma binary_round_sign (s : bool) (m : positive) (e : Z) :
  (if s then Binary64.SFnonpos else Binary64.SFnonneg)
    (binary_round prec emax s m e) = true.
Proof.
  unfold binary_round. destruct (shl_align m e _) as [mz ez].
  apply binary_round_aux_sign.
Qed.

Lemma SFdiv_ints_sign (a b : Z) :
  (0 < b)%Z →
  ((a ≤ 0)%Z →
   Binary64.SFnonpos (SFdiv prec emax (Binary64.Z2SF a) (Binary64.Z2SF b))
   = true)
  ∧ ((0 ≤ a)%Z →
     Binary64.SFnonneg (SFdiv prec emax (Binary64.Z2SF a) (Binary64.Z2SF b))
     = true).
Proof.
  intros Hb. destruct b as [|q|q]; [lia| |lia].
  destruct a as [|p|p]; unfold Binary64.Z2SF, SFdiv.
  - done.
  - split; [lia|intros _].
    destruct (SFdiv_core_binary prec emax (Z.pos p) 0 (Z.pos q) 0)
      as [[mz ez] lz].
    apply (binary_round_aux_sign false).
  - split; [intros _|lia].
    destruct (SFdiv_core_binary prec emax (Z.pos p) 0 (Z.pos q) 0)
      as [[mz ez] lz].
    apply (binary_round_aux_sign true).
Qed.

Lemma Prim2SF_of_uint63_sign (n : PrimInt63.int) :
  Binary64.SFnonneg (Prim2SF (of_uint63 n)) = true.
Proof.
  rewrite of_uint63_spec. unfold binary_normalize.
  pose proof (Uint63.to_Z_bounded n) as [Hn _].
  destruct (Uint63Axioms.to_Z n) as [|p|p]; [done| |lia].
  apply (binary_round_sign false).
Qed.

Lemma SFldexp_sign (x : spec_float) (e : Z) :
  Binary64.SFnonneg x = true →
  Binary64.SFnonneg (SFldexp prec emax x e) = true.
Proof.
  destruct x as [s|s| |s m ex]; try done. cbn [Binary64.SFnonneg SFldexp].
  destruct s; [done|]. intros _. apply (binary_round_sign false).
Qed.

Lemma SFopp_sign (x : spec_float) :
  Binary64.SFnonneg x = true → Binary64.SFnonpos (SFopp x) = true.
Proof. destruct x as [s|s| |s m e]; try done; by destruct s. Qed.

Lemma SF2Prim_sign (x : spec_float) :
  (Binary64.SFnonpos x = true →
   Binary64.SFnonpos (Prim2SF (SF2Prim x)) = true)
  ∧ (Binary64.SFnonneg x = true →
     Binary64.SFnonneg (Prim2SF (SF2Prim x)) = true).
Proof.
  destruct x as [s|s| |s m e].
  - destruct s; split; reflexivity.
  - destruct s; split; try discriminate; reflexivity.
  - split; reflexivity.
  - unfold SF2Prim.
    assert (Binary64.SFnonneg
              (Prim2SF (Z.ldexp (of_uint63 (Uint63Axioms.of_Z (Z.pos m))) e))
            = true) as Hf.
    { unfold Z.ldexp. rewrite ldshiftexp_spec.
      apply SFldexp_sign, Prim2SF_of_uint63_sign. }
    destruct s; cbn [Binary64.SFnonpos Binary64.SFnonneg negb];
      split; try discriminate; intros _.
    + rewrite opp_spec. by apply SFopp_sign.
    + exact Hf.
Qed.

Lemma true_div_sign (a b : Z) (f : float) :
  (0 < b)%Z → Binary64.true_div a b = Ok f →
  ((a ≤ 0)%Z → Binary64.SFnonpos (Prim2SF f) = true)
  ∧ ((0 ≤ a)%Z → Binary64.SFnonneg (Prim2SF f) = true).
Proof.
  intros Hb. unfold Binary64.true_div.
  destruct (decide (b = 0%Z)); [done|].
  destruct (SFdiv_ints_sign a b Hb) as [Hneg Hpos].
  set (q := SFdiv prec emax (Binary64.Z2SF a) (Binary64.Z2SF b)) in *.
  intros Hdiv.
  assert (f = SF2Prim q) as ->.
  { destruct q; first [discriminate Hdiv
                      |injection Hdiv as Hf; symmetry; exact Hf]. }
  split; intros Ha.
  - apply (proj1 (SF2Prim_sign q)). by apply Hneg.
  - apply (proj2 (SF2Prim_sign q)). by apply Hpos.
Qed.

Lemma SFmul_sign (x y : spec_float) :
  Binary64.SFnonneg x = true → Binary64.SFnonpos y = true →
  Binary64.SFnonpos (SFmul prec emax x y) = true.
Proof.
  destruct x as [sx|sx| |sx mx ex], y as [sy|sy| |sy my ey];
    cbn [Binary64.SFnonneg Binary64.SFnonpos SFmul]; try done.
  - intros ->%negb_true_iff ->. done.
  - intros ->%negb_true_iff ->. done.
  - intros ->%negb_true_iff ->. done.
  - intros ->%negb_true_iff ->. apply (binary_round_aux_sign true).
Qed.

Lemma SFsqrt_null (x : spec_float) :
  Binary64.SFnonpos x = true → Binary64.SFnull (SFsqrt prec emax x) = true.
Proof.
  destruct x as [s|s| |s m e]; cbn [Binary64.SFnonpos SFsqrt]; try done;
    by intros ->.
Qed.

Lemma SFmul_null (x y : spec_float) :
  Binary64.SFnull x = true → Binary64.SFnull (SFmul prec emax x y) = true.
Proof. destruct x as [s|s| |s m e], y as [sy|sy| |sy my ey]; done. Qed.

Lemma leb_one_null (f : float) :
  Binary64.SFnull (Prim2SF f) = true → (1 <=? f)%float = false.
Proof.
  rewrite leb_spec, Prim2SF_one. by destruct (Prim2SF f) as [s|s| |s m e].
Qed.
End binary64_signs.

Section binary64_extras.
Context `{Externals}.
Import PrimFloat.

(** A weight that is zero or negative, over a positive largest weight,
    gives a width that is zero or [nan]: the poster is dropped. *)
Lemma b64_nonpositive_dropped (max_time : Z) (max_area : nat) (time : Z)
    (img : image) (o : option image) :
  (time ≤ 0)%Z → (0 < max_time)%Z →
  Binary64.normalized max_time max_area (time, img) = Ok o → o = None.
Proof.
  intros Htime Hmax. unfold Binary64.normalized. cbn [fst snd].
  destruct (Binary64.true_div (Z.of_nat max_area) _) as [a|] eqn:Ha;
    [|done].
  destruct (Binary64.true_div time max_time) as [t|] eqn:Ht; [|done].
  cbn [mbind result_bind].
  assert (Z.of_nat (area img) ≠ 0%Z) as Harea.
  { intros Hz. rewrite Hz in Ha. discriminate Ha. }
  apply true_div_sign in Ha as [_ Ha]; [|lia].
  apply true_div_sign in Ht as [Ht _]; [|lia].
  specialize (Ha ltac:(lia)). specialize (Ht Htime).
  assert ((1 <=? Binary64.target_width (a * t) img)%float = false) as Hw.
  { apply leb_one_null. unfold Binary64.target_width.
    rewrite FloatAxioms.mul_spec, FloatAxioms.sqrt_spec, FloatAxioms.mul_spec.
    apply SFmul_null, SFsqrt_null. by apply SFmul_sign. }
  unfold Binary64.resize_width_w_constant_aspect.
  rewrite Hw, andb_false_r. by intros [= <-].
Qed.

(** X5.  [normalize_posters] raises [ValueError] exactly on the empty
    list.  It raises [ZeroDivisionError] only when the largest weight is
    0 or a poster has area 0.  It returns exactly when no pass of the
    loop raises, and then the posters kept, in input order; when it
    raises on a list that is not empty, it raises what the first failing
    pass raises ([ZeroDivisionError], or [OverflowError] for a quotient
    of integers outside the range of binary64 or an infinite size). *)
Theorem normalize_posters_outcomes (time_posters : list (Z * image)) :
  (Binary64.normalize_posters time_posters = Raise ValueError ↔
     time_posters = [])
  ∧ (Binary64.normalize_posters time_posters = Raise ZeroDivisionError →
     py_max Z.max (fst <$> time_posters) = Ok 0%Z
     ∨ Exists (λ tp, area tp.2 = 0%nat) time_posters)
  ∧ (∀ out,
       Binary64.normalize_posters time_posters = Ok out ↔
       ∃ max_time max_area,
         py_max Z.max (fst <$> time_posters) = Ok max_time
         ∧ py_max Nat.max ((λ tp, area tp.2) <$> time_posters) = Ok max_area
         ∧ Forall (λ tp, ∃ o, Binary64.normalized max_time max_area tp = Ok o)
             time_posters
         ∧ out = omap (Binary64.kept max_time max_area) time_posters)
  ∧ (∀ e,
       Binary64.normalize_posters time_posters = Raise e →
       time_posters ≠ [] →
       ∃ max_time max_area before tp after,
         py_max Z.max (fst <$> time_posters) = Ok max_time
         ∧ py_max Nat.max ((λ tp, area tp.2) <$> time_posters) = Ok max_area
         ∧ time_posters = before ++ tp :: after
         ∧ Forall (λ tp, ∃ o, Binary64.normalized max_time max_area tp = Ok o)
             before
         ∧ Binary64.normalized max_time max_area tp = Raise e
         ∧ (e = ZeroDivisionError ∨ e = OverflowError)).
Proof.
  destruct time_posters as [|tp0 rest].
  { split_and!; try done. intros out. split; [done|].
    by intros (mt & ma & Hmt & _). }
  unfold Binary64.normalize_posters. cbn [fmap list_fmap py_max].
  cbn [mbind result_bind].
  set (max_time := foldl Z.max tp0.1 (fst <$> rest)).
  set (max_area := foldl Nat.max (area tp0.2) ((λ tp, area tp.2) <$> rest)).
  assert (∀ e, Binary64.normalize_loop max_time max_area (tp0 :: rest) []
               = Raise e →
               ∃ before tp after,
                 tp0 :: rest = before ++ tp :: after
                 ∧ Forall (λ tp, ∃ o, Binary64.normalized max_time max_area tp
                                      = Ok o) before
                 ∧ Binary64.normalized max_time max_area tp = Raise e)
    as Hraise by (intros e; apply b64_normalize_loop_Raise).
  split_and!.
  - split; [|done]. intros (before & tp & after & _ & _ & Hr)%Hraise.
    by apply b64_normalized_not_ValueError in Hr.
  - intros (before & tp & after & Happ & _ & Hr)%Hraise.
    apply b64_normalized_ZeroDivisionError in Hr as [Hz|Hz]; [left|right].
    + by rewrite <-Hz.
    + apply Exists_exists. exists tp. split; [|done].
      rewrite Happ. apply elem_of_app. right. left.
  - intros out. rewrite b64_normalize_loop_Ok. cbn [app]. split.
    + intros [Hall ->]. by exists max_time, max_area.
    + intros (mt & ma & [= <-] & [= <-] & Hall & ->). done.
  - intros e (before & tp & after & Happ & Hb & Hr)%Hraise _.
    exists max_time, max_area, before, tp, after. split_and!; try done.
    destruct e; [|by left|by right].
    by apply b64_normalized_not_ValueError in Hr.
Qed.

(** X6.  A poster whose weight is zero or negative never reaches the
    result: when some weight is positive and [normalize_posters]
    returns, it returns what the loop keeps of the posters of positive
    weight, and the pass over any other poster gives [None]. *)
Theorem nonpositive_weights_dropped (time_posters : list (Z * image))
    (out : list image) :
  Exists (λ tp, (0 < tp.1)%Z) time_posters →
  Binary64.normalize_posters time_posters = Ok out →
  ∃ max_time max_area,
    py_max Z.max (fst <$> time_posters) = Ok max_time
    ∧ py_max Nat.max ((λ tp, area tp.2) <$> time_posters) = Ok max_area
    ∧ out = omap (Binary64.kept max_time max_area)
              (filter (λ tp, (0 < tp.1)%Z) time_posters)
    ∧ ∀ tp, tp ∈ time_posters → (tp.1 ≤ 0)%Z →
        Binary64.normalized max_time max_area tp = Ok None.
Proof.
  intros Hsome Hnorm. unfold Binary64.normalize_posters in Hnorm.
  destruct (py_max Z.max _) as [max_time|] eqn:Hmt; [|done].
  destruct (py_max Nat.max _) as [max_area|] eqn:Hma; [|done].
  cbn [mbind result_bind] in Hnorm.
  apply b64_normalize_loop_Ok in Hnorm as [Hall ->]. cbn [app].
  pose proof (max_time_pos _ _ Hmt Hsome) as Hpos.
  assert (∀ tp, tp ∈ time_posters → (tp.1 ≤ 0)%Z →
            Binary64.normalized max_time max_area tp = Ok None) as Hdrop.
  { intros [time img] Htp Hle. rewrite Forall_forall in Hall.
    destruct (Hall _ Htp) as [o Ho]. rewrite Ho. f_equal.
    by eapply b64_nonpositive_dropped. }
  exists max_time, max_area. split_and!; try done.
  apply omap_filter_None. intros tp Htp Hneg.
  unfold Binary64.kept. rewrite Hdrop; [done|done|lia].
Qed.
End binary64_extras.

Section binary64_extras_runs.
Import PrimFloat.

(** X5 on two negative weights whose quotient leaves the range of
    binary64: the second pass raises [OverflowError]. *)
Lemma normalize_posters_outcomes_witness :
  @Binary64.normalize_posters demo_externals
    [((-1)%Z, flat 2 2 red); ((- 10 ^ 400)%Z, flat 2 2 blue)]
  = Raise OverflowError
  ∧ ∃ max_time max_area before tp after,
      py_max Z.max (fst <$> [((-1)%Z, flat 2 2 red);
                             ((- 10 ^ 400)%Z, flat 2 2 blue)])
      = Ok max_time
      ∧ py_max Nat.max ((λ tp : Z * image, area tp.2)
                          <$> [((-1)%Z, flat 2 2 red);
                               ((- 10 ^ 400)%Z, flat 2 2 blue)])
        = Ok max_area
      ∧ [((-1)%Z, flat 2 2 red); ((- 10 ^ 400)%Z, flat 2 2 blue)]
        = before ++ tp :: after
      ∧ Forall (λ tp, ∃ o, @Binary64.normalized demo_externals max_time
                             max_area tp = Ok o) before
      ∧ @Binary64.normalized demo_externals max_time max_area tp
        = Raise OverflowError
      ∧ (OverflowError = ZeroDivisionError ∨ OverflowError = OverflowError).
Proof.
  assert (@Binary64.normalize_posters demo_externals
            [((-1)%Z, flat 2 2 red); ((- 10 ^ 400)%Z, flat 2 2 blue)]
          = Raise OverflowError) as Hrun by (vm_compute; reflexivity).
  split; [exact Hrun|].
  destruct (@normalize_posters_outcomes demo_externals
              [((-1)%Z, flat 2 2 red); ((- 10 ^ 400)%Z, flat 2 2 blue)])
    as (_ & _ & _ & Hraise).
  apply (Hraise OverflowError Hrun). discriminate.
Defined.

(** X6 on a 4 x 4 poster of weight 10 and a 2 x 2 poster of weight 0. *)
Lemma nonpositive_weights_dropped_witness :
  Exists (λ tp : Z * image, (0 < tp.1)%Z)
    [(10%Z, flat 4 4 red); (0%Z, flat 2 2 blue)]
  ∧ @Binary64.normalize_posters demo_externals
      [(10%Z, flat 4 4 red); (0%Z, flat 2 2 blue)]
    = Ok [@resize demo_externals (flat 4 4 red) (4, 4)%nat]
  ∧ ∃ max_time max_area,
      py_max Z.max (fst <$> [(10%Z, flat 4 4 red); (0%Z, flat 2 2 blue)])
      = Ok max_time
      ∧ py_max Nat.max ((λ tp : Z * image, area tp.2)
                          <$> [(10%Z, flat 4 4 red); (0%Z, flat 2 2 blue)])
        = Ok max_area
      ∧ [@resize demo_externals (flat 4 4 red) (4, 4)%nat]
        = omap (@Binary64.kept demo_externals max_time max_area)
            (filter (λ tp : Z * image, (0 < tp.1)%Z)
               [(10%Z, flat 4 4 red); (0%Z, flat 2 2 blue)])
      ∧ ∀ tp, tp ∈ [(10%Z, flat 4 4 red); (0%Z, flat 2 2 blue)] →
          (tp.1 ≤ 0)%Z →
          @Binary64.normalized demo_externals max_time max_area tp = Ok None.
Proof.
  assert (Exists (λ tp : Z * image, (0 < tp.1)%Z)
            [(10%Z, flat 4 4 red); (0%Z, flat 2 2 blue)]) as Hsome
    by (apply Exists_cons_hd; cbn; lia).
  assert (@Binary64.normalize_posters demo_externals
            [(10%Z, flat 4 4 red); (0%Z, flat 2 2 blue)]
          = Ok [@resize demo_externals (flat 4 4 red) (4, 4)%nat]) as Hrun
    by (vm_compute; reflexivity).
  split; [exact Hsome|]. split; [exact Hrun|].
  exact (@nonpositive_weights_dropped demo_externals _ _ Hsome Hrun).
Defined.
End binary64_extras_runs.

(** ** More on [arrange_images] *)

Lemma NoDup_key_filter {A : Type} (key : A → nat) (k : nat) (l : list A) :
  NoDup (key <$> l) → length (filter (λ a, key a = k) l) ≤ 1.
Proof.
  induction l as [|x l IH]; [simpl; lia|].
  rewrite fmap_cons, NoDup_cons. intros [Hx Hl].
  rewrite filter_cons. case_decide as Hk; [|by apply IH].
  destruct (filter (λ a, key a = k) l) as [|y ys] eqn:Hf; [simpl; lia|].
  exfalso. apply Hx.
  assert (y ∈ filter (λ a, key a = k) l) as Hy by (rewrite Hf; left).
  apply list_elem_of_filter in Hy as [Hyk Hy].
  rewrite Hk, <-Hyk. by apply list_elem_of_fmap_2.
Qed.

Lemma short_Permutation_eq {A : Type} (l1 l2 : list A) :
  l1 ≡ₚ l2 → length l1 ≤ 1 → l1 = l2.
Proof.
  destruct l1 as [|x [|y l1]]; simpl; intros Hp Hlen; [| |lia].
  - by apply Permutation_nil_l.
  - by apply Permutation_singleton_l.
Qed.

(** Posters of pairwise distinct areas are sorted the same way from any
    input order. *)
Lemma pack_order_distinct_areas (posters posters' : list image) :
  posters ≡ₚ posters' → NoDup (area <$> posters) →
  pack_order posters = pack_order posters'.
Proof.
  intros Hperm Hnd. unfold pack_order.
  apply (stable_sorted_unique area); [apply sorted_reverse_sorted..|].
  intros k. rewrite !sorted_reverse_stable.
  apply short_Permutation_eq; [by rewrite Hperm|].
  by apply NoDup_key_filter.
Qed.

Section arrange_images_more.
Context `{Externals}.

Lemma lookup_placements (normalized_posters : list image)
    (i : nat) (xy : nat * nat) (img : image) :
  rpack_pack (size <$> pack_order normalized_posters) !! i = Some xy →
  pack_order normalized_posters !! i = Some img →
  placements normalized_posters !! i = Some (xy, img).
Proof.
  intros Hxy Himg. unfold placements. cbn zeta.
  rewrite lookup_zip_with, Hxy. simpl. rewrite Himg. done.
Qed.

Lemma placements_nil_iff (normalized_posters : list image) :
  placements normalized_posters = [] ↔
  normalized_posters = []
  ∨ rpack_pack (size <$> pack_order normalized_posters) = [].
Proof.
  unfold placements. cbn zeta.
  pose proof (sorted_reverse_perm area normalized_posters) as Hperm.
  fold (pack_order normalized_posters) in Hperm.
  destruct (rpack_pack _) as [|xy positions];
    destruct (pack_order normalized_posters) as [|img sorted] eqn:Hs; simpl.
  - naive_solver.
  - naive_solver.
  - apply Permutation_nil_l in Hperm. naive_solver.
  - split; [done|]. intros [->|?]; [|done].
    by apply Permutation_nil_r in Hperm.
Qed.

(** X11.  The one-pixel margin is never covered: on every canvas the last
    row and the last column are deadspace and white after the placing
    loop, so the index list the diffusion loop overwrites is never
    empty. *)
Theorem margin_is_deadspace (normalized_posters : list image) :
  placements normalized_posters ≠ [] →
  ∃ max_width max_height canvas mask,
    compose normalized_posters = Ok (canvas, mask)
    ∧ has_shape (max_height + 1) (max_width + 1) canvas
    ∧ (∀ c, c < max_width + 1 →
         at2 mask max_height c = Some true
         ∧ at2 canvas max_height c = Some white)
    ∧ (∀ r, r < max_height + 1 →
         at2 mask r max_width = Some true
         ∧ at2 canvas r max_width = Some white)
    ∧ (max_height, max_width) ∈ np_where mask.
Proof.
  intros Hne.
  destruct (compose_spec _ Hne)
    as (mw & mh & canvas & mask & Hmw & Hmh & Hcomp & Hc & _ & Hpix & Hmask).
  assert (∀ r c, r = mh ∨ c = mw →
            ∀ p, p ∈ placements normalized_posters → ¬ covers p r c) as Hout.
  { intros r c Hrc p Hp [Hr Hcol].
    destruct Hmh as [_ Hmh], Hmw as [_ Hmw].
    specialize (Hmh (bottom_edge p) (list_elem_of_fmap_2 _ _ _ Hp)).
    specialize (Hmw (right_edge p) (list_elem_of_fmap_2 _ _ _ Hp)).
    unfold bottom_edge, right_edge in *. lia. }
  assert (∀ r c, r < mh + 1 → c < mw + 1 → r = mh ∨ c = mw →
            at2 mask r c = Some true ∧ at2 canvas r c = Some white) as Hcell.
  { intros r c Hr Hcol Hrc. specialize (Hout r c Hrc).
    rewrite Hmask, Hpix by done. split.
    - by rewrite (proj2 (existsb_coversb _ r c) Hout).
    - by rewrite painted_uncovered. }
  exists mw, mh, canvas, mask. split_and!; try done.
  - intros c Hcol. apply Hcell; [lia|done|by left].
  - intros r Hr. apply Hcell; [done|lia|by right].
  - apply elem_of_np_where. apply Hcell; [lia|lia|by left].
Qed.

(** X12.  When the packer returns one position per rectangle and no two
    placed rectangles overlap, the collage shows every pixel of every
    poster, unchanged, at the poster's position, for any number of
    diffusion passes. *)
Theorem every_poster_shown (normalized_posters : list image)
    (blur_factor blur_radius : Z) :
  normalized_posters ≠ [] →
  length (rpack_pack (size <$> pack_order normalized_posters))
  = length normalized_posters →
  (∀ i j p q, i < j →
     placements normalized_posters !! i = Some p →
     placements normalized_posters !! j = Some q →
     ∀ r c, covers p r c → ¬ covers q r c) →
  ∃ final,
    arrange_images normalized_posters blur_factor blur_radius = Ok final
    ∧ ∀ img, img ∈ normalized_posters →
        ∃ xy, (xy, img) ∈ placements normalized_posters
              ∧ ∀ r c, r < (size img).2 → c < (size img).1 →
                  at2 final (xy.2 + r) (xy.1 + c) = Some (data img r c).
Proof.
  intros Hne Hlen Hdisj.
  assert (placements normalized_posters ≠ []) as Hpl.
  { rewrite placements_nil_iff. intros [?|Hnil]; [done|].
    rewrite Hnil in Hlen. by destruct normalized_posters. }
  destruct (compose_spec _ Hpl)
    as (mw & mh & canvas & mask & Hmw & Hmh & Hcomp & Hc & _ & Hpix & Hmask).
  exists (collage (diffuse blur_factor blur_radius
                     {| collage := canvas; deadspace := np_where mask |})).
  split; [unfold arrange_images; by rewrite Hcomp|].
  intros img Himg.
  assert (img ∈ pack_order normalized_posters) as Hsorted
    by (unfold pack_order; by rewrite sorted_reverse_perm).
  apply list_elem_of_lookup in Hsorted as [i Hi].
  assert (length (pack_order normalized_posters) = length normalized_posters)
    as Hlen' by (unfold pack_order; by rewrite sorted_reverse_perm).
  destruct (lookup_lt_is_Some_2
              (rpack_pack (size <$> pack_order normalized_posters)) i)
    as [xy Hxy].
  { rewrite Hlen, <-Hlen'. by eapply lookup_lt_Some. }
  pose proof (lookup_placements _ i xy img Hxy Hi) as Hp.
  exists xy. split; [by eapply list_elem_of_lookup_2|].
  intros r c Hr Hcol.
  assert (covers (xy, img) (xy.2 + r) (xy.1 + c)) as Hcov
    by (unfold covers; simpl; lia).
  assert (xy.2 + r < mh + 1 ∧ xy.1 + c < mw + 1) as [Hr' Hc'].
  { destruct Hmh as [_ Hmh], Hmw as [_ Hmw].
    pose proof (list_elem_of_lookup_2 _ _ _ Hp) as Hin.
    specialize (Hmh (bottom_edge (xy, img)) (list_elem_of_fmap_2 _ _ _ Hin)).
    specialize (Hmw (right_edge (xy, img)) (list_elem_of_fmap_2 _ _ _ Hin)).
    unfold bottom_edge, right_edge in *. simpl in *. lia. }
  rewrite diffuse_frame.
  - cbn [collage]. rewrite Hpix by done. f_equal.
    rewrite <-(take_drop_middle _ _ _ Hp).
    rewrite painted_top; [simpl; f_equal; lia|done|].
    intros q [k Hk]%list_elem_of_lookup. rewrite lookup_drop in Hk.
    eapply (Hdisj i (S i + k)); [lia|done|done|done].
  - cbn [deadspace]. rewrite elem_of_np_where, Hmask by done.
    destruct (existsb _ _) eqn:Hex; [done|]. exfalso.
    eapply existsb_coversb; [exact Hex| |exact Hcov].
    by eapply list_elem_of_lookup_2.
Qed.

(** X13.  One more diffusion pass changes the deadspace cells only, and
    gives each of them the Gaussian blur of the previous canvas at that
    cell: the collage for [blur_factor + 1] is the collage for
    [blur_factor] with its deadspace overwritten by its own blur. *)
Theorem one_more_pass (normalized_posters : list image)
    (blur_factor blur_radius : Z) :
  (0 ≤ blur_factor)%Z → placements normalized_posters ≠ [] →
  ∃ canvas mask previous next,
    compose normalized_posters = Ok (canvas, mask)
    ∧ arrange_images normalized_posters blur_factor blur_radius = Ok previous
    ∧ arrange_images normalized_posters (blur_factor + 1) blur_radius
      = Ok next
    ∧ ∀ r c, is_Some (at2 canvas r c) →
        at2 next r c
        = if decide (at2 mask r c = Some true)
          then Some (gaussian_blur blur_radius (fromarray previous) r c)
          else at2 previous r c.
Proof.
  intros Hbf Hne.
  destruct (compose_spec _ Hne)
    as (mw & mh & canvas & mask & _ & _ & Hcomp & Hc & _).
  set (st := {| collage := canvas; deadspace := np_where mask |}).
  exists canvas, mask, (collage (diffuse blur_factor blur_radius st)),
    (collage (diffuse (blur_factor + 1) blur_radius st)).
  split; [done|].
  split; [unfold arrange_images; by rewrite Hcomp|].
  split; [unfold arrange_images; by rewrite Hcomp|].
  intros r c [Hr Hcol]%(at2_is_Some _ _ _ _ _ Hc).
  assert (diffuse (blur_factor + 1) blur_radius st
          = diffuse_step blur_radius (diffuse blur_factor blur_radius st))
    as ->.
  { unfold diffuse. by rewrite Z2Nat.inj_add, Nat.add_comm by lia. }
  pose proof (diffuse_deadspace blur_factor blur_radius st) as Hdead.
  pose proof (diffuse_shape blur_factor blur_radius st _ _ Hc) as Hshape.
  case_decide as Hm.
  - eapply diffuse_step_overwrites; [done..|].
    rewrite Hdead. by apply elem_of_np_where.
  - unfold diffuse_step. cbn [collage].
    rewrite at2_index_assign, decide_False; [done|].
    rewrite Hdead. unfold st. cbn [deadspace]. by rewrite elem_of_np_where.
Qed.

(** X15.  [arrange_images] raises [ValueError] exactly when there is no
    poster or the packer returns no position.  In every other case it
    returns a canvas, whatever positions the packer returns: no slice
    assignment of the placing loop runs out of bounds. *)
Theorem arrange_images_outcomes (normalized_posters : list image)
    (blur_factor blur_radius : Z) :
  ((normalized_posters = []
    ∨ rpack_pack (size <$> pack_order normalized_posters) = [])
   ∧ arrange_images normalized_posters blur_factor blur_radius
     = Raise ValueError)
  ∨ (normalized_posters ≠ []
     ∧ rpack_pack (size <$> pack_order normalized_posters) ≠ []
     ∧ ∃ final,
         arrange_images normalized_posters blur_factor blur_radius = Ok final
         ∧ final ≠ []).
Proof.
  destruct (decide (placements normalized_posters = [])) as [Hnil|Hne].
  - left. split; [by apply placements_nil_iff|].
    unfold arrange_images. by rewrite compose_empty.
  - right.
    assert (¬ (normalized_posters = []
               ∨ rpack_pack (size <$> pack_order normalized_posters) = []))
      as Hno by (by rewrite <-placements_nil_iff).
    split; [naive_solver|]. split; [naive_solver|].
    destruct (compose_spec _ Hne)
      as (mw & mh & canvas & mask & _ & _ & Hcomp & Hc & _).
    exists (collage (diffuse blur_factor blur_radius
                       {| collage := canvas; deadspace := np_where mask |})).
    split; [unfold arrange_images; by rewrite Hcomp|].
    pose proof (diffuse_shape blur_factor blur_radius
                  {| collage := canvas; deadspace := np_where mask |}
                  _ _ Hc) as [Hlen _].
    intros Hnil. rewrite Hnil in Hlen. simpl in Hlen. lia.
Qed.
End arrange_images_more.

(** X14.  The collage does not depend on the order in which the posters
    arrive when their areas are pairwise distinct: any permutation of the
    input gives the same canvas. *)
Theorem collage_independent_of_order `{Externals}
    (posters posters' : list image) (blur_factor blur_radius : Z) :
  posters ≡ₚ posters' → NoDup (area <$> posters) →
  arrange_images posters blur_factor blur_radius
  = arrange_images posters' blur_factor blur_radius.
Proof.
  intros Hperm Hnd. unfold arrange_images, compose. cbn zeta.
  by rewrite (pack_order_distinct_areas posters posters').
Qed.

(** ** [read_time_poster_data] and [draw] *)

Lemma read_time_poster_loop_spec (d : disk) (user_animes : list anime)
    (time_invested : list (Z * image)) (out : list string) :
  read_time_poster_loop d user_animes time_invested out
  = (time_invested ++ omap (time_poster d) user_animes,
     out ++ omap (skip_message d) user_animes).
Proof.
  revert time_invested out.
  induction user_animes as [|a rest IH]; intros time_invested out.
  - simpl. by rewrite !app_nil_r.
  - cbn [read_time_poster_loop omap list_omap].
    unfold time_poster at 1, skip_message at 1.
    destruct (decide (watched_episodes a = 0%Z)); [apply IH|].
    destruct (anime_files d !! mal_id a) as [md|]; simpl.
    + destruct (image_files d !! mal_id a) as [img|]; simpl.
      * rewrite IH. by rewrite <-app_assoc.
      * rewrite IH. by rewrite <-app_assoc.
    + rewrite IH. by rewrite <-app_assoc.
Qed.

Lemma read_time_poster_data_omap (d : disk) (user_animes : list anime) :
  read_time_poster_data d user_animes
  = (omap (time_poster d) user_animes, omap (skip_message d) user_animes).
Proof. unfold read_time_poster_data. by rewrite read_time_poster_loop_spec. Qed.

(** Every entry is skipped silently, skipped with a message, or read. *)
Lemma read_partition (d : disk) (user_animes : list anime) :
  length (omap (time_poster d) user_animes)
  + length (omap (skip_message d) user_animes)
  + length (filter (λ a, watched_episodes a = 0%Z) user_animes)
  = length user_animes.
Proof.
  induction user_animes as [|a rest IH]; [done|].
  rewrite filter_cons. cbn [omap list_omap].
  unfold time_poster at 1, skip_message at 1.
  destruct (decide (watched_episodes a = 0%Z)); simpl; [lia|].
  destruct (anime_files d !! mal_id a) as [md|]; simpl; [|lia].
  destruct (image_files d !! mal_id a) as [img|]; simpl; lia.
Qed.

(** X16.  [read_time_poster_data] returns, in list order, one weighted
    poster for each entry that has a non-zero episode count, a metadata
    file and an image file, weighted by the parsed duration times the
    episode count, and nothing else.  Every entry is either read, skipped
    with one printed line (a file is missing) or skipped silently (no
    episode watched); with episode counts that are not negative, no
    weight is negative. *)
Theorem read_time_poster_data_spec (d : disk) (user_animes : list anime) :
  ∃ time_invested out,
    read_time_poster_data d user_animes = (time_invested, out)
    ∧ time_invested = omap (time_poster d) user_animes
    ∧ (∀ time img, (time, img) ∈ time_invested ↔
         ∃ a md, a ∈ user_animes ∧ watched_episodes a ≠ 0%Z
                 ∧ anime_files d !! mal_id a = Some md
                 ∧ image_files d !! mal_id a = Some img
                 ∧ time = (parse_duration (duration md)
                           * watched_episodes a)%Z)
    ∧ length time_invested + length out
      + length (filter (λ a, watched_episodes a = 0%Z) user_animes)
      = length user_animes
    ∧ (Forall (λ a, (0 ≤ watched_episodes a)%Z) user_animes →
       Forall (λ tp, (0 ≤ tp.1)%Z) time_invested).
Proof.
  exists (omap (time_poster d) user_animes),
         (omap (skip_message d) user_animes).
  split; [apply read_time_poster_data_omap|]. split; [done|].
  assert (∀ time img, (time, img) ∈ omap (time_poster d) user_animes ↔
            ∃ a md, a ∈ user_animes ∧ watched_episodes a ≠ 0%Z
                    ∧ anime_files d !! mal_id a = Some md
                    ∧ image_files d !! mal_id a = Some img
                    ∧ time = (parse_duration (duration md)
                              * watched_episodes a)%Z) as Hmem.
  { intros time img. rewrite list_elem_of_omap. split.
    - intros (a & Ha & Htp). unfold time_poster in Htp.
      destruct (decide (watched_episodes a = 0%Z)); [done|].
      destruct (anime_files d !! mal_id a) as [md|] eqn:Hmd; [|done].
      destruct (image_files d !! mal_id a) as [img'|] eqn:Himg; [|done].
      simpl in Htp. injection Htp as <- <-. by exists a, md.
    - intros (a & md & Ha & Hw & Hmd & Himg & ->). exists a.
      split; [done|]. unfold time_poster.
      rewrite decide_False by done. by rewrite Hmd, Himg. }
  split; [exact Hmem|]. split; [apply read_partition|].
  intros Hall. apply Forall_forall. intros [time img] Htp.
  apply Hmem in Htp as (a & md & Ha & _ & _ & _ & ->).
  rewrite Forall_forall in Hall. specialize (Hall a Ha).
  assert (0 ≤ parse_duration (duration md))%Z; [|simpl; lia].
  rewrite parse_duration_units.
  pose proof (re_search_digits_value " hr" (duration md)) as Hhr.
  pose proof (re_search_digits_value " min" (duration md)) as Hmin.
  destruct (re_search_digits " hr" (duration md)),
           (re_search_digits " min" (duration md)); lia.
Qed.

Lemma foldl_Zmax_zero (xs : list Z) :
  Forall (λ x, x = 0%Z) xs → foldl Z.max 0%Z xs = 0%Z.
Proof. induction 1 as [|x xs -> _ IH]; simpl; done. Qed.

(** X17.  When the duration of every show on the list is ASCII text
    without any digit (such as "Unknown"), [draw] saves no collage: it
    raises [ValueError] if no entry can be read, and [ZeroDivisionError]
    otherwise, all weights and therefore the largest weight being 0. *)
Theorem unknown_durations_no_collage `{Externals} (d : disk)
    (user_animes : list anime) (username : string)
    (blur_factor blur_radius : Z) :
  (∀ a md, a ∈ user_animes → anime_files d !! mal_id a = Some md →
           is_ascii (duration md) = true
           ∧ no_digits (duration md) = true) →
  (draw_to_disk d user_animes username blur_factor blur_radius).1
  = Raise (match (read_time_poster_data d user_animes).1 with
           | [] => ValueError
           | _ :: _ => ZeroDivisionError
           end).
Proof.
  intros Hunknown. unfold draw_to_disk.
  rewrite read_time_poster_data_omap. cbn [fst].
  assert (Forall (λ tp : Z * image, tp.1 = 0%Z)
            (omap (time_poster d) user_animes)) as Hzero.
  { apply Forall_forall. intros [time img] (a & Ha & Htp)%list_elem_of_omap.
    unfold time_poster in Htp.
    destruct (decide (watched_episodes a = 0%Z)); [done|].
    destruct (anime_files d !! mal_id a) as [md|] eqn:Hmd; [|done].
    destruct (image_files d !! mal_id a) as [img'|]; [|done].
    simpl in Htp. injection Htp as <- <-.
    simpl. rewrite parse_duration_units.
    rewrite !re_search_digits_no_digits by (by eapply Hunknown). done. }
  destruct (omap (time_poster d) user_animes) as [|tp0 rest] eqn:Hread;
    [done|].
  apply Forall_cons in Hzero as [Ht0 Hrest].
  assert (normalize_posters (tp0 :: rest) = Raise ZeroDivisionError) as ->;
    [|done].
  unfold normalize_posters. cbn [fmap list_fmap py_max].
  cbn [mbind result_bind].
  apply normalize_loop_zero_division; [done|]. left.
  rewrite Ht0. apply foldl_Zmax_zero.
  apply Forall_fmap. by eapply Forall_impl.
Qed.

(** ** [url_utils] *)

Section fetchers.
Context `{Web}.

Lemma fetch_images_inv (user_animes : list anime) (force : bool)
    (rate_limit : R) (m : machine) (r : io unit) (m' : machine) :
  fetch_images user_animes force rate_limit m = (r, m') →
  user_files (files m') = user_files (files m)
  ∧ anime_files (files m') = anime_files (files m)
  ∧ output_files (files m') = output_files (files m)
  ∧ (∀ id, is_Some (image_files (files m) !! id) →
           is_Some (image_files (files m') !! id))
  ∧ (force = false → ∀ id img,
       image_files (files m) !! id = Some img →
       image_files (files m') !! id = Some img)
  ∧ match r with
    | Done _ =>
        ∀ a, a ∈ user_animes → is_Some (image_files (files m') !! mal_id a)
    | Failed _ =>
        ∃ fetched a rest,
          user_animes = fetched ++ a :: rest
          ∧ ∀ b, b ∈ fetched → is_Some (image_files (files m') !! mal_id b)
    end.
Proof.
  revert m. induction user_animes as [|a rest IH]; intros m Hrun.
  { injection Hrun as <- <-. split_and!; try done.
    intros a Ha. by apply elem_of_nil in Ha. }
  cbn [fetch_images] in Hrun.
  destruct (force || negb (bool_decide
              (is_Some (image_files (files m) !! mal_id a)))) eqn:Hpull.
  - unfold prog_bind, print, call, write_image_file, time_sleep in Hrun.
    cbn in Hrun.
    destruct (urlretrieve (image_url a) (net m)) as [[img|e] w] eqn:Hget.
    + destruct (decide (rate_limit < 0)%R); cbn in Hrun.
      * injection Hrun as <- <-. cbn. split_and!; try done.
        -- intros id Hid. rewrite lookup_insert. by case_decide.
        -- intros -> id img' Hid. rewrite lookup_insert_ne; [done|].
           intros <-. simpl in Hpull.
           rewrite bool_decide_eq_true_2 in Hpull by (by rewrite Hid). done.
        -- exists [], a, rest. split; [done|].
           intros b Hb. by apply elem_of_nil in Hb.
      * apply IH in Hrun as (Hu & Ha & Ho & Hdom & Hkeep & Hres).
        cbn in Hu, Ha, Ho, Hdom, Hkeep.
        assert (is_Some (image_files (files m') !! mal_id a)) as Hhere
          by (apply Hdom; by rewrite lookup_insert_eq).
        split_and!; try done.
        -- intros id Hid. apply Hdom. rewrite lookup_insert. by case_decide.
        -- intros -> id img' Hid. apply Hkeep; [done|].
           rewrite lookup_insert_ne; [done|].
           intros <-. simpl in Hpull.
           rewrite bool_decide_eq_true_2 in Hpull by (by rewrite Hid). done.
        -- destruct r as [[]|e].
           ++ intros b [->|Hb]%elem_of_cons; [done|by apply Hres].
           ++ destruct Hres as (fetched & a' & rest' & -> & Hf).
              exists (a :: fetched), a', rest'. split; [done|].
              intros b [->|Hb]%elem_of_cons; [done|by apply Hf].
    + injection Hrun as <- <-. cbn. split_and!; try done.
      exists [], a, rest. split; [done|].
      intros b Hb. by apply elem_of_nil in Hb.
  - apply orb_false_iff in Hpull as [-> Hcached].
    apply negb_false_iff, bool_decide_eq_true in Hcached.
    unfold prog_bind, print in Hrun. cbn in Hrun.
    apply IH in Hrun as (Hu & Ha & Ho & Hdom & Hkeep & Hres).
    cbn in Hu, Ha, Ho, Hdom, Hkeep.
    split_and!; try done.
    destruct r as [[]|e].
    + intros b [->|Hb]%elem_of_cons; [by apply Hdom|by apply Hres].
    + destruct Hres as (fetched & a' & rest' & -> & Hf).
      exists (a :: fetched), a', rest'. split; [done|].
      intros b [->|Hb]%elem_of_cons; [by apply Hdom|by apply Hf].
Qed.
Lemma fetch_anime_metadata_inv (user_animes : list anime) (force : bool)
    (rate_limit : R) (m : machine) (r : io unit) (m' : machine) :
  fetch_anime_metadata user_animes force rate_limit m = (r, m') →
  user_files (files m') = user_files (files m)
  ∧ image_files (files m') = image_files (files m)
  ∧ output_files (files m') = output_files (files m)
  ∧ (∀ id, is_Some (anime_files (files m) !! id) →
           is_Some (anime_files (files m') !! id))
  ∧ (force = false → ∀ id md,
       anime_files (files m) !! id = Some md →
       anime_files (files m') !! id = Some md)
  ∧ match r with
    | Done _ =>
        ∀ a, a ∈ user_animes → is_Some (anime_files (files m') !! mal_id a)
    | Failed _ =>
        ∃ fetched a rest,
          user_animes = fetched ++ a :: rest
          ∧ ∀ b, b ∈ fetched → is_Some (anime_files (files m') !! mal_id b)
    end.
Proof.
  revert m. induction user_animes as [|a rest IH]; intros m Hrun.
  { injection Hrun as <- <-. split_and!; try done.
    intros a Ha. by apply elem_of_nil in Ha. }
  cbn [fetch_anime_metadata] in Hrun.
  destruct (force || negb (bool_decide
              (is_Some (anime_files (files m) !! mal_id a)))) eqn:Hpull.
  - unfold prog_bind, print, call, write_anime_file, time_sleep in Hrun.
    cbn in Hrun.
    destruct (jikan_anime (mal_id a) (net m)) as [[md|e] w] eqn:Hget.
    + destruct (decide (rate_limit < 0)%R); cbn in Hrun.
      * injection Hrun as <- <-. cbn. split_and!; try done.
        -- intros id Hid. rewrite lookup_insert. by case_decide.
        -- intros -> id md' Hid. rewrite lookup_insert_ne; [done|].
           intros <-. simpl in Hpull.
           rewrite bool_decide_eq_true_2 in Hpull by (by rewrite Hid). done.
        -- exists [], a, rest. split; [done|].
           intros b Hb. by apply elem_of_nil in Hb.
      * apply IH in Hrun as (Hu & Ha & Ho & Hdom & Hkeep & Hres).
        cbn in Hu, Ha, Ho, Hdom, Hkeep.
        assert (is_Some (anime_files (files m') !! mal_id a)) as Hhere
          by (apply Hdom; by rewrite lookup_insert_eq).
        split_and!; try done.
        -- intros id Hid. apply Hdom. rewrite lookup_insert. by case_decide.
        -- intros -> id md' Hid. apply Hkeep; [done|].
           rewrite lookup_insert_ne; [done|].
           intros <-. simpl in Hpull.
           rewrite bool_decide_eq_true_2 in Hpull by (by rewrite Hid). done.
        -- destruct r as [[]|e].
           ++ intros b [->|Hb]%elem_of_cons; [done|by apply Hres].
           ++ destruct Hres as (fetched & a' & rest' & -> & Hf).
              exists (a :: fetched), a', rest'. split; [done|].
              intros b [->|Hb]%elem_of_cons; [done|by apply Hf].
    + injection Hrun as <- <-. cbn. split_and!; try done.
      exists [], a, rest. split; [done|].
      intros b Hb. by apply elem_of_nil in Hb.
  - apply orb_false_iff in Hpull as [-> Hcached].
    apply negb_false_iff, bool_decide_eq_true in Hcached.
    unfold prog_bind, print in Hrun. cbn in Hrun.
    apply IH in Hrun as (Hu & Ha & Ho & Hdom & Hkeep & Hres).
    cbn in Hu, Ha, Ho, Hdom, Hkeep.
    split_and!; try done.
    destruct r as [[]|e].
    + intros b [->|Hb]%elem_of_cons; [by apply Hdom|by apply Hres].
    + destruct Hres as (fetched & a' & rest' & -> & Hf).
      exists (a :: fetched), a', rest'. split; [done|].
      intros b [->|Hb]%elem_of_cons; [by apply Hdom|by apply Hf].
Qed.

(** When [fetch_anime_metadata] raises, it raises on the show it has
    just printed the "Saving metadata" line for: every show before that
    one has cost one printed line and is cached. *)
Lemma fetch_anime_metadata_failed (user_animes : list anime) (force : bool)
    (rate_limit : R) (m : machine) (e : io_exn) (m' : machine) :
  fetch_anime_metadata user_animes force rate_limit m = (Failed e, m') →
  ∃ fetched a rest,
    user_animes = fetched ++ a :: rest
    ∧ length (stdout m') = length (stdout m) + length fetched + 1
    ∧ ∀ b, b ∈ fetched → is_Some (anime_files (files m') !! mal_id b).
Proof.
  revert m. induction user_animes as [|a rest IH]; intros m Hrun; [done|].
  cbn [fetch_anime_metadata] in Hrun.
  destruct (force || negb (bool_decide
              (is_Some (anime_files (files m) !! mal_id a)))) eqn:Hpull.
  - unfold prog_bind, print, call, write_anime_file, time_sleep in Hrun.
    cbn in Hrun.
    destruct (jikan_anime (mal_id a) (net m)) as [[md|e'] w] eqn:Hget.
    + destruct (decide (rate_limit < 0)%R); cbn in Hrun.
      * injection Hrun as <- <-. cbn. exists [], a, rest.
        split_and!; [done|rewrite length_app; cbn; lia|].
        intros b Hb. by apply elem_of_nil in Hb.
      * pose proof (fetch_anime_metadata_inv _ _ _ _ _ _ Hrun)
          as (_ & _ & _ & Hdom & _ & _).
        apply IH in Hrun as (fetched & a' & rest' & -> & Hlen & Hf).
        cbn in Hlen, Hdom. rewrite length_app in Hlen. cbn in Hlen.
        exists (a :: fetched), a', rest'. split_and!; [done|cbn; lia|].
        intros b [->|Hb]%elem_of_cons; [|by apply Hf].
        apply Hdom. by rewrite lookup_insert_eq.
    + injection Hrun as <- <-. cbn. exists [], a, rest.
      split_and!; [done|rewrite length_app; cbn; lia|].
      intros b Hb. by apply elem_of_nil in Hb.
  - apply orb_false_iff in Hpull as [-> Hcached].
    apply negb_false_iff, bool_decide_eq_true in Hcached.
    unfold prog_bind, print in Hrun. cbn in Hrun.
    pose proof (fetch_anime_metadata_inv _ _ _ _ _ _ Hrun)
      as (_ & _ & _ & Hdom & _ & _).
    apply IH in Hrun as (fetched & a' & rest' & -> & Hlen & Hf).
    cbn in Hlen, Hdom. rewrite length_app in Hlen. cbn in Hlen.
    exists (a :: fetched), a', rest'. split_and!; [done|cbn; lia|].
    intros b [->|Hb]%elem_of_cons; [by apply Hdom|by apply Hf].
Qed.

Lemma add_stdout_nil (m : machine) : add_stdout [] m = m.
Proof. destruct m. unfold add_stdout. cbn. by rewrite app_nil_r. Qed.

Lemma add_stdout_app (out1 out2 : list string) (m : machine) :
  add_stdout out2 (add_stdout out1 m) = add_stdout (out1 ++ out2) m.
Proof. unfold add_stdout. cbn. by rewrite app_assoc. Qed.

(** The shows at the head of the list whose image is cached cost one
    printed line each. *)
Lemma fetch_images_skip (cached rest : list anime) (rate_limit : R)
    (m : machine) :
  (∀ a, a ∈ cached → is_Some (image_files (files m) !! mal_id a)) →
  fetch_images (cached ++ rest) false rate_limit m
  = fetch_images rest false rate_limit
      (add_stdout (image_cached_line <$> cached) m).
Proof.
  revert m. induction cached as [|a cached IH]; intros m Hcached.
  { cbn [app fmap list_fmap]. by rewrite add_stdout_nil. }
  cbn [app fetch_images].
  rewrite bool_decide_eq_true_2 by (apply Hcached; left).
  cbn [orb negb]. unfold prog_bind, print.
  rewrite IH by (intros b Hb; cbn; apply Hcached; by right).
  f_equal. unfold add_stdout, image_cached_line. cbn.
  by rewrite <-app_assoc.
Qed.

Lemma fetch_anime_metadata_skip (cached rest : list anime) (rate_limit : R)
    (m : machine) :
  (∀ a, a ∈ cached → is_Some (anime_files (files m) !! mal_id a)) →
  fetch_anime_metadata (cached ++ rest) false rate_limit m
  = fetch_anime_metadata rest false rate_limit
      (add_stdout (metadata_cached_line <$> cached) m).
Proof.
  revert m. induction cached as [|a cached IH]; intros m Hcached.
  { cbn [app fmap list_fmap]. by rewrite add_stdout_nil. }
  cbn [app fetch_anime_metadata].
  rewrite bool_decide_eq_true_2 by (apply Hcached; left).
  cbn [orb negb]. unfold prog_bind, print.
  rewrite IH by (intros b Hb; cbn; apply Hcached; by right).
  f_equal. unfold add_stdout, metadata_cached_line. cbn.
  by rewrite <-app_assoc.
Qed.

Lemma fetch_images_cached (user_animes : list anime) (rate_limit : R)
    (m : machine) :
  (∀ a, a ∈ user_animes → is_Some (image_files (files m) !! mal_id a)) →
  fetch_images user_animes false rate_limit m
  = (Done tt, add_stdout (image_cached_line <$> user_animes) m).
Proof.
  intros Hcached.
  rewrite <-(app_nil_r user_animes) at 1. by rewrite fetch_images_skip.
Qed.

Lemma fetch_anime_metadata_cached (user_animes : list anime) (rate_limit : R)
    (m : machine) :
  (∀ a, a ∈ user_animes → is_Some (anime_files (files m) !! mal_id a)) →
  fetch_anime_metadata user_animes false rate_limit m
  = (Done tt, add_stdout (metadata_cached_line <$> user_animes) m).
Proof.
  intros Hcached.
  rewrite <-(app_nil_r user_animes) at 1. by rewrite fetch_anime_metadata_skip.
Qed.

Lemma fetch_user_animes_inv (username : string) (force : bool) (m : machine)
    (r : io (list anime)) (m' : machine) :
  fetch_user_animes username force m = (r, m') →
  image_files (files m') = image_files (files m)
  ∧ anime_files (files m') = anime_files (files m)
  ∧ output_files (files m') = output_files (files m)
  ∧ (∀ other, other ≠ username →
       user_files (files m') !! other = user_files (files m) !! other)
  ∧ (force = false → ∀ user_animes,
       user_files (files m) !! username = Some user_animes →
       r = Done user_animes ∧ files m' = files m ∧ net m' = net m)
  ∧ match r with
    | Done user_animes => user_files (files m') !! username = Some user_animes
    | Failed e =>
        files m' = files m
        ∧ (force = true ∨ user_files (files m) !! username = None)
        ∧ jikan_user username (net m) = (Failed e, net m')
    end.
Proof.
  unfold fetch_user_animes. intros Hrun.
  destruct (force || negb (bool_decide
              (is_Some (user_files (files m) !! username)))) eqn:Hpull.
  - unfold prog_bind, print, call, write_user_file, prog_ret in Hrun.
    cbn in Hrun.
    assert (force = false → ∀ user_animes,
              user_files (files m) !! username = Some user_animes → False)
      as Hfresh.
    { intros -> user_animes Hc. simpl in Hpull.
      rewrite bool_decide_eq_true_2 in Hpull by (by rewrite Hc). done. }
    destruct (jikan_user username (net m)) as [[user_animes|e] w] eqn:Hget;
      cbn in Hrun; injection Hrun as <- <-; cbn.
    + split_and!; try done.
      * intros other Hother. by rewrite lookup_insert_ne.
      * intros Hf l Hl. by destruct (Hfresh Hf l Hl).
      * by rewrite lookup_insert_eq.
    + split_and!; try done.
      * intros Hf l Hl. by destruct (Hfresh Hf l Hl).
      * destruct force; [by left|right]. simpl in Hpull.
        apply negb_true_iff, bool_decide_eq_false in Hpull.
        by apply eq_None_not_Some.
  - apply orb_false_iff in Hpull as [-> Hcached].
    apply negb_false_iff, bool_decide_eq_true in Hcached.
    destruct Hcached as [user_animes Hcached].
    unfold prog_bind, print, read_user_file, prog_ret in Hrun.
    cbn in Hrun. rewrite Hcached in Hrun. injection Hrun as <- <-. cbn.
    split_and!; try done.
    intros _ l Hl. split; [congruence|done].
Qed.

End fetchers.

Section fetchers_contracts.
Context `{Web}.

(** X18.  However [fetch_images] ends, it changes no file outside the
    image directory and removes no image; without [force] it leaves every
    image that was cached as it was.  When it returns, the image of every
    show on the list is cached; when it raises, the list splits at some
    show so that the image of every show before it is cached. *)
Theorem fetch_images_contract (user_animes : list anime) (force : bool)
    (rate_limit : R) (m : machine) (r : io unit) (m' : machine) :
  fetch_images user_animes force rate_limit m = (r, m') →
  user_files (files m') = user_files (files m)
  ∧ anime_files (files m') = anime_files (files m)
  ∧ output_files (files m') = output_files (files m)
  ∧ (∀ id, is_Some (image_files (files m) !! id) →
           is_Some (image_files (files m') !! id))
  ∧ (force = false → ∀ id img,
       image_files (files m) !! id = Some img →
       image_files (files m') !! id = Some img)
  ∧ match r with
    | Done _ =>
        ∀ a, a ∈ user_animes → is_Some (image_files (files m') !! mal_id a)
    | Failed _ =>
        ∃ fetched a rest,
          user_animes = fetched ++ a :: rest
          ∧ ∀ b, b ∈ fetched → is_Some (image_files (files m') !! mal_id b)
    end.
Proof. apply fetch_images_inv. Qed.

(** X19.  After [fetch_images] has returned, running it again without
    [force] returns too, whatever the rate limit and the state of the
    network: it prints one "Skipping already cached image" line per show
    and changes neither the network nor the disk. *)
Theorem fetch_images_rerun_offline (user_animes : list anime) (force : bool)
    (rate_limit rate_limit' : R) (m m' : machine) :
  fetch_images user_animes force rate_limit m = (Done tt, m') →
  fetch_images user_animes false rate_limit' m'
  = (Done tt, add_stdout (image_cached_line <$> user_animes) m').
Proof.
  intros Hrun. apply fetch_images_cached.
  by apply fetch_images_inv in Hrun as (_ & _ & _ & _ & _ & Hall).
Qed.

(** X20.  However [fetch_anime_metadata] ends, it changes no file outside
    the metadata directory and removes no metadata file; without [force]
    it leaves every cached metadata file as it was.  When it returns, the
    metadata of every show on the list is cached; when it raises, the
    list splits at some show so that the metadata of every show before it
    is cached. *)
Theorem fetch_anime_metadata_contract (user_animes : list anime)
    (force : bool) (rate_limit : R) (m : machine) (r : io unit)
    (m' : machine) :
  fetch_anime_metadata user_animes force rate_limit m = (r, m') →
  user_files (files m') = user_files (files m)
  ∧ image_files (files m') = image_files (files m)
  ∧ output_files (files m') = output_files (files m)
  ∧ (∀ id, is_Some (anime_files (files m) !! id) →
           is_Some (anime_files (files m') !! id))
  ∧ (force = false → ∀ id md,
       anime_files (files m) !! id = Some md →
       anime_files (files m') !! id = Some md)
  ∧ match r with
    | Done _ =>
        ∀ a, a ∈ user_animes → is_Some (anime_files (files m') !! mal_id a)
    | Failed _ =>
        ∃ fetched a rest,
          user_animes = fetched ++ a :: rest
          ∧ ∀ b, b ∈ fetched → is_Some (anime_files (files m') !! mal_id b)
    end.
Proof. apply fetch_anime_metadata_inv. Qed.

(** X21.  When [fetch_anime_metadata] has raised, a second run without
    [force] resumes where the first one stopped.  The first run raised
    on the show whose "Saving metadata" line it printed last; each show
    before that one has cost one printed line and its metadata is
    cached.  The second run prints one "Skipping already cached
    metadata" line for each of those shows and then behaves as a run on
    the others alone. *)
Theorem fetch_anime_metadata_resumes (user_animes : list anime)
    (force : bool) (rate_limit rate_limit' : R) (m : machine) (e : io_exn)
    (m' : machine) :
  fetch_anime_metadata user_animes force rate_limit m = (Failed e, m') →
  ∃ fetched a rest,
    user_animes = fetched ++ a :: rest
    ∧ length (stdout m') = length (stdout m) + length fetched + 1
    ∧ (∀ b, b ∈ fetched → is_Some (anime_files (files m') !! mal_id b))
    ∧ fetch_anime_metadata user_animes false rate_limit' m'
      = fetch_anime_metadata (a :: rest) false rate_limit'
          (add_stdout (metadata_cached_line <$> fetched) m').
Proof.
  intros Hrun.
  apply fetch_anime_metadata_failed in Hrun
    as (fetched & a & rest & -> & Hlen & Hfetched).
  exists fetched, a, rest. split_and!; try done.
  by apply fetch_anime_metadata_skip.
Qed.

(** X22.  When [fetch_user_animes] returns a list, the user's cache file
    holds that list, and a further call without [force] returns the same
    list from the cache: it prints where the cache is and changes neither
    the network nor the disk. *)
Theorem fetch_user_animes_round_trip (username : string) (force : bool)
    (m : machine) (user_animes : list anime) (m' : machine) :
  fetch_user_animes username force m = (Done user_animes, m') →
  user_files (files m') !! username = Some user_animes
  ∧ fetch_user_animes username false m'
    = (Done user_animes,
       add_stdout ["Using cached data located at:" +:+ newline +:+ tab
                   +:+ user_fpath username] m').
Proof.
  intros Hrun.
  apply fetch_user_animes_inv in Hrun as (_ & _ & _ & _ & _ & Hfile).
  split; [done|]. unfold fetch_user_animes.
  rewrite bool_decide_eq_true_2 by (by rewrite Hfile).
  cbn [orb negb]. unfold prog_bind, print, read_user_file, prog_ret. cbn.
  by rewrite Hfile.
Qed.

(** X23.  [fetch_user_animes] raises only what the Jikan request for the
    user's list raises, and only when the request is made (with [force]
    or without a cache file); the disk is then left as it was, and the
    "Pulling userdata" line is the only one printed. *)
Theorem fetch_user_animes_failure (username : string) (force : bool)
    (m : machine) (e : io_exn) (m' : machine) :
  fetch_user_animes username force m = (Failed e, m') →
  (force = true ∨ user_files (files m) !! username = None)
  ∧ jikan_user username (net m) = (Failed e, net m')
  ∧ files m' = files m
  ∧ stdout m' = stdout m ++ ["Pulling userdata for " +:+ username].
Proof.
  intros Hrun.
  pose proof (fetch_user_animes_inv _ _ _ _ _ Hrun)
    as (_ & _ & _ & _ & _ & Hfiles & Hwhen & Hget).
  split_and!; try done.
  unfold fetch_user_animes in Hrun.
  destruct (force || negb (bool_decide
              (is_Some (user_files (files m) !! username)))) eqn:Hpull.
  - unfold prog_bind, print, call, write_user_file, prog_ret in Hrun.
    cbn in Hrun.
    destruct (jikan_user username (net m)) as [[user_animes|e'] w];
      cbn in Hrun; [done|]. by injection Hrun as <- <-.
  - apply orb_false_iff in Hpull as [-> Hcached].
    apply negb_false_iff, bool_decide_eq_true in Hcached.
    destruct Hwhen as [|Hnone]; [done|].
    rewrite Hnone in Hcached. by destruct Hcached.
Qed.

End fetchers_contracts.

(** ** [main] *)

Lemma draw_to_disk_files `{Externals} (d : disk) (user_animes : list anime)
    (username : string) (blur_factor blur_radius : Z) (d' : disk)
    (out : list string) :
  draw_to_disk d user_animes username blur_factor blur_radius = (Ok d', out) →
  user_files d' = user_files d
  ∧ image_files d' = image_files d
  ∧ anime_files d' = anime_files d
  ∧ ∃ img, output_files d' = <[username := img]> (output_files d).
Proof.
  unfold draw_to_disk.
  destruct (read_time_poster_data d user_animes) as [time_posters out0].
  destruct (normalize_posters time_posters) as [posters|e]; [|done].
  destruct (arrange_images posters blur_factor blur_radius) as [img|e];
    [|done].
  intros [= <- <-]. cbn. split_and!; try done. by exists img.
Qed.

Section main_properties.
Context `{Web} `{Externals}.

(** X24.  With the user's list, and the image and the metadata of every
    show on it, in the cache, [main] without [force] leaves the network
    alone whatever the rate limit: it prints where the cached list is and
    one "Skipping" line per show and per kind of file, and then is [draw]
    on the files of the disk: it returns with the collage saved, or ends
    with the exception [draw] raises. *)
Theorem main_offline_from_cache (username : string) (rate_limit : R)
    (blur_factor blur_radius : Z) (m : machine) (user_animes : list anime) :
  user_files (files m) !! username = Some user_animes →
  (∀ a, a ∈ user_animes →
        is_Some (image_files (files m) !! mal_id a)
        ∧ is_Some (anime_files (files m) !! mal_id a)) →
  let lines :=
    ["Using cached data located at:" +:+ newline +:+ tab
     +:+ user_fpath username]
    ++ (image_cached_line <$> user_animes)
    ++ (metadata_cached_line <$> user_animes) in
  main username false rate_limit blur_factor blur_radius m
  = match draw_to_disk (files m) user_animes username
            blur_factor blur_radius with
    | (Raise e, out) => (Crashed e, add_stdout (lines ++ out) m)
    | (Ok d, out) =>
        (Returned,
         {| net := net m; files := d; stdout := stdout m ++ lines ++ out |})
    end.
Proof.
  intros Hlist Hcached lines. unfold main.
  assert (fetch_user_animes username false m
          = (Done user_animes,
             add_stdout ["Using cached data located at:" +:+ newline +:+ tab
                         +:+ user_fpath username] m)) as ->.
  { unfold fetch_user_animes.
    rewrite bool_decide_eq_true_2 by (by rewrite Hlist).
    cbn [orb negb]. unfold prog_bind, print, read_user_file, prog_ret. cbn.
    by rewrite Hlist. }
  unfold prog_bind.
  rewrite fetch_images_cached by (intros a Ha; cbn; by apply Hcached).
  rewrite fetch_anime_metadata_cached by (intros a Ha; cbn; by apply Hcached).
  rewrite !add_stdout_app. cbn [files add_stdout].
  destruct (draw_to_disk (files m) user_animes username blur_factor
              blur_radius) as [[d|e] out].
  - unfold lines, add_stdout. cbn [net stdout].
    by rewrite <-(app_assoc (stdout m)).
  - by rewrite add_stdout_app.
Qed.

(** X25.  [main] calls [exit] only with status 0, and only in two cases:
    the request for the user's list failed with a 400 message, and the
    disk is as it was; or the download of the images and metadata was
    interrupted, and then the user's list is cached and the list splits
    at some show so that either the image of every show before it is
    cached, or every image and the metadata of every show before it are
    cached. *)
Theorem main_exit (username : string) (force : bool) (rate_limit : R)
    (blur_factor blur_radius : Z) (m : machine) (status : Z)
    (m' : machine) :
  main username force rate_limit blur_factor blur_radius m
  = (Exited status, m') →
  status = 0%Z
  ∧ ((∃ msg w, jikan_user username (net m) = (Failed (APIException msg), w)
               ∧ first_word msg = "400"%string
               ∧ files m' = files m)
     ∨ (∃ user_animes fetched a rest,
          user_files (files m') !! username = Some user_animes
          ∧ user_animes = fetched ++ a :: rest
          ∧ ((∀ b, b ∈ fetched →
                   is_Some (image_files (files m') !! mal_id b))
             ∨ ((∀ b, b ∈ user_animes →
                      is_Some (image_files (files m') !! mal_id b))
                ∧ (∀ b, b ∈ fetched →
                        is_Some (anime_files (files m') !! mal_id b)))))).
Proof.
  unfold main. intros Hrun.
  destruct (fetch_user_animes username force m) as [[user_animes|e] m1]
    eqn:Huser.
  - apply fetch_user_animes_inv in Huser as (_ & _ & _ & _ & _ & Hlist).
    unfold prog_bind in Hrun.
    destruct (fetch_images user_animes force rate_limit m1) as [[[]|e] m2]
      eqn:Himages.
    + apply fetch_images_inv in Himages as (Hu & _ & _ & _ & _ & Hall).
      destruct (fetch_anime_metadata user_animes force rate_limit m2)
        as [[[]|e] m3] eqn:Hmeta.
      * destruct (draw_to_disk (files m3) user_animes username blur_factor
                    blur_radius) as [[d|e] out]; done.
      * apply fetch_anime_metadata_inv in Hmeta
          as (Hu' & Hi' & _ & _ & _ & fetched & a & rest & -> & Hfetched).
        destruct e as [msg|name]; [|done].
        destruct (decide (first_word msg = "429"%string));
          [|by destruct (decide (first_word msg = "400"%string))].
        injection Hrun as <- <-. split; [done|]. right.
        exists (fetched ++ a :: rest), fetched, a, rest. cbn.
        split_and!; [congruence|done|]. right. split; [|done].
        intros b Hb. rewrite Hi'. by apply Hall.
    + apply fetch_images_inv in Himages
        as (Hu & _ & _ & _ & _ & fetched & a & rest & -> & Hfetched).
      destruct e as [msg|name]; [|done].
      destruct (decide (first_word msg = "429"%string));
        [|by destruct (decide (first_word msg = "400"%string))].
      injection Hrun as <- <-. split; [done|]. right.
      exists (fetched ++ a :: rest), fetched, a, rest. cbn.
      split_and!; [congruence|done|]. by left.
  - apply fetch_user_animes_inv in Huser
      as (_ & _ & _ & _ & _ & Hfiles & _ & Hget).
    destruct e as [msg|name]; [|done].
    destruct (decide (first_word msg = "400"%string)); [|done].
    injection Hrun as <- <-. split; [done|]. left.
    by exists msg, (net m1).
Qed.

(** X26.  Without [force], [main] overwrites and removes nothing of the
    three caches, however it ends: every user list, image and metadata
    file that was cached before is cached afterwards with the same
    content. *)
Theorem main_keeps_cache (username : string) (rate_limit : R)
    (blur_factor blur_radius : Z) (m : machine) (o : outcome)
    (m' : machine) :
  main username false rate_limit blur_factor blur_radius m = (o, m') →
  (∀ user user_animes, user_files (files m) !! user = Some user_animes →
                       user_files (files m') !! user = Some user_animes)
  ∧ (∀ id img, image_files (files m) !! id = Some img →
               image_files (files m') !! id = Some img)
  ∧ (∀ id md, anime_files (files m) !! id = Some md →
              anime_files (files m') !! id = Some md).
Proof.
  unfold main. intros Hrun.
  destruct (fetch_user_animes username false m) as [r1 m1] eqn:Huser.
  apply fetch_user_animes_inv in Huser
    as (Hi1 & Ha1 & _ & Hother & Hsame & Hres).
  assert (∀ user user_animes,
            user_files (files m) !! user = Some user_animes →
            user_files (files m1) !! user = Some user_animes) as Hu1.
  { intros user l Hl. destruct (decide (user = username)) as [->|Hne].
    - destruct (Hsame eq_refl l Hl) as (_ & -> & _). done.
    - by rewrite Hother. }
  destruct r1 as [user_animes|e].
  - unfold prog_bind in Hrun.
    destruct (fetch_images user_animes false rate_limit m1) as [r2 m2]
      eqn:Himages.
    apply fetch_images_inv in Himages as (Hu2 & Ha2 & _ & _ & Hi2 & _).
    specialize (Hi2 eq_refl).
    destruct r2 as [[]|e].
    + destruct (fetch_anime_metadata user_animes false rate_limit m2)
        as [r3 m3] eqn:Hmeta.
      apply fetch_anime_metadata_inv in Hmeta
        as (Hu3 & Hi3 & _ & _ & Ha3 & _).
      specialize (Ha3 eq_refl).
      assert ((∀ user user_animes,
                 user_files (files m) !! user = Some user_animes →
                 user_files (files m3) !! user = Some user_animes)
              ∧ (∀ id img, image_files (files m) !! id = Some img →
                           image_files (files m3) !! id = Some img)
              ∧ (∀ id md, anime_files (files m) !! id = Some md →
                          anime_files (files m3) !! id = Some md)) as Hkept.
      { split_and!.
        - intros user l Hl. rewrite Hu3, Hu2. by apply Hu1.
        - intros id img Himg. rewrite Hi3. apply Hi2. by rewrite Hi1.
        - intros id md Hmd. apply Ha3. rewrite Ha2. by rewrite Ha1. }
      destruct r3 as [[]|e].
      * destruct (draw_to_disk (files m3) user_animes username blur_factor
                    blur_radius) as [[d|e] out] eqn:Hdraw;
          injection Hrun as <- <-; cbn; [|done].
        apply draw_to_disk_files in Hdraw as (-> & -> & -> & _). done.
      * destruct e as [msg|name]; [|by injection Hrun as <- <-].
        destruct (decide (first_word msg = "429"%string));
          [by injection Hrun as <- <-|].
        destruct (decide (first_word msg = "400"%string));
          by injection Hrun as <- <-.
    + assert ((∀ user user_animes,
                 user_files (files m) !! user = Some user_animes →
                 user_files (files m2) !! user = Some user_animes)
              ∧ (∀ id img, image_files (files m) !! id = Some img →
                           image_files (files m2) !! id = Some img)
              ∧ (∀ id md, anime_files (files m) !! id = Some md →
                          anime_files (files m2) !! id = Some md)) as Hkept.
      { split_and!.
        - intros user l Hl. rewrite Hu2. by apply Hu1.
        - intros id img Himg. apply Hi2. by rewrite Hi1.
        - intros id md Hmd. rewrite Ha2. by rewrite Ha1. }
      destruct e as [msg|name]; [|by injection Hrun as <- <-].
      destruct (decide (first_word msg = "429"%string));
        [by injection Hrun as <- <-|].
      destruct (decide (first_word msg = "400"%string));
        by injection Hrun as <- <-.
  - destruct Hres as (Hfiles & _).
    assert (files m' = files m) as ->; [|done].
    destruct e as [msg|name]; [|by injection Hrun as <- <-].
    destruct (decide (first_word msg = "400"%string));
      by injection Hrun as <- <-.
Qed.

(** X27.  [main] saves a collage exactly when it returns.  When it
    returns, the collage of the user is in the output directory, the
    other files there are as they were, and the user's list and the image
    and the metadata of every show on it are cached; when it ends in any
    other way, the output directory is as it was. *)
Theorem main_collage_only_on_return (username : string) (force : bool)
    (rate_limit : R) (blur_factor blur_radius : Z) (m : machine)
    (o : outcome) (m' : machine) :
  main username force rate_limit blur_factor blur_radius m = (o, m') →
  match o with
  | Returned =>
      (∃ img, output_files (files m')
              = <[username := img]> (output_files (files m)))
      ∧ ∃ user_animes,
          user_files (files m') !! username = Some user_animes
          ∧ ∀ a, a ∈ user_animes →
                 is_Some (image_files (files m') !! mal_id a)
                 ∧ is_Some (anime_files (files m') !! mal_id a)
  | _ => output_files (files m') = output_files (files m)
  end.
Proof.
  unfold main. intros Hrun.
  destruct (fetch_user_animes username force m) as [r1 m1] eqn:Huser.
  apply fetch_user_animes_inv in Huser as (_ & _ & Ho1 & _ & _ & Hres).
  destruct r1 as [user_animes|e].
  - unfold prog_bind in Hrun.
    destruct (fetch_images user_animes force rate_limit m1) as [r2 m2]
      eqn:Himages.
    apply fetch_images_inv in Himages as (Hu2 & _ & Ho2 & _ & _ & Hall2).
    destruct r2 as [[]|e].
    + destruct (fetch_anime_metadata user_animes force rate_limit m2)
        as [r3 m3] eqn:Hmeta.
      apply fetch_anime_metadata_inv in Hmeta
        as (Hu3 & Hi3 & Ho3 & _ & _ & Hall3).
      destruct r3 as [[]|e].
      * destruct (draw_to_disk (files m3) user_animes username blur_factor
                    blur_radius) as [[d|e] out] eqn:Hdraw;
          injection Hrun as <- <-; cbn; [|congruence].
        apply draw_to_disk_files in Hdraw as (-> & -> & -> & img & ->).
        split; [exists img; congruence|]. exists user_animes.
        split; [congruence|]. intros a Ha. split; [|by apply Hall3].
        rewrite Hi3. by apply Hall2.
      * destruct e as [msg|name];
          [|injection Hrun as <- <-; congruence].
        destruct (decide (first_word msg = "429"%string));
          [injection Hrun as <- <-; cbn; congruence|].
        destruct (decide (first_word msg = "400"%string));
          injection Hrun as <- <-; cbn; congruence.
    + destruct e as [msg|name];
        [|injection Hrun as <- <-; congruence].
      destruct (decide (first_word msg = "429"%string));
        [injection Hrun as <- <-; cbn; congruence|].
      destruct (decide (first_word msg = "400"%string));
        injection Hrun as <- <-; cbn; congruence.
  - destruct e as [msg|name]; [|by injection Hrun as <- <-].
    destruct (decide (first_word msg = "400"%string));
      by injection Hrun as <- <-.
Qed.

(** X28.  For a user whose anime list is empty [main] ends with the
    [ValueError] of [draw]: nothing is downloaded, nothing further is
    printed and no collage is saved. *)
Theorem main_empty_list (username : string) (force : bool) (rate_limit : R)
    (blur_factor blur_radius : Z) (m m1 : machine) :
  fetch_user_animes username force m = (Done [], m1) →
  main username force rate_limit blur_factor blur_radius m
  = (Crashed ValueError, m1).
Proof.
  intros Huser. unfold main. rewrite Huser.
  unfold prog_bind. cbn. by rewrite add_stdout_nil.
Qed.

End main_properties.

(** ** Concrete runs of the added properties *)





(** X11 on a 2 x 2 and a 1 x 3 poster packed side by side. *)
Lemma margin_is_deadspace_witness :
  @placements demo_externals [flat 2 2 red; flat 1 3 blue] ≠ []
  ∧ ∃ max_width max_height canvas mask,
      @compose demo_externals [flat 2 2 red; flat 1 3 blue]
      = Ok (canvas, mask)
      ∧ has_shape (max_height + 1) (max_width + 1) canvas
      ∧ (∀ c, c < max_width + 1 →
           at2 mask max_height c = Some true
           ∧ at2 canvas max_height c = Some white)
      ∧ (∀ r, r < max_height + 1 →
           at2 mask r max_width = Some true
           ∧ at2 canvas r max_width = Some white)
      ∧ (max_height, max_width) ∈ np_where mask.
Proof.
  split; [discriminate|].
  apply (@margin_is_deadspace demo_externals). discriminate.
Defined.

Lemma demo_placements_disjoint :
  ∀ i j p q, i < j →
    @placements demo_externals [flat 2 2 red; flat 1 3 blue] !! i = Some p →
    @placements demo_externals [flat 2 2 red; flat 1 3 blue] !! j = Some q →
    ∀ r c, covers p r c → ¬ covers q r c.
Proof.
  intros i j p q Hij Hp Hq r c.
  change (@placements demo_externals [flat 2 2 red; flat 1 3 blue])
    with [((0, 0), flat 2 2 red); ((2, 0), flat 1 3 blue)] in Hp, Hq.
  destruct i as [|[|i]], j as [|[|j]]; try lia; try done.
  injection Hp as <-. injection Hq as <-.
  unfold covers. cbn. lia.
Qed.

(** X12 on the same two posters, which the row packer puts side by
    side. *)
Lemma every_poster_shown_witness :
  ∃ final,
    @arrange_images demo_externals [flat 2 2 red; flat 1 3 blue] 2 5
    = Ok final
    ∧ ∀ img, img ∈ [flat 2 2 red; flat 1 3 blue] →
        ∃ xy, (xy, img) ∈ @placements demo_externals
                             [flat 2 2 red; flat 1 3 blue]
              ∧ ∀ r c, r < (size img).2 → c < (size img).1 →
                  at2 final (xy.2 + r) (xy.1 + c) = Some (data img r c).
Proof.
  apply (@every_poster_shown demo_externals);
    [discriminate|reflexivity|apply demo_placements_disjoint].
Defined.

(** X13 on the same two posters: the third pass after two. *)
Lemma one_more_pass_witness :
  ∃ canvas mask previous next,
    @compose demo_externals [flat 2 2 red; flat 1 3 blue] = Ok (canvas, mask)
    ∧ @arrange_images demo_externals [flat 2 2 red; flat 1 3 blue] 2 5
      = Ok previous
    ∧ @arrange_images demo_externals [flat 2 2 red; flat 1 3 blue] (2 + 1) 5
      = Ok next
    ∧ ∀ r c, is_Some (at2 canvas r c) →
        at2 next r c
        = if decide (at2 mask r c = Some true)
          then Some (@gaussian_blur demo_externals 5 (fromarray previous) r c)
          else at2 previous r c.
Proof.
  apply (@one_more_pass demo_externals); [lia|discriminate].
Defined.

(** X14 on the same two posters (areas 4 and 3) in both orders. *)
Lemma collage_independent_of_order_witness :
  @arrange_images demo_externals [flat 2 2 red; flat 1 3 blue] 2 5
  = @arrange_images demo_externals [flat 1 3 blue; flat 2 2 red] 2 5.
Proof.
  apply (@collage_independent_of_order demo_externals).
  - apply perm_swap.
  - apply (bool_decide_unpack _). reflexivity.
Defined.

(** X16 on the cached list of two shows. *)
Lemma read_time_poster_data_spec_witness :
  Forall (λ a, (0 ≤ watched_episodes a)%Z) demo_list
  ∧ read_time_poster_data demo_disk demo_list
    = ([(624%Z, flat 2 2 red); (2496%Z, flat 4 4 blue)], [])
  ∧ Forall (λ tp : Z * image, (0 ≤ tp.1)%Z)
      [(624%Z, flat 2 2 red); (2496%Z, flat 4 4 blue)].
Proof.
  assert (Forall (λ a, (0 ≤ watched_episodes a)%Z) demo_list) as Heps
    by (repeat constructor; cbn; lia).
  split; [exact Heps|].
  destruct (read_time_poster_data_spec demo_disk demo_list)
    as (time_invested & out & Hread & _ & _ & _ & Hweights).
  assert (read_time_poster_data demo_disk demo_list
          = ([(624%Z, flat 2 2 red); (2496%Z, flat 4 4 blue)], [])) as Hrun
    by (vm_compute; reflexivity).
  split; [exact Hrun|].
  rewrite Hrun in Hread. injection Hread as <- <-. by apply Hweights.
Defined.

(** X17 on a list of one show whose duration is "Unknown". *)
Lemma unknown_durations_no_collage_witness :
  (∀ a md, a ∈ unknown_list →
           anime_files unknown_disk !! mal_id a = Some md →
           is_ascii (duration md) = true
           ∧ no_digits (duration md) = true)
  ∧ (@draw_to_disk demo_externals unknown_disk unknown_list "robin" 2 5).1
    = Raise ZeroDivisionError.
Proof.
  assert (∀ a md, a ∈ unknown_list →
            anime_files unknown_disk !! mal_id a = Some md →
            is_ascii (duration md) = true
            ∧ no_digits (duration md) = true) as Hunknown.
  { intros a md Ha Hmd. apply list_elem_of_singleton in Ha as ->.
    vm_compute in Hmd. by injection Hmd as <-. }
  split; [exact Hunknown|].
  rewrite (@unknown_durations_no_collage demo_externals _ _ _ _ _ Hunknown).
  reflexivity.
Defined.

Lemma time_sleep_nonneg `{Web} (rate_limit : R) :
  (0 <= rate_limit)%R →
  time_sleep rate_limit = call (λ w, (Done tt, sleep rate_limit w)).
Proof. intros Hr. unfold time_sleep. rewrite decide_False; [done|lra]. Qed.

Lemma demo_fetch_images :
  @fetch_images demo_web demo_list false 1 fresh_machine
  = (Done tt, images_machine).
Proof.
  unfold demo_list. cbn [fetch_images].
  rewrite (time_sleep_nonneg 1) by lra. reflexivity.
Qed.

Lemma demo_fetch_anime_metadata :
  @fetch_anime_metadata demo_web demo_list false 1 fresh_machine
  = (Failed (APIException "429 Too Many Requests"), metadata_machine).
Proof.
  unfold demo_list. cbn [fetch_anime_metadata].
  rewrite (time_sleep_nonneg 1) by lra. reflexivity.
Qed.

(** X18 on an empty disk: both images are downloaded. *)
Lemma fetch_images_contract_witness :
  @fetch_images demo_web demo_list false 1 fresh_machine
  = (Done tt, images_machine)
  ∧ user_files (files images_machine) = user_files (files fresh_machine)
  ∧ anime_files (files images_machine) = anime_files (files fresh_machine)
  ∧ output_files (files images_machine) = output_files (files fresh_machine)
  ∧ (∀ id, is_Some (image_files (files fresh_machine) !! id) →
           is_Some (image_files (files images_machine) !! id))
  ∧ (false = false → ∀ id img,
       image_files (files fresh_machine) !! id = Some img →
       image_files (files images_machine) !! id = Some img)
  ∧ ∀ a, a ∈ demo_list →
         is_Some (image_files (files images_machine) !! mal_id a).
Proof.
  split; [exact demo_fetch_images|].
  exact (@fetch_images_contract demo_web _ _ _ _ _ _ demo_fetch_images).
Defined.

(** X19 on the same run: the second run prints two lines. *)
Lemma fetch_images_rerun_offline_witness :
  @fetch_images demo_web demo_list false 1 fresh_machine
  = (Done tt, images_machine)
  ∧ @fetch_images demo_web demo_list false (-1) images_machine
    = (Done tt,
       add_stdout ["Skipping already cached image for: Cowboy Bebop";
                   "Skipping already cached image for: One Piece"]
         images_machine).
Proof.
  split; [exact demo_fetch_images|].
  exact (@fetch_images_rerun_offline demo_web _ _ _ (-1)%R _ _
           demo_fetch_images).
Defined.

(** X20 on an empty disk when Jikan answers one request: the metadata of
    the first show is cached, the second request raises. *)
Lemma fetch_anime_metadata_contract_witness :
  @fetch_anime_metadata demo_web demo_list false 1 fresh_machine
  = (Failed (APIException "429 Too Many Requests"), metadata_machine)
  ∧ user_files (files metadata_machine) = user_files (files fresh_machine)
  ∧ image_files (files metadata_machine) = image_files (files fresh_machine)
  ∧ output_files (files metadata_machine)
    = output_files (files fresh_machine)
  ∧ (∀ id, is_Some (anime_files (files fresh_machine) !! id) →
           is_Some (anime_files (files metadata_machine) !! id))
  ∧ (false = false → ∀ id md,
       anime_files (files fresh_machine) !! id = Some md →
       anime_files (files metadata_machine) !! id = Some md)
  ∧ ∃ fetched a rest,
      demo_list = fetched ++ a :: rest
      ∧ ∀ b, b ∈ fetched →
             is_Some (anime_files (files metadata_machine) !! mal_id b).
Proof.
  split; [exact demo_fetch_anime_metadata|].
  exact (@fetch_anime_metadata_contract demo_web _ _ _ _ _ _
           demo_fetch_anime_metadata).
Defined.

(** X21 on the same run: two lines were printed, the first show is
    cached and the second run starts at the second show. *)
Lemma fetch_anime_metadata_resumes_witness :
  @fetch_anime_metadata demo_web demo_list false 1 fresh_machine
  = (Failed (APIException "429 Too Many Requests"), metadata_machine)
  ∧ ∃ fetched a rest,
      demo_list = fetched ++ a :: rest
      ∧ length (stdout metadata_machine)
        = length (stdout fresh_machine) + length fetched + 1
      ∧ (∀ b, b ∈ fetched →
              is_Some (anime_files (files metadata_machine) !! mal_id b))
      ∧ @fetch_anime_metadata demo_web demo_list false 1 metadata_machine
        = @fetch_anime_metadata demo_web (a :: rest) false 1
            (add_stdout (metadata_cached_line <$> fetched) metadata_machine).
Proof.
  split; [exact demo_fetch_anime_metadata|].
  exact (@fetch_anime_metadata_resumes demo_web _ _ _ 1%R _ _ _
           demo_fetch_anime_metadata).
Defined.

Lemma demo_fetch_user_animes :
  @fetch_user_animes demo_web "spike" false fresh_machine
  = (Done demo_list, user_machine).
Proof. reflexivity. Qed.

(** X22 for a user Jikan knows, on an empty disk. *)
Lemma fetch_user_animes_round_trip_witness :
  @fetch_user_animes demo_web "spike" false fresh_machine
  = (Done demo_list, user_machine)
  ∧ user_files (files user_machine) !! "spike"%string = Some demo_list
  ∧ @fetch_user_animes demo_web "spike" false user_machine
    = (Done demo_list,
       add_stdout ["Using cached data located at:" +:+ newline +:+ tab
                   +:+ user_fpath "spike"] user_machine).
Proof.
  split; [exact demo_fetch_user_animes|].
  exact (@fetch_user_animes_round_trip demo_web _ _ _ _ _
           demo_fetch_user_animes).
Defined.

Lemma demo_fetch_unknown_user :
  @fetch_user_animes demo_web "faye" false fresh_machine
  = (Failed (APIException "400 Bad Request"),
     add_stdout ["Pulling userdata for faye"] fresh_machine).
Proof. reflexivity. Qed.

(** X23 for a user Jikan does not know. *)
Lemma fetch_user_animes_failure_witness :
  @fetch_user_animes demo_web "faye" false fresh_machine
  = (Failed (APIException "400 Bad Request"),
     add_stdout ["Pulling userdata for faye"] fresh_machine)
  ∧ (false = true ∨ user_files (files fresh_machine) !! "faye"%string = None)
  ∧ @jikan_user demo_web "faye" (net fresh_machine)
    = (Failed (APIException "400 Bad Request"),
       net (add_stdout ["Pulling userdata for faye"] fresh_machine))
  ∧ files (add_stdout ["Pulling userdata for faye"] fresh_machine)
    = files fresh_machine
  ∧ stdout (add_stdout ["Pulling userdata for faye"] fresh_machine)
    = stdout fresh_machine ++ ["Pulling userdata for " +:+ "faye"].
Proof.
  split; [exact demo_fetch_unknown_user|].
  exact (@fetch_user_animes_failure demo_web _ _ _ _ _
           demo_fetch_unknown_user).
Defined.

Lemma demo_disk_complete :
  ∀ a, a ∈ demo_list →
    is_Some (image_files (files cached_machine) !! mal_id a)
    ∧ is_Some (anime_files (files cached_machine) !! mal_id a).
Proof.
  intros a Ha. unfold demo_list in Ha.
  apply elem_of_cons in Ha as [->|Ha];
    [|apply list_elem_of_singleton in Ha as ->]; split; by eexists.
Qed.

(** X24 on a complete cache, with a network that answers nothing. *)
Lemma main_offline_from_cache_witness :
  user_files (files cached_machine) !! "spike"%string = Some demo_list
  ∧ @main demo_web demo_externals "spike" false 1 2 5 cached_machine
    = match @draw_to_disk demo_externals (files cached_machine) demo_list
              "spike" 2 5 with
      | (Raise e, out) =>
          (Crashed e,
           add_stdout
             ((["Using cached data located at:" +:+ newline +:+ tab
                +:+ user_fpath "spike"]
               ++ (image_cached_line <$> demo_list)
               ++ (metadata_cached_line <$> demo_list)) ++ out)
             cached_machine)
      | (Ok d, out) =>
          (Returned,
           {| net := net cached_machine; files := d;
              stdout := stdout cached_machine
                        ++ (["Using cached data located at:" +:+ newline
                             +:+ tab +:+ user_fpath "spike"]
                            ++ (image_cached_line <$> demo_list)
                            ++ (metadata_cached_line <$> demo_list))
                        ++ out |})
      end.
Proof.
  split; [reflexivity|].
  exact (@main_offline_from_cache demo_web demo_externals "spike" 1 2 5
           cached_machine demo_list eq_refl demo_disk_complete).
Defined.

Lemma demo_main_interrupted :
  @main demo_web demo_externals "spike" false 1 2 5 fresh_machine
  = (Exited 0, interrupted_machine).
Proof.
  unfold main. rewrite demo_fetch_user_animes.
  unfold demo_list, prog_bind at 1. cbn [fetch_images fetch_anime_metadata].
  rewrite (time_sleep_nonneg 1) by lra. reflexivity.
Qed.

(** X25 on an empty disk when Jikan answers one metadata request: the
    list and both images are cached, and the metadata of the first
    show. *)
Lemma main_exit_witness :
  @main demo_web demo_externals "spike" false 1 2 5 fresh_machine
  = (Exited 0, interrupted_machine)
  ∧ (0 = 0)%Z
  ∧ ((∃ msg w, @jikan_user demo_web "spike" (net fresh_machine)
               = (Failed (APIException msg), w)
               ∧ first_word msg = "400"%string
               ∧ files interrupted_machine = files fresh_machine)
     ∨ (∃ user_animes fetched a rest,
          user_files (files interrupted_machine) !! "spike"%string
          = Some user_animes
          ∧ user_animes = fetched ++ a :: rest
          ∧ ((∀ b, b ∈ fetched →
                is_Some (image_files (files interrupted_machine)
                         !! mal_id b))
             ∨ ((∀ b, b ∈ user_animes →
                   is_Some (image_files (files interrupted_machine)
                            !! mal_id b))
                ∧ (∀ b, b ∈ fetched →
                     is_Some (anime_files (files interrupted_machine)
                              !! mal_id b)))))).
Proof.
  split; [exact demo_main_interrupted|].
  exact (@main_exit demo_web demo_externals _ _ _ _ _ _ _ _
           demo_main_interrupted).
Defined.

Lemma demo_main_resumed :
  @main demo_web demo_externals "spike" false 1 2 5 partial_machine
  = (Exited 0, resumed_machine).
Proof.
  unfold main.
  change (@fetch_user_animes demo_web "spike" false partial_machine)
    with (@Done (list anime) demo_list,
          add_stdout ["Using cached data located at:" +:+ newline +:+ tab
                      +:+ user_fpath "spike"] partial_machine).
  unfold demo_list, prog_bind at 1. cbn [fetch_images fetch_anime_metadata].
  rewrite (time_sleep_nonneg 1) by lra. reflexivity.
Qed.

(** X26 on a disk that holds the list and one image: both are as they
    were after the interrupted run. *)
Lemma main_keeps_cache_witness :
  @main demo_web demo_externals "spike" false 1 2 5 partial_machine
  = (Exited 0, resumed_machine)
  ∧ (∀ user user_animes,
       user_files (files partial_machine) !! user = Some user_animes →
       user_files (files resumed_machine) !! user = Some user_animes)
  ∧ (∀ id img, image_files (files partial_machine) !! id = Some img →
               image_files (files resumed_machine) !! id = Some img)
  ∧ (∀ id md, anime_files (files partial_machine) !! id = Some md →
              anime_files (files resumed_machine) !! id = Some md).
Proof.
  split; [exact demo_main_resumed|].
  exact (@main_keeps_cache demo_web demo_externals _ _ _ _ _ _ _
           demo_main_resumed).
Defined.

Lemma demo_normalize :
  @normalize_posters demo_externals
    [(624%Z, flat 2 2 red); (2496%Z, flat 4 4 blue)]
  = Ok [@resize demo_externals (flat 2 2 red) (2, 2)%nat;
        @resize demo_externals (flat 4 4 blue) (4, 4)%nat].
Proof.
  unfold normalize_posters.
  change (py_max Z.max _) with (Ok 2496%Z).
  change (py_max Nat.max _) with (Ok (Nat.max (2 * 2) (4 * 4))).
  cbn [mbind result_bind].
  assert (poster_ratio 2496 (Nat.max (2 * 2) (4 * 4)) 624 (flat 2 2 red)
          = 1%R) as Hr1.
  { unfold poster_ratio, area. cbn [size flat fst snd]. nat_consts. lra. }
  assert (poster_ratio 2496 (Nat.max (2 * 2) (4 * 4)) 2496 (flat 4 4 blue)
          = 1%R) as Hr2.
  { unfold poster_ratio, area. cbn [size flat fst snd]. nat_consts. lra. }
  rewrite (normalize_loop_keep _ _ _ _ _ _ 2 2);
    [|done|unfold area; cbn; lia|lia|lia|..].
  2,3: rewrite Hr1; unfold target_height, target_width;
       cbn [size flat fst snd]; nat_consts; rewrite sqrt_1; lra.
  rewrite (normalize_loop_keep _ _ _ _ _ _ 4 4);
    [|done|unfold area; cbn; lia|lia|lia|..].
  2,3: rewrite Hr2; unfold target_height, target_width;
       cbn [size flat fst snd]; nat_consts; rewrite sqrt_1; lra.
  done.
Qed.

Lemma demo_main_returns :
  ∃ m', @main demo_web demo_externals "spike" false 1 2 5 cached_machine
        = (Returned, m').
Proof.
  unfold main.
  change (@fetch_user_animes demo_web "spike" false cached_machine)
    with (@Done (list anime) demo_list,
          add_stdout ["Using cached data located at:" +:+ newline +:+ tab
                      +:+ user_fpath "spike"] cached_machine).
  unfold prog_bind.
  rewrite fetch_images_cached
    by (intros a Ha; by apply demo_disk_complete).
  rewrite fetch_anime_metadata_cached
    by (intros a Ha; by apply demo_disk_complete).
  unfold draw_to_disk. cbn [files add_stdout cached_machine].
  change (read_time_poster_data demo_disk demo_list)
    with ([(624%Z, flat 2 2 red); (2496%Z, flat 4 4 blue)],
          @nil string).
  cbv beta iota. rewrite demo_normalize.
  destruct (@arrange_images demo_externals
              [@resize demo_externals (flat 2 2 red) (2, 2)%nat;
               @resize demo_externals (flat 4 4 blue) (4, 4)%nat] 2 5)
    as [img|e] eqn:Harrange; [by eexists|].
  vm_compute in Harrange. discriminate Harrange.
Qed.

(** X27 on a complete cache: [main] returns and the collage of ["spike"]
    is saved. *)
Lemma main_collage_only_on_return_witness :
  ∃ m',
    @main demo_web demo_externals "spike" false 1 2 5 cached_machine
    = (Returned, m')
    ∧ (∃ img, output_files (files m')
              = <["spike"%string := img]>
                  (output_files (files cached_machine)))
    ∧ ∃ user_animes,
        user_files (files m') !! "spike"%string = Some user_animes
        ∧ ∀ a, a ∈ user_animes →
               is_Some (image_files (files m') !! mal_id a)
               ∧ is_Some (anime_files (files m') !! mal_id a).
Proof.
  destruct demo_main_returns as [m' Hrun]. exists m'.
  split; [exact Hrun|].
  exact (@main_collage_only_on_return demo_web demo_externals _ _ _ _ _ _ _ _
           Hrun).
Defined.

Lemma demo_fetch_empty_list :
  @fetch_user_animes demo_web "jet" false jet_machine
  = (Done [],
     add_stdout ["Using cached data located at:" +:+ newline +:+ tab
                 +:+ user_fpath "jet"] jet_machine).
Proof. reflexivity. Qed.

(** X28 for a user whose cached list is empty. *)
Lemma main_empty_list_witness :
  @fetch_user_animes demo_web "jet" false jet_machine
  = (Done [],
     add_stdout ["Using cached data located at:" +:+ newline +:+ tab
                 +:+ user_fpath "jet"] jet_machine)
  ∧ @main demo_web demo_externals "jet" false 1 2 5 jet_machine
    = (Crashed ValueError,
       add_stdout ["Using cached data located at:" +:+ newline +:+ tab
                   +:+ user_fpath "jet"] jet_machine).
Proof.
  split; [exact demo_fetch_empty_list|].
  exact (@main_empty_list demo_web demo_externals _ _ 1%R 2 5 _ _
           demo_fetch_empty_list).
Defined.
